(** * parry: shell-style parameter expansion, embedded and verified

    A shallow embedding of the package [lib] of parry (quote tokenizer,
    valid-region resolver, parameter finder, parameter resolver,
    quote/escape normalizer, compositor) together with the properties
    stated about it.

    Texts are sequences of code points ([[]rune] in the source); Go strings
    are taken as the code-point sequence they decode to.  The patterns of
    the source are kept as regular-expression syntax trees and run by a
    backtracking matcher that follows the matching discipline of the
    [regexp2] package the source uses (leftmost match, alternatives in
    order, greedy and lazy loops, look-around, capture stacks with
    balancing groups). *)

From Stdlib Require Import ZArith Ascii String Lia.
From stdpp Require Import base option list sorting gmap.

Open Scope Z_scope.
Open Scope list_scope.

(** ** Runes and texts *)

Abbreviation rune := Z.
Abbreviation text := (list Z).

Definition rn (a : ascii) : rune := Z.of_N (N_of_ascii a).

Fixpoint str (s : string) : text :=
  match s with
  | EmptyString => []
  | String a s' => rn a :: str s'
  end.

(** The double quote and the backslash, the two characters that are
    awkward inside a literal. *)
Definition DQ : rune := 34.
Definition SQ : rune := 39.
Definition BSL : rune := 92.
Definition NL : rune := 10.
Definition CR : rune := 13.
Definition DOLLAR : rune := 36.

(** [payload[a:b]] *)
Definition slice (t : text) (a b : nat) : text := take (b - a) (drop a t).

(** ** Regular expressions *)

Module Regex.

(** Character classes: a list of inclusive ranges, possibly negated. *)
Inductive cset :=
| Among (rs : list (rune * rune))
| Except (rs : list (rune * rune)).

Definition in_ranges (c : rune) (rs : list (rune * rune)) : bool :=
  existsb (fun r => (fst r <=? c) && (c <=? snd r)) rs.

Definition cset_mem (c : rune) (cs : cset) : bool :=
  match cs with
  | Among rs => in_ranges c rs
  | Except rs => negb (in_ranges c rs)
  end.

Definition one (a : ascii) : rune * rune := (rn a, rn a).
Definition rng (a b : ascii) : rune * rune := (rn a, rn b).

Inductive greed := Greedy | Lazy.
Inductive dir := Fwd | Bwd.

Inductive regex :=
| Empty                                   (* the empty pattern *)
| Chr (cs : cset)                         (* one character of a class *)
| Seq (r1 r2 : regex)                     (* r1r2 *)
| Alt (r1 r2 : regex)                     (* r1|r2 *)
| Star (g : greed) (r : regex)            (* r* and r*? *)
| Opt (g : greed) (r : regex)             (* r? and r?? *)
| Times (n : nat) (r : regex)             (* r{n} *)
| Bol                                     (* ^ *)
| Eol                                     (* $ *)
| Look (d : dir) (negate : bool) (r : regex)  (* (?=r) (?!r) (?<=r) (?<!r) *)
| Group (name : string) (r : regex)       (* (?<name>r); (r) is named by its number *)
| Balance (name : string) (r : regex)     (* (?<-name>r) *)
| IfGroup (name : string) (yes no : regex). (* (?(name)yes|no) *)

(** [cat [r1; ...; rn]] is r1...rn and [alts [r1; ...; rn]] is r1|...|rn. *)
Fixpoint cat (rs : list regex) : regex :=
  match rs with
  | [] => Empty
  | [r] => r
  | r :: rs' => Seq r (cat rs')
  end.

Fixpoint alts (rs : list regex) : regex :=
  match rs with
  | [] => Empty
  | [r] => r
  | r :: rs' => Alt r (alts rs')
  end.

(** A literal character and a literal string. *)
Definition chr (a : ascii) : regex := Chr (Among [one a]).

Fixpoint lit (s : string) : regex :=
  match s with
  | EmptyString => Empty
  | String a EmptyString => chr a
  | String a s' => Seq (chr a) (lit s')
  end.

(** [.] without the single-line option: anything but a line feed. *)
Definition dot : regex := Chr (Except [(NL, NL)]).
(** [(?!)] *)
Definition Never : regex := Look Fwd true Empty.
Definition Lookbehind (r : regex) : regex := Look Bwd false r.
Definition NotAhead (r : regex) : regex := Look Fwd true r.

(** *** Matcher state: a position and the stack of captures made so far. *)

Definition capture : Type := string * (nat * nat).   (* group, start, end *)

Record state := { pos : nat; caps : list capture }.

Definition at_pos (p : nat) (s : state) : state := {| pos := p; caps := caps s |}.

Definition push (name : string) (a b : nat) (s : state) : state :=
  {| pos := pos s; caps := (name, (Nat.min a b, Nat.max a b)) :: caps s |}.

(** Latest capture of a group, if it has one. *)
Fixpoint last_capture (name : string) (cs : list capture) : option (nat * nat) :=
  match cs with
  | [] => None
  | (n, c) :: cs' => if String.eqb n name then Some c else last_capture name cs'
  end.

(** Remove the latest capture of a group. *)
Fixpoint pop (name : string) (cs : list capture) : option (list capture) :=
  match cs with
  | [] => None
  | (n, c) :: cs' =>
      if String.eqb n name then Some cs'
      else match pop name cs' with
           | Some cs'' => Some ((n, c) :: cs'')
           | None => None
           end
  end.

Section Matcher.

Variable multiline : bool.
Variable input : text.

Definition cont := state -> option state.

Definition at_bol (p : nat) : bool :=
  match p with
  | O => true
  | S p' => multiline && bool_decide (input !! p' = Some NL)
  end.

(** [$]: the end of the text or just before its final line feed; with
    the multi-line option, before any line feed. *)
Definition at_eol (p : nat) : bool :=
  (p =? length input)%nat
  || (bool_decide (input !! p = Some NL) && (multiline || (S p =? length input)%nat)).

(** One character in the direction of the match. *)
Definition step (d : dir) (cs : cset) (s : state) (k : cont) : option state :=
  match d with
  | Fwd =>
      match input !! pos s with
      | Some c => if cset_mem c cs then k (at_pos (S (pos s)) s) else None
      | None => None
      end
  | Bwd =>
      match pos s with
      | O => None
      | S p =>
          match input !! p with
          | Some c => if cset_mem c cs then k (at_pos p s) else None
          | None => None
          end
      end
  end.

(** The loop of [r*]: [body] runs one iteration.  An iteration that
    consumes nothing is not repeated.  [n] bounds the iterations; every
    iteration moves by at least one character, so the length of the text
    plus one is never reached. *)
Fixpoint star_loop (body : state -> cont -> option state) (g : greed) (k : cont)
         (n : nat) (s : state) : option state :=
  match n with
  | O => k s
  | S n' =>
      let again := fun s' =>
        if (pos s' =? pos s)%nat then None else star_loop body g k n' s' in
      match g with
      | Greedy =>
          match body s again with
          | Some res => Some res
          | None => k s
          end
      | Lazy =>
          match k s with
          | Some res => Some res
          | None => body s again
          end
      end
  end.

Fixpoint times_loop (body : state -> cont -> option state) (k : cont)
         (n : nat) (s : state) : option state :=
  match n with
  | O => k s
  | S n' => body s (times_loop body k n')
  end.

(** [run r d s k]: match [r] from state [s] in direction [d], then go on
    with [k]; the first success in priority order is the answer. *)
Fixpoint run (r : regex) (d : dir) (s : state) (k : cont) {struct r} : option state :=
  match r with
  | Empty => k s
  | Chr cs => step d cs s k
  | Seq r1 r2 =>
      match d with
      | Fwd => run r1 d s (fun s' => run r2 d s' k)
      | Bwd => run r2 d s (fun s' => run r1 d s' k)
      end
  | Alt r1 r2 =>
      match run r1 d s k with
      | Some res => Some res
      | None => run r2 d s k
      end
  | Star g r1 => star_loop (run r1 d) g k (S (length input)) s
  | Opt g r1 =>
      match g with
      | Greedy =>
          match run r1 d s k with
          | Some res => Some res
          | None => k s
          end
      | Lazy =>
          match k s with
          | Some res => Some res
          | None => run r1 d s k
          end
      end
  | Times n r1 => times_loop (run r1 d) k n s
  | Bol => if at_bol (pos s) then k s else None
  | Eol => if at_eol (pos s) then k s else None
  | Look d' negate r1 =>
      match run r1 d' s Some with
      | Some s' => if negate then None else k (at_pos (pos s) s')
      | None => if negate then k s else None
      end
  | Group name r1 => run r1 d s (fun s' => k (push name (pos s) (pos s') s'))
  | Balance name r1 =>
      run r1 d s (fun s' =>
        match pop name (caps s') with
        | Some cs => k {| pos := pos s'; caps := cs |}
        | None => None
        end)
  | IfGroup name yes no =>
      match last_capture name (caps s) with
      | Some _ => run yes d s k
      | None => run no d s k
      end
  end.

(** What [run] can answer, as a relation between the state before and
    the state after: the matches of a pattern without the order in which
    they are tried. *)
Inductive Matches : regex -> dir -> state -> state -> Prop :=
| M_Empty d s : Matches Empty d s s
| M_Chr_fwd cs s c :
    input !! pos s = Some c -> cset_mem c cs = true ->
    Matches (Chr cs) Fwd s (at_pos (S (pos s)) s)
| M_Chr_bwd cs s p c :
    pos s = S p -> input !! p = Some c -> cset_mem c cs = true ->
    Matches (Chr cs) Bwd s (at_pos p s)
| M_Seq_fwd r1 r2 s s1 s2 :
    Matches r1 Fwd s s1 -> Matches r2 Fwd s1 s2 -> Matches (Seq r1 r2) Fwd s s2
| M_Seq_bwd r1 r2 s s1 s2 :
    Matches r2 Bwd s s1 -> Matches r1 Bwd s1 s2 -> Matches (Seq r1 r2) Bwd s s2
| M_Alt_l r1 r2 d s s' : Matches r1 d s s' -> Matches (Alt r1 r2) d s s'
| M_Alt_r r1 r2 d s s' : Matches r2 d s s' -> Matches (Alt r1 r2) d s s'
| M_Star_stop g r d s : Matches (Star g r) d s s
| M_Star_more g r d s s1 s2 :
    Matches r d s s1 -> pos s1 <> pos s -> Matches (Star g r) d s1 s2 ->
    Matches (Star g r) d s s2
| M_Opt_skip g r d s : Matches (Opt g r) d s s
| M_Opt_take g r d s s' : Matches r d s s' -> Matches (Opt g r) d s s'
| M_Times_O r d s : Matches (Times O r) d s s
| M_Times_S n r d s s1 s2 :
    Matches r d s s1 -> Matches (Times n r) d s1 s2 ->
    Matches (Times (S n) r) d s s2
| M_Bol d s : at_bol (pos s) = true -> Matches Bol d s s
| M_Eol d s : at_eol (pos s) = true -> Matches Eol d s s
| M_Look_pos d d' r s s' :
    Matches r d' s s' -> Matches (Look d' false r) d s (at_pos (pos s) s')
| M_Look_neg d d' r s :
    run r d' s Some = None -> Matches (Look d' true r) d s s
| M_Group name r d s s' :
    Matches r d s s' -> Matches (Group name r) d s (push name (pos s) (pos s') s')
| M_Balance name r d s s' cs :
    Matches r d s s' -> pop name (caps s') = Some cs ->
    Matches (Balance name r) d s {| pos := pos s'; caps := cs |}
| M_If_yes name yes no d s s' c :
    last_capture name (caps s) = Some c -> Matches yes d s s' ->
    Matches (IfGroup name yes no) d s s'
| M_If_no name yes no d s s' :
    last_capture name (caps s) = None -> Matches no d s s' ->
    Matches (IfGroup name yes no) d s s'.

(** A match: where it starts, how long it is, and its captures. *)
Record Match := { Index : nat; Length : nat; Groups : list capture }.

Definition match_at (r : regex) (p : nat) : option Match :=
  match run r Fwd {| pos := p; caps := [] |} Some with
  | Some s => Some {| Index := p; Length := pos s - p; Groups := caps s |}
  | None => None
  end.

(** Leftmost match: start positions [p], [p+1], ..., [p+n]. *)
Fixpoint scan (r : regex) (n : nat) (p : nat) : option Match :=
  match match_at r p with
  | Some m => Some m
  | None =>
      match n with
      | O => None
      | S n' => scan r n' (S p)
      end
  end.

Definition find_from (r : regex) (start : nat) : option Match :=
  scan r (length input - start) start.

(** Where the search for the match after [m] starts: at the end of [m],
    one further when [m] is empty, nowhere when an empty [m] sits at the
    end of the text. *)
Definition next_start (m : Match) : option nat :=
  let e := (Index m + Length m)%nat in
  if (Length m =? 0)%nat then
    if (e =? length input)%nat then None else Some (S e)
  else Some e.

(** The matches a [for m != nil { ...; m = FindNextMatch(m) }] loop sees. *)
Fixpoint matches_from (r : regex) (fuel : nat) (start : nat) : list Match :=
  match fuel with
  | O => []
  | S fuel' =>
      match find_from r start with
      | None => []
      | Some m =>
          m :: match next_start m with
               | Some p => matches_from r fuel' p
               | None => []
               end
      end
  end.

Definition all_matches (r : regex) : list Match :=
  matches_from r (S (length input)) 0.

(** [m.GroupByName(name)]: the text of the latest capture; a group that
    did not take part is empty. *)
Definition group_span (m : Match) (name : string) : nat * nat :=
  match last_capture name (Groups m) with
  | Some c => c
  | None => (O, O)
  end.

Definition group_text (m : Match) (name : string) : text :=
  let c := group_span m name in slice input (fst c) (snd c).

Definition group_length (m : Match) (name : string) : nat :=
  let c := group_span m name in (snd c - fst c)%nat.

Definition match_text (m : Match) : text :=
  slice input (Index m) (Index m + Length m).

End Matcher.

End Regex.

Import Regex.

(** ** The patterns of the source *)

(** A compiled pattern: [regexp2.MustCompile(pattern, options)]; the only
    option the source uses is [regexp2.Multiline]. *)
Record Regexp := MustCompile { pattern : regex; Multiline : bool }.

Definition FindRunesMatch (re : Regexp) (payload : text) : option Match :=
  find_from (Multiline re) payload (pattern re) 0.

Definition FindAll (re : Regexp) (payload : text) : list Match :=
  all_matches (Multiline re) payload (pattern re).

(** [[A-Za-z_][A-Za-z0-9_]*] *)
Definition paramName : regex :=
  Seq (Chr (Among [rng "A" "Z"; rng "a" "z"; one "_"]))
      (Star Greedy (Chr (Among [rng "A" "Z"; rng "a" "z"; rng "0" "9"; one "_"]))).

(** [(?<defaultsOperation>:?[-+?])] *)
Definition paramDefaults : regex :=
  Group "defaultsOperation"
    (Seq (Opt Greedy (chr ":")) (Chr (Among [one "-"; one "+"; one "?"]))).

(** The look-behind [(?<= (?:[^\\]|^) (?:[\\]{2})* )]: the start of the
    text or a character that is not a backslash, then pairs of
    backslashes. *)
Definition unescapedToken : regex :=
  Lookbehind
    (Seq (Alt (Chr (Except [(BSL, BSL)])) Bol)
         (Star Greedy (Times 2 (Chr (Among [(BSL, BSL)]))))).

Definition chSQ : regex := Chr (Among [(SQ, SQ)]).
Definition chDQ : regex := Chr (Among [(DQ, DQ)]).
Definition chBSL : regex := Chr (Among [(BSL, BSL)]).
Definition chDollar : regex := Chr (Among [(DOLLAR, DOLLAR)]).

Definition unescapedSingleQuote : regex := Seq unescapedToken chSQ.
Definition unescapedDoubleQuote : regex := Seq unescapedToken chDQ.
Definition escapedSingleQuote : regex := cat [unescapedToken; chBSL; chSQ].
Definition escapedDoubleQuote : regex := cat [unescapedToken; chBSL; chDQ].

Definition resolveDoubleQuotesRegex : Regexp := MustCompile unescapedDoubleQuote false.

Definition resolveAllQuotesRegex : Regexp :=
  MustCompile (Alt unescapedSingleQuote unescapedDoubleQuote) false.

(** [(?:U\$\{(?<braced>N))] then the loop, zero or more times, of
    [(?<braceDepth>U\$\{N)] or [(?:U[$](?!\{)|[^$}]|U\\[$])] or
    [(?<-braceDepth>\})], then [(?(braceDepth)(?!))\}], with U the
    unescaped-token look-behind and N the parameter name. *)
Definition bracedParam : regex :=
  cat [ cat [unescapedToken; lit "${"; Group "braced" paramName];
        Star Greedy
          (alts [ Group "braceDepth" (cat [unescapedToken; lit "${"; paramName]);
                  alts [ cat [unescapedToken; chDollar; NotAhead (chr "{")];
                         Chr (Except [one "$"; one "}"]);
                         cat [unescapedToken; chBSL; chDollar] ];
                  Balance "braceDepth" (chr "}") ]);
        IfGroup "braceDepth" Never Empty;
        chr "}" ].

(** [U\$(?<bare>N)|bracedParam] *)
Definition paramFinderPattern : regex :=
  Alt (cat [unescapedToken; chDollar; Group "bare" paramName]) bracedParam.

(** [\$\{N] then, optionally, the group expansion holding the group
    defaults holding (D) and the group defaultsValue, a lazy [.*?]; then
    [\}$].  D is the defaults operation; the group around it is unnamed.
    The pattern is not anchored at its start. *)
Definition paramParserPattern : regex :=
  cat [ lit "${"; paramName;
        Opt Greedy
          (Group "expansion"
             (Group "defaults"
                (Seq (Group "1" paramDefaults)
                     (Group "defaultsValue" (Star Lazy dot)))));
        chr "}"; Eol ].

Definition unescapeAllQuotesRegex : Regexp :=
  MustCompile (Alt escapedSingleQuote escapedDoubleQuote) false.

Definition unescapedDollarRegex : Regexp :=
  MustCompile (Seq unescapedToken chDollar) false.

(** [\s]: the white space of Unicode. *)
Definition space : regex :=
  Chr (Among [(9, 13); (32, 32); (133, 133); (160, 160); (5760, 5760);
              (8192, 8202); (8232, 8233); (8239, 8239); (8287, 8287);
              (12288, 12288)]).

(** [(?<name>N)=] then the group value, a greedy run of [.] *)
Definition envVarPattern : regex :=
  cat [Group "name" paramName; chr "="; Group "value" (Star Greedy dot)].
Definition envParserPattern : regex := Seq Bol envVarPattern.
(** [^(?:export\s+)?...] *)
Definition envFileParserPattern : regex :=
  cat [Bol; Opt Greedy (cat [lit "export"; space; Star Greedy space]); envVarPattern].

Definition hexdigit : regex :=
  Chr (Among [rng "0" "9"; rng "a" "f"; rng "A" "F"]).
Definition octdigit : regex := Chr (Among [rng "0" "7"]).

(** [U(?:\\\$|(?<quotable>\\(?:[\\abfnrtv]|[0-7]{3}|x[0-9a-fA-F]{2}|u[0-9a-fA-F]{4}|U[0-9a-fA-F]{8})))] *)
Definition escapeSequenceRegex : Regexp :=
  MustCompile
    (Seq unescapedToken
       (Alt (Seq chBSL chDollar)
            (Group "quotable"
               (Seq chBSL
                  (alts [ Chr (Among [(BSL, BSL); one "a"; one "b"; one "f"; one "n";
                                      one "r"; one "t"; one "v"]);
                          Times 3 octdigit;
                          Seq (chr "x") (Times 2 hexdigit);
                          Seq (chr "u") (Times 4 hexdigit);
                          Seq (chr "U") (Times 8 hexdigit) ])))))
    false.

Definition paramFinderRegex : Regexp := MustCompile paramFinderPattern false.
Definition paramParserRegex : Regexp := MustCompile paramParserPattern false.

(** [([\n\r]|.)] *)
Definition anychar : regex := Alt (Chr (Among [(NL, NL); (CR, CR)])) dot.

(** Two alternatives: the group singleQuoted, an unescaped single quote,
    any characters (lazily), a single quote; and the group doubleQuoted,
    an unescaped double quote, any characters (lazily), an unescaped
    double quote.  A single-quoted run thus starts at an unescaped quote
    and ends at any single quote. *)
Definition quoteTokenizerPattern : regex :=
  Alt (Group "singleQuoted"
         (cat [unescapedSingleQuote; Star Lazy (Group "1" anychar); chSQ]))
      (Group "doubleQuoted"
         (cat [unescapedDoubleQuote; Star Lazy (Group "2" anychar); unescapedDoubleQuote])).

Definition quoteTokenizerRegex : Regexp := MustCompile quoteTokenizerPattern false.

(** ** Outcomes: a value, or a panic with its message *)

Inductive outcome (A : Type) :=
| Ok (a : A)
| Panic (msg : text)
| OutOfFuel.             (* the recursion bound of the model was reached *)
Arguments Ok {A} a.
Arguments Panic {A} msg.
Arguments OutOfFuel {A}.

Definition obind {A B : Type} (o : outcome A) (f : A -> outcome B) : outcome B :=
  match o with
  | Ok a => f a
  | Panic e => Panic e
  | OutOfFuel => OutOfFuel
  end.

Notation "'letM' x ':=' a 'in' b" := (obind a (fun x => b))
  (at level 10, x name, a at level 100, b at level 200, only parsing).
Notation "'letM' ' p ':=' a 'in' b" := (obind a (fun x => match x with p => b end))
  (at level 10, p pattern, a at level 100, b at level 200, only parsing).

(** ** Quote tokenizer *)

Inductive SegmentType := unQuoted | singleQuoted | doubleQuoted.

Global Instance SegmentType_eq_dec : EqDecision SegmentType.
Proof. solve_decision. Defined.

Record Segment := mkSegment { Position : nat * nat; segType : SegmentType }.

(** The body of the loop of [tokenizeByQuotes] over the matches, with
    [lastIndex] threaded through. *)
Fixpoint tokenize_loop (payload : text) (ms : list Match) (lastIndex : nat)
  : outcome (list Segment) :=
  match ms with
  | [] =>
      Ok (if bool_decide (lastIndex ≠ length payload)
          then [mkSegment (lastIndex, length payload) unQuoted]
          else [])
  | m :: ms' =>
      let before :=
        if bool_decide (lastIndex ≠ Index m)
        then [mkSegment (lastIndex, Index m) unQuoted] else [] in
      let sType :=
        if (0 <? group_length m "singleQuoted")%nat then Some singleQuoted
        else if (0 <? group_length m "doubleQuoted")%nat then Some doubleQuoted
        else None in
      match sType with
      | None => Panic (str "could not parse quotes")
      | Some ty =>
          let lastIndex' := (Index m + Length m)%nat in
          letM rest := tokenize_loop payload ms' lastIndex' in
          Ok (before ++ mkSegment (Index m, lastIndex') ty :: rest)
      end
  end.

Definition tokenizeByQuotes (payload : text) : outcome (list Segment) :=
  tokenize_loop payload (FindAll quoteTokenizerRegex payload) 0.

(** ** Valid-region resolver *)

(** [valid] is kept in reverse, its last range first.  The source
    widens the last range in place, through the array it shares with the
    segment the range was taken from; that segment is not read again, and
    the program passes a fresh tokenization. *)
Fixpoint getValidSlices_loop (segments : list Segment) (valid : list (nat * nat))
  : list (nat * nat) :=
  match segments with
  | [] => reverse valid
  | segment :: rest =>
      if bool_decide (segType segment ≠ singleQuoted) then
        match valid with
        | (a, b) :: valid' =>
            if (b =? fst (Position segment))%nat
            then getValidSlices_loop rest ((a, snd (Position segment)) :: valid')
            else getValidSlices_loop rest (Position segment :: valid)
        | [] => getValidSlices_loop rest [Position segment]
        end
      else getValidSlices_loop rest valid
  end.

Definition getValidSlices (segments : list Segment) : list (nat * nat) :=
  getValidSlices_loop segments [].

Definition InRange (i : nat) (slice : nat * nat) : bool :=
  (fst slice <=? i)%nat && (i <? snd slice)%nat.

(** ** Parameter finder *)

Record Param := mkParam { Id : text; ParamPosition : nat * nat }.

Definition MatchesToIndices (re : Regexp) (payload : text) : list (nat * nat) :=
  map (fun m => (Index m, (Index m + Length m)%nat)) (FindAll re payload).

Definition findParams (payload : text) (validSlices : list (nat * nat)) : list Param :=
  let paramMatches := MatchesToIndices paramFinderRegex payload in
  flat_map (fun param =>
              if existsb (InRange (fst param)) validSlices
              then [mkParam (slice payload (fst param) (snd param)) param]
              else [])
           paramMatches.

(** ** Replacing matches *)

(** [re.ReplaceFunc(input, evaluator, -1, -1)]: every match, left to
    right, is replaced by what the evaluator returns for it.  The
    evaluators of the source only read the text of the match. *)
Fixpoint replace_loop (input : text) (ms : list Match)
         (evaluator : text -> outcome text) (prevat : nat) : outcome text :=
  match ms with
  | [] => Ok (drop prevat input)
  | m :: ms' =>
      letM r := evaluator (match_text input m) in
      letM rest := replace_loop input ms' evaluator (Index m + Length m) in
      Ok (slice input prevat (Index m) ++ r ++ rest)
  end.

Definition ReplaceFunc (re : Regexp) (input : text)
           (evaluator : text -> outcome text) : outcome text :=
  replace_loop input (FindAll re input) evaluator 0.

(** [re.Replace(input, replacement, -1, -1)] for a replacement without
    group references. *)
Fixpoint Replace_loop (input : text) (ms : list Match) (replacement : text)
         (prevat : nat) : text :=
  match ms with
  | [] => drop prevat input
  | m :: ms' =>
      slice input prevat (Index m) ++ replacement
        ++ Replace_loop input ms' replacement (Index m + Length m)
  end.

Definition Replace (re : Regexp) (input replacement : text) : text :=
  Replace_loop input (FindAll re input) replacement 0.

(** ** Environment *)

Abbreviation Env := (gmap (list Z) (list Z)).

Definition LookupEnv (env : Env) (name : text) : text * bool :=
  match env !! name with
  | Some v => (v, true)
  | None => ([], false)
  end.

Definition Getenv (env : Env) (name : text) : text := fst (LookupEnv env name).

(** ** Parameter resolver *)

(** [handleDefaults(match, param)]; [input] is the text [match] was found
    in.  Returns the value, whether it is the result, and whether the
    reference fails. *)
Definition handleDefaults (env : Env) (input : text) (m : Match) (param : text)
  : outcome (text * bool * bool) :=
  let operation := group_text input m "defaultsOperation" in
  let '(value, isSet) := LookupEnv env param in
  match last operation with
  | None => Panic (str "runtime error: slice bounds out of range [:1] with length 0")
  | Some op =>
      let emptyEqualsUnset := bool_decide (take 1 operation = str ":") in
      let unsetOrEmpty :=
        (bool_decide (length value = 0%nat) && emptyEqualsUnset) || negb isSet in
      if bool_decide (op = rn "-") then
        Ok (value, negb unsetOrEmpty, false)
      else if bool_decide (op = rn "+") then
        Ok (value,
            negb ((0 <? length value)%nat || (isSet && negb emptyEqualsUnset)),
            false)
      else if bool_decide (op = rn "?") then
        Ok (value, negb unsetOrEmpty, unsetOrEmpty)
      else Ok (value, true, false)
  end.

(** [parseEmbeddedParams] and [parseParam] call each other; [self] stands
    for [parseParam] in both. *)
Definition parseEmbeddedParams_with (self : text -> outcome text) (value : text)
  : outcome text :=
  ReplaceFunc paramFinderRegex value self.

(** The value [parseParam] computes for the reference [finderMatch] it
    found in [param]. *)
Definition referenceValue_with (self : text -> outcome text) (env : Env)
           (param : text) (finderMatch : Match) : outcome text :=
  if (0 <? group_length finderMatch "bare")%nat then
    Ok (Getenv env (group_text param finderMatch "bare"))
  else if (0 <? group_length finderMatch "braced")%nat then
    let braced := group_text param finderMatch "braced" in
    let found := match_text param finderMatch in
    match FindRunesMatch paramParserRegex found with
    | Some parserMatch =>
        if (0 <? group_length parserMatch "defaults")%nat then
          letM '(value, resolved, failing) :=
            handleDefaults env found parserMatch braced in
          letM value :=
            (if resolved then Ok value
             else parseEmbeddedParams_with self
                    (group_text found parserMatch "defaultsValue")) in
          if failing then Panic value else Ok value
        else Ok (Getenv env braced)
    | None => Ok (Getenv env braced)
    end
  else Ok param.

Definition parseParam_with (self : text -> outcome text) (env : Env) (param : text)
  : outcome text :=
  match FindRunesMatch paramFinderRegex param with
  | Some finderMatch =>
      letM value := referenceValue_with self env param finderMatch in
      Ok (take (Index finderMatch) param ++ value
            ++ drop (Index finderMatch + Length finderMatch) param)
  | None => Ok param
  end.

(** The recursion of [parseParam], [fuel] deep.  A reference nested in a
    default expression is shorter than the reference around it, so the
    length of the text, plus one, is deep enough. *)
Fixpoint parseParam_rec (fuel : nat) (env : Env) (param : text) : outcome text :=
  match fuel with
  | O => OutOfFuel
  | S fuel' => parseParam_with (parseParam_rec fuel' env) env param
  end.

Definition parseParam (env : Env) (param : text) : outcome text :=
  parseParam_rec (S (length param)) env param.

Definition parseEmbeddedParams (env : Env) (value : text) : outcome text :=
  parseEmbeddedParams_with (parseParam env) value.


(** ** Quote/escape normalizer *)

(** The fragment wrapped in the quotes of the context it was found in. *)
Definition wrap (param : text) (parent : SegmentType) : text :=
  match parent with
  | singleQuoted => SQ :: param ++ [SQ]
  | doubleQuoted => DQ :: param ++ [DQ]
  | unQuoted => param
  end.

(** [s[1 : len(s)-1]] *)
Definition strip_ends (s : text) : text := slice s 1 (length s - 1).

(** [unescaper]: the match without its first character. *)
Definition unescaper (m : text) : outcome text := Ok (drop 1 m).

Definition escapeLiteralDollars (param : text) (parent : SegmentType) : outcome text :=
  let param := wrap param parent in
  let payload := param in
  letM segments := tokenizeByQuotes payload in
  let results :=
    map (fun segment =>
           let runner := slice payload (fst (Position segment)) (snd (Position segment)) in
           if bool_decide (segType segment = singleQuoted)
           then Replace unescapedDollarRegex runner [BSL; DOLLAR]
           else runner)
        segments in
  let param := concat results in
  Ok (if bool_decide (parent ≠ unQuoted) then strip_ends param else param).

(** *** [strconv.UnquoteChar(s, 0)] on a backslash sequence *)

Definition int32 (z : Z) : Z := (z + 2147483648) mod 4294967296 - 2147483648.

Definition unhex (c : rune) : option Z :=
  if (rn "0" <=? c) && (c <=? rn "9") then Some (c - rn "0")
  else if (rn "a" <=? c) && (c <=? rn "f") then Some (c - rn "a" + 10)
  else if (rn "A" <=? c) && (c <=? rn "F") then Some (c - rn "A" + 10)
  else None.

(** [v = v<<4 | x] over [n] digits; [None] is a syntax error. *)
Fixpoint hex_digits (n : nat) (s : text) (v : Z) : option Z :=
  match n with
  | O => Some v
  | S n' =>
      match s with
      | c :: s' =>
          match unhex c with
          | Some x => hex_digits n' s' (int32 (Z.lor (Z.shiftl v 4) x))
          | None => None
          end
      | [] => None
      end
  end.

Fixpoint oct_digits (n : nat) (s : text) (v : Z) : option Z :=
  match n with
  | O => Some v
  | S n' =>
      match s with
      | c :: s' =>
          let x := c - rn "0" in
          if (x <? 0) || (7 <? x) then None
          else oct_digits n' s' (int32 (Z.lor (Z.shiftl v 3) x))
      | [] => None
      end
  end.

Definition ValidRune (r : rune) : bool :=
  ((0 <=? r) && (r <? 55296)) || ((57343 <? r) && (r <=? 1114111)).

(** The value [UnquoteChar] returns; on a syntax error it is zero, and the
    source ignores the error. *)
Definition UnquoteChar (s : text) : rune :=
  match s with
  | b :: c :: s' =>
      if negb (b =? BSL) then b
      else if c =? rn "a" then 7
      else if c =? rn "b" then 8
      else if c =? rn "f" then 12
      else if c =? rn "n" then 10
      else if c =? rn "r" then 13
      else if c =? rn "t" then 9
      else if c =? rn "v" then 11
      else if c =? rn "x" then default 0 (hex_digits 2 s' 0)
      else if (c =? rn "u") || (c =? rn "U") then
        match hex_digits (if c =? rn "u" then 4 else 8) s' 0 with
        | Some v => if ValidRune v then v else 0
        | None => 0
        end
      else if (rn "0" <=? c) && (c <=? rn "7") then
        match oct_digits 2 s' (c - rn "0") with
        | Some v => if 255 <? v then 0 else v
        | None => 0
        end
      else if c =? BSL then BSL
      else 0
  | [b] => if b =? BSL then 0 else b
  | [] => 0
  end.

(** [string(r)] for a rune [r]. *)
Definition string_of_rune (r : rune) : text :=
  if ValidRune r then [r] else [65533].

Fixpoint escape_loop (runes : text) (ms : list Match) (lastIndex : nat) : text :=
  match ms with
  | [] => drop lastIndex runes
  | m :: ms' =>
      let matchStr := match_text runes m in
      let replacement :=
        if bool_decide (matchStr = [BSL; DOLLAR]) then [DOLLAR]
        else if (0 <? group_length m "quotable")%nat
             then string_of_rune (UnquoteChar matchStr)
             else matchStr in
      slice runes lastIndex (Index m) ++ replacement
        ++ escape_loop runes ms' (Index m + Length m)
  end.

Definition escapeHandler (param : text) : text :=
  escape_loop param (FindAll escapeSequenceRegex param) 0.

(** [\\.] *)
Definition backslashAny : Regexp := MustCompile (Seq chBSL dot) false.

(** One segment of [quoteHandler]. *)
Definition quoteHandler_segment (param : text) (parent : SegmentType)
           (segment : Segment) : outcome text :=
  let runner := slice param (fst (Position segment)) (snd (Position segment)) in
  if bool_decide (segType segment = unQuoted) then
    match FindRunesMatch resolveAllQuotesRegex runner with
    | Some m =>
        Panic (str "unmatched quote " ++ match_text runner m ++ str " in: " ++ param)
    | None =>
        let runner := Replace resolveAllQuotesRegex runner [] in
        ReplaceFunc backslashAny runner unescaper
    end
  else
    let runner :=
      if bool_decide (parent = segType segment) || bool_decide (parent = unQuoted)
      then strip_ends runner else runner in
    if bool_decide (segType segment = doubleQuoted) then
      let runner := Replace resolveDoubleQuotesRegex runner [] in
      ReplaceFunc unescapeAllQuotesRegex runner unescaper
    else Ok runner.

Fixpoint mapM {A B : Type} (f : A -> outcome B) (l : list A) : outcome (list B) :=
  match l with
  | [] => Ok []
  | a :: l' => letM b := f a in letM bs := mapM f l' in Ok (b :: bs)
  end.

Definition quoteHandler (param : text) (parent : SegmentType) : outcome text :=
  let param := wrap param parent in
  letM segments := tokenizeByQuotes param in
  letM results := mapM (quoteHandler_segment param parent) segments in
  Ok (escapeHandler (concat results)).

Definition parserHandler (env : Env) (param : text) (parent : SegmentType)
  : outcome text :=
  letM param := escapeLiteralDollars param parent in
  letM param := parseParam env param in
  quoteHandler param parent.

(** ** Stateful code: a state and an outcome *)

Definition M (St A : Type) : Type := St -> outcome A * St.

Definition ret {St A : Type} (a : A) : M St A := fun st => (Ok a, st).

Definition bind {St A B : Type} (m : M St A) (f : A -> M St B) : M St B :=
  fun st =>
    match m st with
    | (Ok a, st') => f a st'
    | (Panic e, st') => (Panic e, st')
    | (OutOfFuel, st') => (OutOfFuel, st')
    end.

Definition panic {St A : Type} (msg : text) : M St A := fun st => (Panic msg, st).

Definition lift {St A : Type} (o : outcome A) : M St A := fun st => (o, st).

Notation "'letS' x ':=' a 'in' b" := (bind a (fun x => b))
  (at level 10, x name, a at level 100, b at level 200, only parsing).

Fixpoint forM_ {St A : Type} (l : list A) (f : A -> M St unit) : M St unit :=
  match l with
  | [] => ret tt
  | a :: l' => letS _ := f a in forM_ l' f
  end.

(** ** Value map *)

Abbreviation AssocArray := (gmap (list Z) (list Z)).

Section MapParamValues.

Context {St : Type}.

(** [type Parser func(string) string]; a parser may have state of its
    own and may panic. *)
Definition Parser : Type := text -> M St text.

Fixpoint mapParamValues_loop (params : list Param) (parser : Parser)
         (values : AssocArray) : M St AssocArray :=
  match params with
  | [] => ret values
  | param :: rest =>
      match values !! Id param with
      | Some _ => mapParamValues_loop rest parser values
      | None =>
          letS v := parser (Id param) in
          mapParamValues_loop rest parser (<[Id param := v]> values)
      end
  end.

Definition mapParamValues (params : list Param) (parser : Parser) : M St AssocArray :=
  mapParamValues_loop params parser ∅.

End MapParamValues.

(** ** The process: environment, files, standard input and output *)

Record World := mkWorld {
  w_env : Env;
  w_files : gmap (list Z) (list Z);     (* path to content *)
  w_stdin : text;
  w_stdin_pipe : bool;                  (* standard input is a named pipe *)
  w_stdout : text
}.

Definition with_env (f : Env -> Env) (w : World) : World :=
  mkWorld (f (w_env w)) (w_files w) (w_stdin w) (w_stdin_pipe w) (w_stdout w).
Definition with_files (f : gmap (list Z) (list Z) -> gmap (list Z) (list Z)) (w : World) : World :=
  mkWorld (w_env w) (f (w_files w)) (w_stdin w) (w_stdin_pipe w) (w_stdout w).
Definition with_stdout (f : text -> text) (w : World) : World :=
  mkWorld (w_env w) (w_files w) (w_stdin w) (w_stdin_pipe w) (f (w_stdout w)).

(** [os.Setenv]: it fails for a value that holds a NUL, and the source
    ignores the error. *)
Definition Setenv (name value : text) : M World unit :=
  fun w =>
    (Ok tt,
     if bool_decide (0 ∈ value) then w else with_env (insert name value) w).

Definition ReadFile (path : text) : M World text :=
  fun w =>
    match w_files w !! path with
    | Some content => (Ok content, w)
    | None => (Panic (str "open " ++ path ++ str ": no such file or directory"), w)
    end.

Definition readToRunes (path : text) (stdIn : bool) : M World text :=
  if stdIn then (fun w => (Ok (w_stdin w), w)) else ReadFile path.

(** Where [fmt.Fprint] writes. *)
Inductive handle := Stdout | File (path : text).

Definition Create (path : text) : M World handle :=
  fun w => (Ok (File path), with_files (insert path []) w).

Definition Fprint (file : handle) (s : text) : M World unit :=
  fun w =>
    (Ok tt,
     match file with
     | Stdout => with_stdout (fun out => out ++ s) w
     | File path => with_files (alter (fun c => c ++ s) path) w
     end).

Definition Print (s : text) : M World unit := Fprint Stdout s.

Definition mapperHandler (params : list Param) : M World AssocArray :=
  mapParamValues params (fun id w => (parseParam (w_env w) id, w)).

(** ** Assignment lines *)

Fixpoint setEnv_loop (payload : text) (ms : list Match) : M World unit :=
  match ms with
  | [] => ret tt
  | m :: ms' =>
      letS value := (fun w =>
        (parserHandler (w_env w) (group_text payload m "value") unQuoted, w)) in
      letS _ := Setenv (group_text payload m "name") value in
      setEnv_loop payload ms'
  end.

Definition setEnv (payload : text) (isFile : bool) : M World unit :=
  let re :=
    if isFile then MustCompile envFileParserPattern true
    else MustCompile envParserPattern true in
  match FindRunesMatch re payload with
  | None => panic (str "Invalid env assignment syntax")
  | Some _ => setEnv_loop payload (FindAll re payload)
  end.

(** ** Compositor *)

Record Config := mkConfig {
  file : text;
  readFromStdin : bool;
  list_ : bool;
  preserve : bool;
  ignoreQuotes : bool;
  envOverrides : list text;
  envFiles : list text;
  interpret : text;
  editInPlace : bool
}.

(** [Validate]: a missing file turns editing in place off and standard
    input on, or panics when standard input is not a pipe. *)
Definition Validate (c : Config) : M World Config :=
  fun w =>
    match w_files w !! file c with
    | None =>
        if w_stdin_pipe w then
          (Ok (mkConfig (file c) true (list_ c) (preserve c) (ignoreQuotes c)
                        (envOverrides c) (envFiles c) (interpret c) false), w)
        else (Panic (str "file missing"), w)
    | Some _ => (Ok c, w)
    end.

Record ParamJson := mkParamJson { Param_ : text; Index_ : nat }.

(** [strings.Join] *)
Fixpoint Join (l : list text) (sep : text) : text :=
  match l with
  | [] => []
  | [a] => a
  | a :: l' => a ++ sep ++ Join l' sep
  end.

Section Output.

(** [json.MarshalIndent(v, prefix, indent)] on a list of records, from
    the standard library of the source language. *)
Variable MarshalIndent : list ParamJson -> text.

Definition listParams (params : list Param) : text :=
  MarshalIndent
    (map (fun param => mkParamJson (Id param) (fst (ParamPosition param))) params).

(** The loop of [GetOutput] over the references, [firstIndex] threaded
    through; it ends by printing the rest of the document. *)
Fixpoint output_loop (config : Config) (payload : text) (values : AssocArray)
         (out : handle) (params : list Param) (firstIndex : nat) : M World unit :=
  match params with
  | [] => Fprint out (drop firstIndex payload)
  | param :: rest =>
      letS _ :=
        (if bool_decide (fst (ParamPosition param) ≠ firstIndex)
         then Fprint out (slice payload firstIndex (fst (ParamPosition param)))
         else ret tt) in
      let value := default [] (values !! Id param) in
      letS _ :=
        (if bool_decide (length value = 0%nat) && preserve config
         then Fprint out (Id param)
         else Fprint out value) in
      output_loop config payload values out rest (snd (ParamPosition param))
  end.

(** The assignment [ignoreQuotes = config.ignoreQuotes] to the global of
    that name is left out: nothing reads it. *)
Definition GetOutput (config : Config) : M World unit :=
  letS payload := readToRunes (file config) (readFromStdin config) in
  letS validSlices :=
    (if ignoreQuotes config then ret [(0%nat, length payload)]
     else letS segments := lift (tokenizeByQuotes payload) in
          ret (getValidSlices segments)) in
  letS _ :=
    forM_ (envFiles config) (fun envFilePath =>
      letS envFile := ReadFile envFilePath in
      setEnv envFile true) in
  letS _ :=
    (if (0 <? length (envOverrides config))%nat
     then setEnv (Join (envOverrides config) [NL]) false
     else ret tt) in
  let params := findParams payload validSlices in
  if list_ config then Print (listParams params)
  else if (0 <? length params)%nat then
    letS values := mapperHandler params in
    letS out := (if editInPlace config then Create (file config) else ret Stdout) in
    output_loop config payload values out params 0
  else if negb (editInPlace config) then Print payload
  else ret tt.

End Output.

(** ** The command *)

Definition EQ : rune := 61.

(** The setters of [Config]. *)
Definition SetList (c : Config) : Config :=
  mkConfig (file c) (readFromStdin c) true (preserve c) (ignoreQuotes c)
           (envOverrides c) (envFiles c) (interpret c) (editInPlace c).

Definition SetPreserve (c : Config) : Config :=
  mkConfig (file c) (readFromStdin c) (list_ c) true (ignoreQuotes c)
           (envOverrides c) (envFiles c) (interpret c) (editInPlace c).

Definition SetIgnore (c : Config) : Config :=
  mkConfig (file c) (readFromStdin c) (list_ c) (preserve c) true
           (envOverrides c) (envFiles c) (interpret c) (editInPlace c).

Definition SetInterpret (val : text) (c : Config) : Config :=
  mkConfig (file c) (readFromStdin c) (list_ c) (preserve c) (ignoreQuotes c)
           (envOverrides c) (envFiles c) val (editInPlace c).

Definition SetEditInPlace (c : Config) : Config :=
  mkConfig (file c) (readFromStdin c) (list_ c) (preserve c) (ignoreQuotes c)
           (envOverrides c) (envFiles c) (interpret c) true.

Definition AddOverride (payload : text) (c : Config) : Config :=
  mkConfig (file c) (readFromStdin c) (list_ c) (preserve c) (ignoreQuotes c)
           (envOverrides c ++ [payload]) (envFiles c) (interpret c) (editInPlace c).

Definition AddEnvFile (path : text) (c : Config) : Config :=
  mkConfig (file c) (readFromStdin c) (list_ c) (preserve c) (ignoreQuotes c)
           (envOverrides c) (envFiles c ++ [path]) (interpret c) (editInPlace c).

Definition AddFile (path : text) (c : Config) : Config :=
  mkConfig path (readFromStdin c) (list_ c) (preserve c) (ignoreQuotes c)
           (envOverrides c) (envFiles c) (interpret c) (editInPlace c).

(** [strings.IndexByte]: the first index of the character, or -1.  The
    command looks for [=] only, which is one byte in UTF-8 and part of no
    longer character: the argument is cut at the same place whether the
    index counts bytes or characters. *)
Fixpoint IndexByte (s : text) (c : rune) : Z :=
  match s with
  | [] => -1
  | x :: s' =>
      if bool_decide (x = c) then 0
      else let i := IndexByte s' c in if i <? 0 then -1 else i + 1
  end.

(** How the command ends.  It returns, or calls [os.Exit], with a status
    and what it has printed on the standard error; or an index out of
    range is hit while the arguments are read, before the deferred
    [recover] is in place, and the runtime ends the process; or the fuel
    of the resolver ran out. *)
Inductive ending :=
  | Exit (status : Z) (stderr : text)
  | IndexOutOfRange (index len : nat)
  | Unfinished.

(** [printHelp] *)
Definition printHelp : M World unit := Print (str "Hello!" ++ [NL]).

(** The loop of [main] over [args], at index [i] with [rest] still to
    read. *)
Fixpoint args_loop (args rest : list text) (i : nat) (latestIndex : Z)
         (config : Config) : World -> (Config + ending) * World :=
  match rest with
  | [] => fun w => (inl config, w)
  | arg :: rest' =>
      if bool_decide (Z.of_nat i = latestIndex) then
        args_loop args rest' (S i) latestIndex config
      else
        let equals := IndexByte arg EQ in
        let flag := if -1 <? equals then take (Z.to_nat equals) arg else arg in
        if bool_decide (flag ∈ [str "-h"; str "--help"]) then
          fun w => (inr (Exit 0 []), snd (printHelp w))
        else if bool_decide (flag ∈ [str "-l"; str "--list"]) then
          args_loop args rest' (S i) latestIndex (SetList config)
        else if bool_decide (flag ∈ [str "-p"; str "--preserve"]) then
          args_loop args rest' (S i) latestIndex (SetPreserve config)
        else if bool_decide (flag = str "--ignoreQuotes") then
          args_loop args rest' (S i) latestIndex (SetIgnore config)
        else if bool_decide (flag = str "--interpret") then
          args_loop args rest' (S i) latestIndex (SetInterpret (str "foo") config)
        else if bool_decide (flag = str "-i") then
          args_loop args rest' (S i) latestIndex (SetEditInPlace config)
        else if bool_decide (flag ∈ [str "-e"; str "--env"]) then
          if bool_decide (flag = arg) then
            let latestIndex := Z.of_nat i + 1 in
            match args !! Z.to_nat latestIndex with
            | Some value =>
                args_loop args rest' (S i) latestIndex (AddOverride value config)
            | None =>
                fun w => (inr (IndexOutOfRange (Z.to_nat latestIndex) (length args)), w)
            end
          else
            args_loop args rest' (S i) latestIndex
                      (AddOverride (drop (Z.to_nat (equals + 1)) arg) config)
        else if bool_decide (flag = str "--envfile") then
          if bool_decide (flag = arg) then
            let latestIndex := Z.of_nat i + 1 in
            match args !! Z.to_nat latestIndex with
            | Some value =>
                args_loop args rest' (S i) latestIndex (AddEnvFile value config)
            | None =>
                fun w => (inr (IndexOutOfRange (Z.to_nat latestIndex) (length args)), w)
            end
          else
            args_loop args rest' (S i) latestIndex
                      (AddEnvFile (drop (Z.to_nat (equals + 1)) arg) config)
        else if bool_decide (Z.of_nat i = Z.of_nat (length args) - 1) then
          args_loop args rest' (S i) latestIndex (AddFile arg config)
        else
          args_loop args rest' (S i) latestIndex config
  end.

Section Command.

Variable MarshalIndent : list ParamJson -> text.

(** What [main] does once the arguments are read: [Validate] and
    [GetOutput], under the deferred [recover] that prints a panic on the
    standard error and exits with status 1. *)
Definition under_recover (config : Config) : World -> ending * World :=
  fun w =>
    match (letS config := Validate config in GetOutput MarshalIndent config) w with
    | (Ok _, w') => (Exit 0 [], w')
    | (Panic err, w') => (Exit 1 (err ++ [NL]), w')
    | (OutOfFuel, w') => (Unfinished, w')
    end.

Definition main (args : list text) : World -> ending * World :=
  fun w =>
    match args_loop args args 0 (-1)
            (mkConfig [] false false false false [] [] [] false) w with
    | (inl config, w') => under_recover config w'
    | (inr e, w') => (e, w')
    end.

End Command.

(** * Vocabulary of the properties *)

(** A match forwards ends at or after its start and inside the text; a
    match backwards ends at or before its start. *)
Definition moves (input : text) (d : dir) (s s' : state) : Prop :=
  match d with
  | Fwd => (pos s <= pos s')%nat /\ (pos s' <= Nat.max (pos s) (length input))%nat
  | Bwd => (pos s' <= pos s)%nat
  end.

(** A matcher is local when it hands to its continuation only states it
    can reach: two continuations that agree on those give the same
    answer. *)
Definition local (input : text) (d : dir) (body : state -> cont -> option state) : Prop :=
  forall s k1 k2,
    (forall s', moves input d s s' -> k1 s' = k2 s') -> body s k1 = body s k2.

(** Matches that come in order, without overlap, inside the text. *)
Fixpoint ordered (input : text) (lo : nat) (ms : list Match) : Prop :=
  match ms with
  | [] => True
  | m :: ms' =>
      (lo <= Index m)%nat /\ (Index m + Length m <= length input)%nat
      /\ ordered input (Index m + Length m) ms'
  end.

(** The groups a pattern can capture into or pop from. *)
Fixpoint group_names (r : regex) : list string :=
  match r with
  | Empty | Chr _ | Bol | Eol => []
  | Seq r1 r2 | Alt r1 r2 => group_names r1 ++ group_names r2
  | Star _ r1 | Opt _ r1 | Times _ r1 | Look _ _ r1 => group_names r1
  | Group name r1 | Balance name r1 => name :: group_names r1
  | IfGroup _ yes no => group_names yes ++ group_names no
  end.

(** The look-arounds of a pattern hold no group. *)
Fixpoint plain_looks (r : regex) : bool :=
  match r with
  | Empty | Chr _ | Bol | Eol => true
  | Seq r1 r2 | Alt r1 r2 | IfGroup _ r1 r2 => plain_looks r1 && plain_looks r2
  | Star _ r1 | Opt _ r1 | Times _ r1 | Group _ r1 | Balance _ r1 => plain_looks r1
  | Look _ _ r1 =>
      match group_names r1 with
      | [] => plain_looks r1
      | _ => false
      end
  end.

(** A parameter name, as [paramName] reads it. *)
Definition name_start : cset := Among [rng "A" "Z"; rng "a" "z"; one "_"].
Definition name_char : cset :=
  Among [rng "A" "Z"; rng "a" "z"; rng "0" "9"; one "_"].

Definition is_name (name : text) : bool :=
  match name with
  | c :: rest => cset_mem c name_start && forallb (fun c => cset_mem c name_char) rest
  | [] => false
  end.

(** The six default operators. *)
Definition operators : list text :=
  [str "-"; str ":-"; str "+"; str ":+"; str "?"; str ":?"].

(** The braced reference to [name] with operator [op] and default
    expression [d]. *)
Definition reference (name op d : text) : text :=
  str "${" ++ name ++ op ++ d ++ str "}".

(** A default expression without nested references: it holds no dollar
    sign, no closing brace and no line feed. *)
Definition plain (d : text) : bool :=
  forallb (fun x => negb (bool_decide (x ∈ [NL; DOLLAR; rn "}"]))) d.

(** A failure whose message is the text that was to be computed. *)
Definition fail_with (o : outcome text) : outcome text :=
  match o with
  | Ok message => Panic message
  | Panic message => Panic message
  | OutOfFuel => OutOfFuel
  end.

(** The table of the operators: what a reference with an operator resolves
    to.  The variable is absent when it is unset, or, for an operator with
    a colon, when it is set and empty. *)
Definition by_operator (env : Env) (name op d : text) : outcome text :=
  let '(value, isSet) := LookupEnv env name in
  let colon := bool_decide (take 1 op = str ":") in
  let absent := negb isSet || (colon && bool_decide (value = [])) in
  if bool_decide (last op = Some (rn "+")) then
    if absent then Ok value else parseEmbeddedParams env d
  else if absent then
    if bool_decide (last op = Some (rn "?"))
    then fail_with (parseEmbeddedParams env d)
    else parseEmbeddedParams env d
  else Ok value.

(** The segments split [[a, b)] into consecutive, non-empty ranges. *)
Fixpoint partitions (a b : nat) (segments : list Segment) : Prop :=
  match segments with
  | [] => a = b
  | s :: rest =>
      fst (Position s) = a /\ (a < snd (Position s))%nat
      /\ partitions (snd (Position s)) b rest
  end.

(** The indices of a segment, in order. *)
Definition indices (s : Segment) : list nat :=
  seq (fst (Position s)) (snd (Position s) - fst (Position s)).

(** The distinct elements of [l] that are not in [seen], in the order of
    their first occurrence. *)
Fixpoint distinct (seen l : list text) : list text :=
  match l with
  | [] => []
  | x :: l' =>
      if bool_decide (x ∈ seen) then distinct seen l'
      else x :: distinct (x :: seen) l'
  end.

(** A parser that records each call with its argument and its result. *)
Definition logged {St : Type} (parser : text -> M St text)
  : text -> M (St * list (text * outcome text)) text :=
  fun id st =>
    let '(r, st') := parser id (fst st) in
    (r, (st', snd st ++ [(id, r)])).

(** The first half of [GetOutput]: read the document, take in the
    assignments, find the references. *)
Definition discover (config : Config) : M World (text * list Param) :=
  letS payload := readToRunes (file config) (readFromStdin config) in
  letS validSlices :=
    (if ignoreQuotes config then ret [(0%nat, length payload)]
     else letS segments := lift (tokenizeByQuotes payload) in
          ret (getValidSlices segments)) in
  letS _ :=
    forM_ (envFiles config) (fun envFilePath =>
      letS envFile := ReadFile envFilePath in
      setEnv envFile true) in
  letS _ :=
    (if (0 <? length (envOverrides config))%nat
     then setEnv (Join (envOverrides config) [NL]) false
     else ret tt) in
  ret (payload, findParams payload validSlices).

(** The second half: list the references or write the expansion. *)
Definition compose (MarshalIndent : list ParamJson -> text)
           (config : Config) (payload : text) (params : list Param) : M World unit :=
  if list_ config then Print (listParams MarshalIndent params)
  else if (0 <? length params)%nat then
    letS values := mapperHandler params in
    letS out := (if editInPlace config then Create (file config) else ret Stdout) in
    output_loop config payload values out params 0
  else if negb (editInPlace config) then Print payload
  else ret tt.


(** The part of the world an expansion call writes to. *)
Definition written (w : World) : gmap (list Z) (list Z) * text :=
  (w_files w, w_stdout w).

(** A step is quiet when it writes neither files nor output. *)
Definition quiet {A : Type} (m : M World A) : Prop :=
  forall w, written (snd (m w)) = written w.

(** The environment of the operator table: FOO is foo, BAZ is set and
    empty, BAR is unset. *)
Definition table_env : Env := <[str "FOO" := str "foo"]> (<[str "BAZ" := []]> ∅).

(** A required reference whose message spans two lines. *)
Definition two_line_required : text := str "${BAR:?a" ++ [NL] ++ str "b}".

(** A document that holds it, between angle brackets, with BAR unset. *)
Definition two_line_world : World :=
  mkWorld ∅ (<[str "in" := str "<" ++ two_line_required ++ str ">"]> ∅) [] false [].

Definition two_line_config : Config :=
  mkConfig (str "in") false false false false [] [] [] false.

(** The parser of the test of the source: it counts its calls and always
    answers foo. *)
Definition mock_parser : text -> M nat text :=
  fun _ counter => (Ok (str "foo"), S counter).

Definition repeating_params : list Param :=
  map (fun id => mkParam (str id) (0, 0)%nat) ["$FOO"; "$FOO"; "$BAR"; "$FOO"; "$FOO"]%string.

Definition mock_calls : list (text * outcome text) :=
  [(str "$FOO", Ok (str "foo")); (str "$BAR", Ok (str "foo"))].

Definition mock_values : AssocArray :=
  <[str "$BAR" := str "foo"]> (<[str "$FOO" := str "foo"]> ∅).

(** The pattern an assignment line must match. *)
Definition line_shape (isFile : bool) : regex :=
  if isFile then envFileParserPattern else envParserPattern.

Definition shape_at (isFile : bool) (payload : text) (p : nat) : bool :=
  match match_at true payload (line_shape isFile) p with
  | Some _ => true
  | None => false
  end.


Definition no_world : World := mkWorld ∅ ∅ [] false [].


Fixpoint leading_backslashes (t : text) : nat :=
  match t with
  | c :: t' => if c =? BSL then S (leading_backslashes t') else O
  | [] => O
  end.

(** The number of backslashes that come, without a gap, right before
    index [i]. *)
Definition backslashes_before (t : text) (i : nat) : nat :=
  leading_backslashes (reverse (take i t)).

(** The closing quote of a segment is preceded by an even number of
    backslashes. *)
Definition closing_quote_unescaped (payload : text) (segment : Segment) : bool :=
  Nat.even (backslashes_before payload (snd (Position segment) - 1)).

Definition escaped_quote_in_quotes : text := [SQ; BSL; SQ; SQ].

Definition quoted_and_bare : text := str "'$A' $B".




(** A reference with an operator the resolver does not know, around a
    reference with one it knows. *)
Definition unknown_operator_around_default : text := str "${FOO#${BAR-x}}".

(** The document of the tests of the source. *)
Definition loremQuotes : text :=
  str "Lorem ipsum dolor sit amet, "
  ++ [DQ]
  ++ str "consectetur adipiscing elit"
  ++ [DQ]
  ++ str ". Cras ${BAZ:-$BAR} sem tellus, sed lobortis tellus faucibus"
  ++ str " eu. Vestibulum eu tortor mauris. 'Vestibulum in $FOO urna'."
  ++ str " In auctor sollicitudin malesuada. Ut ${Q} malesuada erat. M"
  ++ str "auris viverra convallis eros, ${Q} tincidunt ligula egestas "
  ++ str "a. "
  ++ [DQ]
  ++ str "Vivamus ${BAR}, metus a pulvinar blandit"
  ++ [DQ]
  ++ str ", metus leo hendrerit lacus, "
  ++ [DQ]
  ++ str "non '${BAZ:-${BAR}}' ${FOO:+ipsum}"
  ++ [DQ]
  ++ str " nulla at sem. Sed vel viverra eros. Duis eget condimentum f"
  ++ str "elis, $FOO ornare est. Nunc maximus hendrerit orci ${Q} port"
  ++ str "titor. Curabitur id posuere lorem.".

(** The references the finder returns for a text under honoured quoting. *)
Definition found_in (payload : text) : outcome (list Param) :=
  letM segments := tokenizeByQuotes payload in
  Ok (findParams payload (getValidSlices segments)).

(** Ranges that come in order inside [[lo, hi]], each start after the
    start of the range before it: a range starts at or after the end of
    the one before, and after it when that one is empty. *)
Fixpoint in_order (lo hi : nat) (slices : list (nat * nat)) : Prop :=
  match slices with
  | [] => True
  | (a, b) :: rest =>
      (lo <= a)%nat /\ (a <= b)%nat /\ (b <= hi)%nat
      /\ in_order (if (a =? b)%nat then S b else b) hi rest
  end.

(** A range ends before another starts, with a gap between them. *)
Definition apart (v1 v2 : nat * nat) : Prop := (snd v1 < fst v2)%nat.

(** An index lies in one of the ranges. *)
Definition in_ranges_of (slices : list (nat * nat)) (i : nat) : Prop :=
  exists v, v ∈ slices /\ InRange i v = true.

(** An index lies in a segment that is not single-quoted. *)
Definition outside_single_quotes (segments : list Segment) (i : nat) : Prop :=
  exists seg, seg ∈ segments /\ segType seg <> singleQuoted
              /\ InRange i (Position seg) = true.

(** A text that holds none of the given characters. *)
Definition free_of (chars : list rune) (t : text) : bool :=
  forallb (fun x => negb (bool_decide (x ∈ chars))) t.

(** Every match of a pattern starts at one of the given characters. *)
Definition starts_at (chars : list rune) (r : regex) : Prop :=
  forall ml input s s',
    Matches ml input r Fwd s s' -> exists c, input !! pos s = Some c /\ c ∈ chars.

(** An assignment line. *)
Definition assignment (name value : text) : text := name ++ str "=" ++ value.

(** The match of the assignment pattern on a line [name=value] that
    starts at index [p]. *)
Definition assignment_match (p : nat) (name value : text) : Match :=
  {| Index := p;
     Length := length (assignment name value);
     Groups := [("value"%string,
                 (p + length name + 1, p + length (assignment name value))%nat);
                ("name"%string, (p, p + length name)%nat)] |}.

(** A batch of assignment lines, as an env file holds them and as the
    overrides are joined. *)
Definition batch (lines : list (text * text)) : text :=
  Join (map (fun nv => assignment (fst nv) (snd nv)) lines) [NL].

(** The matches of the assignment pattern on a batch that starts at
    index [p]: one for each line. *)
Fixpoint batch_matches (p : nat) (lines : list (text * text)) : list Match :=
  match lines with
  | [] => []
  | nv :: rest =>
      assignment_match p (fst nv) (snd nv)
      :: batch_matches (p + length (assignment (fst nv) (snd nv)) + 1) rest
  end.

(** The environment after the assignments of a batch, made in order. *)
Definition assigned (lines : list (text * text)) (env : Env) : Env :=
  foldl (fun e nv => <[fst nv := snd nv]> e) env lines.

(** A line whose name is a name and whose value holds nothing that the
    handlers of a value act on: no quote, backslash, dollar sign, line
    feed or NUL. *)
Definition literal_line (nv : text * text) : bool :=
  is_name (fst nv) && free_of [0; NL; SQ; DQ; BSL; DOLLAR] (snd nv).

(** The content after the name starts with one of the six operators. *)
Definition starts_with_operator (t : text) : bool :=
  match t with
  | x :: rest =>
      if bool_decide (x ∈ [rn "-"; rn "+"; rn "?"]) then true
      else if bool_decide (x = rn ":") then
        match rest with
        | y :: _ => bool_decide (y ∈ [rn "-"; rn "+"; rn "?"])
        | [] => false
        end
      else false
  | [] => false
  end.

(** The braced reference to [name] with the content [t] after the name. *)
Definition braced (name t : text) : text := str "${" ++ name ++ t ++ str "}".

(** What the loop of [GetOutput] writes, as one text: the document with
    each reference replaced by its value, or kept when its value is empty
    and references are preserved. *)
Fixpoint expansion (keep : bool) (payload : text) (values : AssocArray)
         (params : list Param) (firstIndex : nat) : text :=
  match params with
  | [] => drop firstIndex payload
  | param :: rest =>
      (if bool_decide (fst (ParamPosition param) ≠ firstIndex)
       then slice payload firstIndex (fst (ParamPosition param)) else [])
      ++ (let value := default [] (values !! Id param) in
          if bool_decide (length value = 0%nat) && keep then Id param else value)
      ++ expansion keep payload values rest (snd (ParamPosition param))
  end.

(** A configuration whose document does not exist. *)
Definition missing_document_config : Config :=
  mkConfig (str "nope.txt") false false false false [] [] [] false.



(** The words of a command line.  A switch may carry a suffix after
    [=]; an option with a value has it after [=] or as the next word;
    any other word is a stray one. *)
Inductive item :=
  | Switch (name : text) (suffix : option text)
  | Valued (name : text) (joined : bool) (value : text)
  | Stray (word : text).

Definition words (it : item) : list text :=
  match it with
  | Switch name None => [name]
  | Switch name (Some suffix) => [name ++ EQ :: suffix]
  | Valued name true value => [name ++ EQ :: value]
  | Valued name false value => [name; value]
  | Stray word => [word]
  end.

Definition command (items : list item) : list text := flat_map words items.

Definition helps : list text := [str "-h"; str "--help"].

Definition switches : list text :=
  [str "-l"; str "--list"; str "-p"; str "--preserve"; str "--ignoreQuotes";
   str "--interpret"; str "-i"].

Definition valued : list text := [str "-e"; str "--env"; str "--envfile"].

(** The part of a word before its first [c], the whole word when it has
    none. *)
Fixpoint before (c : rune) (s : text) : text :=
  match s with
  | [] => []
  | x :: s' => if bool_decide (x = c) then [] else x :: before c s'
  end.

(** A switch and an option are spelled with one of their names; a stray
    word is one that reads as none of the names up to its first [=]. *)
Definition well_formed (it : item) : bool :=
  match it with
  | Switch name _ => bool_decide (name ∈ switches)
  | Valued name _ _ => bool_decide (name ∈ valued)
  | Stray word => bool_decide (before EQ word ∉ helps ++ switches ++ valued)
  end.

Definition has (names : list text) (items : list item) : bool :=
  existsb (fun it =>
             match it with
             | Switch name _ => bool_decide (name ∈ names)
             | _ => false
             end) items.

Definition values_of (names : list text) (items : list item) : list text :=
  flat_map (fun it =>
              match it with
              | Valued name _ value => if bool_decide (name ∈ names) then [value] else []
              | _ => []
              end) items.

Definition ends_stray (items : list item) : bool :=
  match last items with
  | Some (Stray _) => true
  | _ => false
  end.

(** The document of a command line: its last word, when that is a stray
    one. *)
Definition document (items : list item) : text :=
  match last items with
  | Some (Stray word) => word
  | _ => []
  end.

(** What the items of a command line add to a configuration, the
    document apart. *)
Definition settings (c : Config) (items : list item) : Config :=
  mkConfig (file c) (readFromStdin c)
           (list_ c || has [str "-l"; str "--list"] items)
           (preserve c || has [str "-p"; str "--preserve"] items)
           (ignoreQuotes c || has [str "--ignoreQuotes"] items)
           (envOverrides c ++ values_of [str "-e"; str "--env"] items)
           (envFiles c ++ values_of [str "--envfile"] items)
           (if has [str "--interpret"] items then str "foo" else interpret c)
           (editInPlace c || has [str "-i"] items).

Definition no_config : Config := mkConfig [] false false false false [] [] [] false.

Definition configured (items : list item) : Config :=
  mkConfig (document items) false
           (has [str "-l"; str "--list"] items)
           (has [str "-p"; str "--preserve"] items)
           (has [str "--ignoreQuotes"] items)
           (values_of [str "-e"; str "--env"] items)
           (values_of [str "--envfile"] items)
           (if has [str "--interpret"] items then str "foo" else [])
           (has [str "-i"] items).

(** A flag, bare or with a suffix. *)
Definition flag_word (name : text) (suffix : option text) : text :=
  match suffix with
  | None => name
  | Some s => name ++ EQ :: s
  end.

(** What [printHelp] prints. *)
Definition hello : text := str "Hello!" ++ [NL].

(** * Properties *)

(** ** The matcher *)

Section MatcherFacts.

Variable multiline : bool.
Variable input : text.

Local Abbreviation run := (run multiline input).
Local Abbreviation Matches := (Matches multiline input).
Local Abbreviation moves := (moves input).
Local Abbreviation local := (local input).
Local Abbreviation ordered := (ordered input).

Lemma star_loop_sound (body : state -> cont -> option state) g d r :
  (forall s k res, body s k = Some res ->
     exists s', Matches r d s s' /\ k s' = Some res) ->
  forall n s k res,
    Regex.star_loop body g k n s = Some res ->
    exists s', Matches (Star g r) d s s' /\ k s' = Some res.
Proof.
  intros Hbody n. induction n as [|n IH]; intros s k res H; simpl in H.
  - exists s. split; [constructor | exact H].
  - assert (Hiter : forall res',
      body s (fun s' => if (pos s' =? pos s)%nat then None
                        else Regex.star_loop body g k n s') = Some res' ->
      exists s', Matches (Star g r) d s s' /\ k s' = Some res').
    { intros res' Hb. apply Hbody in Hb as (s1 & Hm & Hk).
      destruct (Nat.eqb_spec (pos s1) (pos s)) as [|Hne]; [discriminate|].
      apply IH in Hk as (s2 & Hm2 & Hk2).
      exists s2. split; [|exact Hk2]. eapply M_Star_more; eauto. }
    destruct g.
    + destruct (body s _) eqn:Hb.
      * inversion H; subst. apply Hiter. reflexivity.
      * exists s. split; [constructor | exact H].
    + destruct (k s) eqn:Hk.
      * inversion H; subst. exists s. split; [constructor | exact Hk].
      * apply Hiter. exact H.
Qed.

Lemma times_loop_sound (body : state -> cont -> option state) d r :
  (forall s k res, body s k = Some res ->
     exists s', Matches r d s s' /\ k s' = Some res) ->
  forall n s k res,
    times_loop body k n s = Some res ->
    exists s', Matches (Times n r) d s s' /\ k s' = Some res.
Proof.
  intros Hbody n. induction n as [|n IH]; intros s k res H; simpl in H.
  - exists s. split; [constructor | exact H].
  - apply Hbody in H as (s1 & Hm & Hk).
    apply IH in Hk as (s2 & Hm2 & Hk2).
    exists s2. split; [|exact Hk2]. econstructor; eauto.
Qed.

(** Whatever the matcher answers is a match of the pattern, and the
    answer is that of the continuation after it. *)
Lemma run_sound r : forall d s k res,
  run r d s k = Some res ->
  exists s', Matches r d s s' /\ k s' = Some res.
Proof.
  induction r as [ |cs|r1 IH1 r2 IH2|r1 IH1 r2 IH2|g r IH|g r IH|n r IH
                 | | |d' negate r IH|name r IH|name r IH|name r1 IH1 r2 IH2];
    intros d s k res H; simpl in H.
  - exists s. split; [constructor | exact H].
  - unfold step in H. destruct d.
    + destruct (input !! pos s) as [c|] eqn:Hc; [|discriminate].
      destruct (cset_mem c cs) eqn:Hm; [|discriminate].
      eexists. split; [econstructor; eauto | exact H].
    + destruct (pos s) as [|p] eqn:Hp; [discriminate|].
      destruct (input !! p) as [c|] eqn:Hc; [|discriminate].
      destruct (cset_mem c cs) eqn:Hm; [|discriminate].
      eexists. split; [econstructor; eauto | exact H].
  - destruct d.
    + apply IH1 in H as (s1 & Hm1 & H). apply IH2 in H as (s2 & Hm2 & H).
      exists s2. split; [econstructor; eauto | exact H].
    + apply IH2 in H as (s1 & Hm1 & H). apply IH1 in H as (s2 & Hm2 & H).
      exists s2. split; [econstructor; eauto | exact H].
  - destruct (run r1 d s k) eqn:H1.
    + inversion H; subst. apply IH1 in H1 as (s1 & Hm & Hk).
      exists s1. split; [apply M_Alt_l; exact Hm | exact Hk].
    + apply IH2 in H as (s1 & Hm & Hk).
      exists s1. split; [apply M_Alt_r; exact Hm | exact Hk].
  - apply (star_loop_sound (run r d) g d r (IH d) (S (length input))). exact H.
  - destruct g.
    + destruct (run r d s k) eqn:H1.
      * inversion H; subst. apply IH in H1 as (s1 & Hm & Hk).
        exists s1. split; [apply M_Opt_take; exact Hm | exact Hk].
      * exists s. split; [constructor | exact H].
    + destruct (k s) eqn:H1.
      * inversion H; subst. exists s. split; [constructor | exact H1].
      * apply IH in H as (s1 & Hm & Hk).
        exists s1. split; [apply M_Opt_take; exact Hm | exact Hk].
  - apply (times_loop_sound (run r d) d r (IH d) n). exact H.
  - destruct (at_bol _ _ _) eqn:Hb; [|discriminate].
    exists s. split; [constructor; exact Hb | exact H].
  - destruct (at_eol _ _ _) eqn:Hb; [|discriminate].
    exists s. split; [constructor; exact Hb | exact H].
  - destruct (run r d' s Some) as [s'|] eqn:Hl; destruct negate; try discriminate.
    + apply IH in Hl as (s1 & Hm & Hk). inversion Hk; subst.
      eexists. split; [apply M_Look_pos; exact Hm | exact H].
    + exists s. split; [apply M_Look_neg; exact Hl | exact H].
  - apply IH in H as (s1 & Hm & Hk).
    eexists. split; [apply M_Group; exact Hm | exact Hk].
  - apply IH in H as (s1 & Hm & Hk).
    destruct (pop name (caps s1)) as [cs|] eqn:Hp; [|discriminate].
    eexists. split; [eapply M_Balance; eauto | exact Hk].
  - destruct (last_capture name (caps s)) eqn:Hc.
    + apply IH1 in H as (s1 & Hm & Hk).
      exists s1. split; [eapply M_If_yes; eauto | exact Hk].
    + apply IH2 in H as (s1 & Hm & Hk).
      exists s1. split; [eapply M_If_no; eauto | exact Hk].
Qed.

Lemma moves_refl d s : moves d s s.
Proof. destruct d; simpl; lia. Qed.

Lemma moves_trans d s1 s2 s3 : moves d s1 s2 -> moves d s2 s3 -> moves d s1 s3.
Proof. destruct d; simpl; lia. Qed.

Lemma Matches_moves r d s s' : Matches r d s s' -> moves d s s'.
Proof.
  induction 1; unfold moves in *; simpl in *;
    try (destruct d; simpl in *; lia).
  - apply lookup_lt_Some in H. lia.
  - lia.
  - lia.
  - lia.
Qed.

Lemma star_loop_ext body g d :
  local d body ->
  forall n, local d (fun s k => Regex.star_loop body g k n s).
Proof.
  intros Hbody n. induction n as [|n IH]; intros s k1 k2 Hk; simpl.
  - apply Hk, moves_refl.
  - assert (Hiter :
      body s (fun s' => if (pos s' =? pos s)%nat then None
                        else Regex.star_loop body g k1 n s')
      = body s (fun s' => if (pos s' =? pos s)%nat then None
                          else Regex.star_loop body g k2 n s')).
    { apply Hbody. intros s' Hs'. destruct (pos s' =? pos s)%nat; [reflexivity|].
      apply IH. intros s'' Hs''. apply Hk. eapply moves_trans; eauto. }
    rewrite Hiter, (Hk s (moves_refl d s)). reflexivity.
Qed.

Lemma times_loop_ext body d :
  local d body ->
  forall n, local d (fun s k => times_loop body k n s).
Proof.
  intros Hbody n. induction n as [|n IH]; intros s k1 k2 Hk; simpl.
  - apply Hk, moves_refl.
  - apply Hbody. intros s' Hs'. apply IH.
    intros s'' Hs''. apply Hk. eapply moves_trans; eauto.
Qed.

Lemma run_local r : forall d, local d (run r d).
Proof.
  induction r as [ |cs|r1 IH1 r2 IH2|r1 IH1 r2 IH2|g r IH|g r IH|n r IH
                 | | |d' negate r IH|name r IH|name r IH|name r1 IH1 r2 IH2];
    intros d s k1 k2 Hk; simpl.
  - apply Hk, moves_refl.
  - unfold step. destruct d.
    + destruct (input !! pos s) as [c|] eqn:Hc; [|reflexivity].
      destruct (cset_mem c cs); [|reflexivity].
      apply Hk. simpl. apply lookup_lt_Some in Hc. lia.
    + destruct (pos s) as [|p] eqn:Hp; [reflexivity|].
      destruct (input !! p) as [c|]; [|reflexivity].
      destruct (cset_mem c cs); [|reflexivity].
      apply Hk. simpl. lia.
  - destruct d.
    + apply IH1. intros s1 H1. apply IH2. intros s2 H2.
      apply Hk. eapply moves_trans; eauto.
    + apply IH2. intros s1 H1. apply IH1. intros s2 H2.
      apply Hk. eapply moves_trans; eauto.
  - rewrite (IH1 d s k1 k2 Hk), (IH2 d s k1 k2 Hk). reflexivity.
  - apply (star_loop_ext (run r d) g d (IH d) (S (length input))). exact Hk.
  - rewrite (IH d s k1 k2 Hk), (Hk s (moves_refl d s)). reflexivity.
  - apply (times_loop_ext (run r d) d (IH d) n). exact Hk.
  - rewrite (Hk s (moves_refl d s)). reflexivity.
  - rewrite (Hk s (moves_refl d s)). reflexivity.
  - destruct (run r d' s Some) as [s'|]; destruct negate; try reflexivity.
    + apply Hk. destruct d; simpl; lia.
    + apply Hk, moves_refl.
  - apply IH. intros s' Hs'. apply Hk.
    destruct d; simpl in *; exact Hs'.
  - apply IH. intros s' Hs'.
    destruct (pop name (caps s')); [|reflexivity].
    apply Hk. destruct d; simpl in *; exact Hs'.
  - destruct (last_capture name (caps s)); [apply IH1 | apply IH2]; exact Hk.
Qed.

(** The bound on the iterations of a loop is never reached: a larger
    bound gives the same answer. *)
Lemma star_loop_bound body g k d :
  local d body ->
  forall n s,
    (match d with
     | Fwd => length input - pos s
     | Bwd => pos s
     end < n)%nat ->
    Regex.star_loop body g k n s = Regex.star_loop body g k (S n) s.
Proof.
  intros Hbody n. induction n as [|n IH]; intros s Hn; [lia|].
  change (Regex.star_loop body g k (S (S n)) s) with
    (let again := fun s' => if (pos s' =? pos s)%nat then None
                            else Regex.star_loop body g k (S n) s' in
     match g with
     | Greedy => match body s again with Some res => Some res | None => k s end
     | Lazy => match k s with Some res => Some res | None => body s again end
     end).
  change (Regex.star_loop body g k (S n) s) with
    (let again := fun s' => if (pos s' =? pos s)%nat then None
                            else Regex.star_loop body g k n s' in
     match g with
     | Greedy => match body s again with Some res => Some res | None => k s end
     | Lazy => match k s with Some res => Some res | None => body s again end
     end).
  cbv zeta.
  assert (Hiter :
    body s (fun s' => if (pos s' =? pos s)%nat then None
                      else Regex.star_loop body g k n s')
    = body s (fun s' => if (pos s' =? pos s)%nat then None
                        else Regex.star_loop body g k (S n) s')).
  { apply Hbody. intros s' Hs'.
    destruct (Nat.eqb_spec (pos s') (pos s)); [reflexivity|].
    apply IH. destruct d; simpl in Hs'; lia. }
  rewrite Hiter. reflexivity.
Qed.

Lemma star_bound_fwd g r s k extra :
  Regex.star_loop (run r Fwd) g k (S (length input) + extra) s = run (Star g r) Fwd s k.
Proof.
  induction extra as [|extra IH].
  - rewrite Nat.add_0_r. reflexivity.
  - rewrite <- IH. replace (S (length input) + S extra)%nat
      with (S (S (length input) + extra)) by lia.
    symmetry. apply (star_loop_bound _ g k Fwd (run_local r Fwd)). lia.
Qed.

Lemma star_bound_bwd g r s k extra :
  (pos s <= length input)%nat ->
  Regex.star_loop (run r Bwd) g k (S (length input) + extra) s = run (Star g r) Bwd s k.
Proof.
  intros Hs. induction extra as [|extra IH].
  - rewrite Nat.add_0_r. reflexivity.
  - rewrite <- IH. replace (S (length input) + S extra)%nat
      with (S (S (length input) + extra)) by lia.
    symmetry. apply (star_loop_bound _ g k Bwd (run_local r Bwd)). lia.
Qed.

Lemma match_at_inv r p m :
  match_at multiline input r p = Some m ->
  exists s, Matches r Fwd {| pos := p; caps := [] |} s
            /\ m = {| Index := p; Length := pos s - p; Groups := caps s |}
            /\ (p <= pos s)%nat
            /\ ((p <= length input)%nat -> (pos s <= length input)%nat).
Proof.
  unfold match_at. intros H.
  destruct (run r Fwd _ Some) as [s|] eqn:Hr; [|discriminate].
  inversion H; subst; clear H.
  apply run_sound in Hr as (s' & Hm & Hk). inversion Hk; subst; clear Hk.
  exists s. pose proof (Matches_moves _ _ _ _ Hm) as [? ?].
  simpl in *. repeat split; auto; lia.
Qed.

Lemma scan_Some r n p m :
  scan multiline input r n p = Some m ->
  exists i, (i <= n)%nat /\ match_at multiline input r (p + i) = Some m
            /\ forall j, (j < i)%nat -> match_at multiline input r (p + j) = None.
Proof.
  revert p. induction n as [|n IH]; intros p H; simpl in H.
  - destruct (match_at _ _ r p) eqn:Hm; [|discriminate].
    exists O. rewrite Nat.add_0_r. split; [lia|]. split; [congruence|]. intros; lia.
  - destruct (match_at _ _ r p) eqn:Hm.
    + exists O. rewrite Nat.add_0_r. split; [lia|]. split; [congruence|]. intros; lia.
    + apply IH in H as (i & Hi & Hmi & Hnone).
      exists (S i). split; [lia|]. split.
      * replace (p + S i)%nat with (S p + i)%nat by lia. exact Hmi.
      * intros [|j] Hj.
        -- rewrite Nat.add_0_r. exact Hm.
        -- replace (p + S j)%nat with (S p + j)%nat by lia. apply Hnone. lia.
Qed.

Lemma scan_None r n p :
  (forall i, (i <= n)%nat -> match_at multiline input r (p + i) = None) ->
  scan multiline input r n p = None.
Proof.
  revert p. induction n as [|n IH]; intros p H; simpl.
  - specialize (H O). rewrite Nat.add_0_r in H. rewrite H; [reflexivity | lia].
  - pose proof (H O) as H0. rewrite Nat.add_0_r in H0. rewrite H0 by lia.
    apply IH. intros i Hi.
    replace (S p + i)%nat with (p + S i)%nat by lia. apply H. lia.
Qed.

(** The leftmost match from [start] starts at or after [start] and lies
    inside the text. *)
Lemma find_from_bounds r start m :
  (start <= length input)%nat ->
  find_from multiline input r start = Some m ->
  (start <= Index m)%nat /\ (Index m + Length m <= length input)%nat
  /\ match_at multiline input r (Index m) = Some m.
Proof.
  unfold find_from. intros Hs H.
  apply scan_Some in H as (i & Hi & Hm & _).
  pose proof Hm as Hm'.
  apply match_at_inv in Hm as (s & _ & -> & Hle & Hlen). simpl in *.
  split; [lia|]. split; [|exact Hm']. lia.
Qed.

Lemma ordered_weaken lo lo' ms : (lo' <= lo)%nat -> ordered lo ms -> ordered lo' ms.
Proof. destruct ms; simpl; [auto|]. intros ? (? & ? & ?). repeat split; auto; lia. Qed.

Lemma matches_from_ordered r fuel : forall start,
  (start <= length input)%nat ->
  ordered start (matches_from multiline input r fuel start).
Proof.
  induction fuel as [|fuel IH]; intros start Hs; simpl; [exact I|].
  destruct (find_from _ _ r start) as [m|] eqn:Hf; [|exact I].
  apply find_from_bounds in Hf as (H1 & H2 & _); [|exact Hs].
  simpl. split; [exact H1|]. split; [exact H2|].
  unfold next_start.
  destruct (Nat.eqb_spec (Length m) 0).
  - destruct (Nat.eqb_spec (Index m + Length m) (length input)); [exact I|].
    apply ordered_weaken with (lo := S (Index m + Length m)); [lia|].
    apply IH. lia.
  - apply IH. exact H2.
Qed.

Lemma matches_from_each r fuel : forall start m,
  (start <= length input)%nat ->
  m ∈ matches_from multiline input r fuel start ->
  match_at multiline input r (Index m) = Some m.
Proof.
  induction fuel as [|fuel IH]; intros start m Hs Hin; simpl in Hin.
  - by apply elem_of_nil in Hin.
  - destruct (find_from _ _ r start) as [m0|] eqn:Hf; [|by apply elem_of_nil in Hin].
    apply find_from_bounds in Hf as (H1 & H2 & H3); [|exact Hs].
    apply elem_of_cons in Hin as [-> | Hin]; [exact H3|].
    unfold next_start in Hin.
    destruct (Nat.eqb_spec (Length m0) 0).
    + destruct (Nat.eqb_spec (Index m0 + Length m0) (length input));
        [by apply elem_of_nil in Hin|].
      eapply IH; [|exact Hin]. lia.
    + eapply IH; [|exact Hin]. lia.
Qed.

(** Nor is the bound on the number of matches: each search starts
    further to the right than the one before. *)
Lemma matches_from_bound r n : forall start,
  (start <= length input)%nat -> (length input - start < n)%nat ->
  matches_from multiline input r n start = matches_from multiline input r (S n) start.
Proof.
  induction n as [|n IH]; intros start Hs Hn; [lia|].
  change (matches_from multiline input r (S (S n)) start) with
    (match find_from multiline input r start with
     | None => []
     | Some m => m :: match next_start input m with
                      | Some p => matches_from multiline input r (S n) p
                      | None => []
                      end
     end).
  change (matches_from multiline input r (S n) start) with
    (match find_from multiline input r start with
     | None => []
     | Some m => m :: match next_start input m with
                      | Some p => matches_from multiline input r n p
                      | None => []
                      end
     end).
  destruct (find_from multiline input r start) as [m|] eqn:Hf; [|reflexivity].
  apply find_from_bounds in Hf as (H1 & H2 & _); [|exact Hs].
  f_equal. unfold next_start.
  destruct (Nat.eqb_spec (Length m) 0).
  - destruct (Nat.eqb_spec (Index m + Length m) (length input)); [reflexivity|].
    apply IH; lia.
  - apply IH; lia.
Qed.

Lemma all_matches_bound r extra :
  matches_from multiline input r (S (length input) + extra) 0
  = all_matches multiline input r.
Proof.
  induction extra as [|extra IH].
  - rewrite Nat.add_0_r. reflexivity.
  - rewrite <- IH. replace (S (length input) + S extra)%nat
      with (S (S (length input) + extra)) by lia.
    symmetry. apply matches_from_bound; lia.
Qed.

End MatcherFacts.

Lemma last_capture_pop_other name n cs : forall cs',
  pop name cs = Some cs' -> n <> name -> last_capture n cs' = last_capture n cs.
Proof.
  induction cs as [|[n0 c] cs IH]; intros cs' H Hne; simpl in H; [discriminate|].
  destruct (String.eqb_spec n0 name) as [->|Hn0].
  - inv H. simpl. destruct (String.eqb_spec name n); [congruence | reflexivity].
  - destruct (pop name cs) as [cs''|] eqn:Hp; [|discriminate]. inv H.
    simpl. destruct (String.eqb n0 n); [reflexivity | auto].
Qed.

(** A match leaves the captures of the groups it does not mention. *)
Lemma Matches_other_groups ml input r d s s' :
  Matches ml input r d s s' ->
  forall nm, nm ∉ group_names r -> last_capture nm (caps s') = last_capture nm (caps s).
Proof.
  induction 1; intros nm Hn; simpl in *;
    repeat match goal with
    | H : _ ∉ _ ++ _ |- _ => apply not_elem_of_app in H as [? ?]
    | H : _ ∉ _ :: _ |- _ => apply not_elem_of_cons in H as [? ?]
    end;
    try reflexivity;
    try (destruct (String.eqb_spec name nm); [congruence|]);
    try (erewrite last_capture_pop_other by eauto);
    repeat first [ rewrite IHMatches2 by assumption
                 | rewrite IHMatches1 by assumption
                 | rewrite IHMatches by assumption ];
    reflexivity.
Qed.

Lemma Matches_no_groups ml input r d s s' :
  Matches ml input r d s s' -> group_names r = [] -> caps s' = caps s.
Proof.
  induction 1; intros Hn; simpl in *;
    try (apply app_eq_nil in Hn as [? ?]);
    try discriminate; try reflexivity; eauto;
    repeat match goal with
    | IH : ?P -> _ = _, H : ?P |- _ => specialize (IH H)
    end; congruence.
Qed.

(** The matcher misses no match: when the pattern has a match after
    which the continuation answers, the matcher answers. *)
Lemma run_complete ml input r d s s' :
  Matches ml input r d s s' ->
  plain_looks r = true -> (pos s <= length input)%nat ->
  forall k, k s' <> None -> run ml input r d s k <> None.
Proof.
  induction 1 as
    [ d s | cs s c Hc Hm | cs s p c Hp Hc Hm
    | r1 r2 s s1 s2 H1 IH1 H2 IH2 | r1 r2 s s1 s2 H1 IH1 H2 IH2
    | r1 r2 d s s' H1 IH1 | r1 r2 d s s' H1 IH1
    | g r d s | g r d s s1 s2 H1 IH1 Hne H2 IH2
    | g r d s | g r d s s' H1 IH1
    | r d s | n r d s s1 s2 H1 IH1 H2 IH2
    | d s Hb | d s Hb
    | d d' r s s' H1 IH1 | d d' r s Hnone
    | name r d s s' H1 IH1 | name r d s s' cs H1 IH1 Hpop
    | name yes no d s s' c Hc H1 IH1 | name yes no d s s' Hc H1 IH1 ];
    intros Hplain Hpos k Hk; simpl in Hplain;
    try (apply andb_true_iff in Hplain as [Hp1 Hp2]).
  - exact Hk.
  - simpl. unfold step. rewrite Hc, Hm. exact Hk.
  - simpl. unfold step. rewrite Hp, Hc, Hm. exact Hk.
  - simpl. apply IH1; [assumption | assumption |].
    apply IH2; [assumption | | exact Hk].
    apply Matches_moves in H1 as [_ ?]. lia.
  - simpl. apply IH1; [assumption | assumption |].
    apply IH2; [assumption | | exact Hk].
    apply Matches_moves in H1. simpl in H1. lia.
  - simpl. destruct (run ml input r1 d s k) eqn:Hr; [discriminate|].
    exfalso. eapply IH1; eauto.
  - simpl. destruct (run ml input r1 d s k) eqn:Hr; [discriminate|].
    apply IH1; assumption.
  - change (star_loop (run ml input r d) g k (S (length input)) s <> None).
    rewrite ?star_loop_lazy_S. destruct g; simpl.
    + destruct (run ml input r d s _); [discriminate | exact Hk].
    + destruct (k s); [discriminate | contradiction].
  - assert (Hagain :
      (fun s0 => if (pos s0 =? pos s)%nat then None
                 else star_loop (run ml input r d) g k (length input) s0) s1 <> None).
    { destruct (Nat.eqb_spec (pos s1) (pos s)); [contradiction|].
      pose proof (Matches_moves _ _ _ _ _ _ H1) as Hmv.
      rewrite (star_loop_bound input (run ml input r d) g k d (run_local ml input r d)).
      - apply (IH2 Hplain); [|exact Hk]. destruct d; simpl in Hmv; lia.
      - destruct d; simpl in Hmv; lia. }
    change (star_loop (run ml input r d) g k (S (length input)) s <> None).
    destruct g; simpl.
    + destruct (run ml input r d s _) eqn:Hr; [discriminate|].
      exfalso.
      apply (IH1 Hplain Hpos
               (fun s0 => if (pos s0 =? pos s)%nat then None
                          else star_loop (run ml input r d) Greedy k (length input) s0));
        [exact Hagain | exact Hr].
    + destruct (k s); [discriminate|].
      apply (IH1 Hplain Hpos
               (fun s0 => if (pos s0 =? pos s)%nat then None
                          else star_loop (run ml input r d) Lazy k (length input) s0)).
      exact Hagain.
  - simpl. destruct g.
    + destruct (run ml input r d s k); [discriminate | exact Hk].
    + destruct (k s); [discriminate | contradiction].
  - simpl. destruct g.
    + destruct (run ml input r d s k) eqn:Hr; [discriminate|].
      exfalso. eapply IH1; eauto.
    + destruct (k s); [discriminate|]. apply IH1; assumption.
  - exact Hk.
  - change (run ml input r d s (times_loop (run ml input r d) k n) <> None).
    apply IH1; [assumption | assumption |].
    change (run ml input (Times n r) d s1 k <> None).
    apply IH2; [assumption | | exact Hk].
    apply Matches_moves in H1. destruct d; simpl in H1; lia.
  - simpl. rewrite Hb. exact Hk.
  - simpl. rewrite Hb. exact Hk.
  - simpl. destruct (group_names r) eqn:Hg; [|discriminate].
    pose proof (IH1 Hplain Hpos Some) as Hsome.
    destruct (run ml input r d' s Some) as [s''|] eqn:Hr;
      [|exfalso; apply Hsome; [discriminate | reflexivity]].
    apply run_sound in Hr as (s3 & Hm3 & Heq). inv Heq.
    apply Matches_no_groups in Hm3; [|exact Hg].
    apply Matches_no_groups in H1; [|exact Hg].
    replace (at_pos (pos s) s'') with (at_pos (pos s) s'); [exact Hk|].
    unfold at_pos. congruence.
  - simpl. rewrite Hnone. exact Hk.
  - simpl. apply IH1; assumption.
  - simpl. apply IH1; [assumption | assumption |]. rewrite Hpop. exact Hk.
  - simpl. rewrite Hc. apply IH1; assumption.
  - simpl. rewrite Hc. apply IH1; assumption.
Qed.

Lemma cset_single c q : cset_mem c (Among [(q, q)]) = true -> c = q.
Proof.
  unfold cset_mem, in_ranges. simpl. rewrite orb_false_r, andb_true_iff.
  rewrite !Z.leb_le. lia.
Qed.

(** ** The quote tokenizer *)

Section TokenizerFacts.

Variable payload : text.

Local Abbreviation run := (run false payload).
Local Abbreviation Matches := (Matches false payload).

(** An unescaped quote [q] consumes one character, which is [q]. *)
Lemma unescaped_quote_inv q s s' :
  Matches (Seq unescapedToken (Chr (Among [(q, q)]))) Fwd s s' ->
  payload !! pos s = Some q /\ pos s' = S (pos s)
  /\ forall n, last_capture n (caps s') = last_capture n (caps s).
Proof.
  intros H. inv H.
  match goal with H : Matches unescapedToken _ _ _ |- _ =>
    unfold unescapedToken, Lookbehind in H; inv H end.
  match goal with H : Matches (Chr _) _ _ _ |- _ => inv H end.
  match goal with H : cset_mem _ _ = true |- _ => apply cset_single in H; subst end.
  simpl in *.
  split; [assumption|]. split; [reflexivity|].
  intros n.
  match goal with H : Matches _ Bwd _ _ |- _ =>
    apply (Matches_other_groups _ _ _ _ _ _ H n) end.
  simpl. apply not_elem_of_nil.
Qed.

(** The quoted run of either kind: it is at least one character long and
    its own group spans it. *)
Lemma quoted_run_inv name inner close q s s' :
  Matches (Group name (cat [Seq unescapedToken (Chr (Among [(q, q)])); inner; close]))
          Fwd s s' ->
  payload !! pos s = Some q /\ (pos s < pos s')%nat
  /\ caps s' = (name, (pos s, pos s')) :: skipn 1 (caps s').
Proof.
  intros H. inv H. simpl cat in *.
  match goal with H : Matches (Seq _ _) _ _ _ |- _ => inv H end.
  match goal with H : Matches (Seq unescapedToken _) _ _ _ |- _ =>
    apply unescaped_quote_inv in H as (Hq & Hp & _) end.
  match goal with H : Matches (Seq inner close) _ _ _ |- _ =>
    apply Matches_moves in H as [Hle _] end.
  simpl. split; [exact Hq|]. split; [lia|].
  rewrite Nat.min_l, Nat.max_r by lia. reflexivity.
Qed.

(** A match of the tokenizer pattern is not empty and one of its two
    groups is not empty. *)
Lemma tokenizer_match p m :
  match_at false payload quoteTokenizerPattern p = Some m ->
  (0 < Length m)%nat
  /\ ((0 < group_length m "singleQuoted")%nat \/ (0 < group_length m "doubleQuoted")%nat).
Proof.
  intros H. apply match_at_inv in H as (s & Hm & -> & Hle & _).
  unfold quoteTokenizerPattern in Hm. inv Hm.
  - match goal with H : Matches (Group _ _) _ _ _ |- _ =>
      apply quoted_run_inv in H as (_ & Hlt & Hc) end.
    simpl in *. split; [lia|]. left.
    unfold group_length, group_span. simpl. rewrite Hc. simpl. lia.
  - match goal with H : Matches (Group _ _) _ _ _ |- _ =>
      unfold unescapedDoubleQuote at 1 in H;
      apply quoted_run_inv in H as (_ & Hlt & Hc) end.
    simpl in *. split; [lia|].
    unfold group_length, group_span. simpl. rewrite Hc. simpl.
    destruct (last_capture "singleQuoted" _) as [[a b]|]; simpl.
    + destruct (Nat.ltb_spec 0 (b - a)); [left | right]; lia.
    + right. lia.
Qed.

End TokenizerFacts.

Lemma tokenize_loop_partitions payload ms : forall lastIndex,
  ordered payload lastIndex ms ->
  (forall m, m ∈ ms ->
     (0 < Length m)%nat
     /\ ((0 < group_length m "singleQuoted")%nat \/ (0 < group_length m "doubleQuoted")%nat)) ->
  (lastIndex <= length payload)%nat ->
  exists segments,
    tokenize_loop payload ms lastIndex = Ok segments
    /\ partitions lastIndex (length payload) segments.
Proof.
  induction ms as [|m ms IH]; intros lastIndex Hord Hm Hle; simpl.
  - case_bool_decide as Hne.
    + eexists. split; [reflexivity|]. simpl. repeat split; lia.
    + eexists. split; [reflexivity|]. simpl. lia.
  - destruct Hord as (H1 & H2 & Hord).
    destruct (Hm m) as (Hlen & Hty); [apply elem_of_cons; auto|].
    destruct (IH (Index m + Length m)%nat Hord) as (rest & Hrest & Hpart);
      [intros; apply Hm; apply elem_of_cons; auto | exact H2 |].
    rewrite Hrest. simpl.
    assert (Hsome : exists ty,
      (if (0 <? group_length m "singleQuoted")%nat then Some singleQuoted
       else if (0 <? group_length m "doubleQuoted")%nat then Some doubleQuoted
       else None) = Some ty).
    { destruct (Nat.ltb_spec 0 (group_length m "singleQuoted")); [eauto|].
      destruct (Nat.ltb_spec 0 (group_length m "doubleQuoted")); [eauto|]. lia. }
    destruct Hsome as (ty & ->).
    eexists. split; [reflexivity|].
    case_bool_decide as Hne; simpl; repeat split; try lia; exact Hpart.
Qed.

(** The tokenizer never panics, and its segments split the text. *)
Lemma tokenize_partitions payload :
  exists segments,
    tokenizeByQuotes payload = Ok segments
    /\ partitions 0 (length payload) segments.
Proof.
  unfold tokenizeByQuotes, FindAll, all_matches.
  apply tokenize_loop_partitions.
  - apply matches_from_ordered. lia.
  - intros m Hin. eapply tokenizer_match.
    eapply matches_from_each; [|exact Hin]. lia.
  - lia.
Qed.

Lemma partitions_indices segments : forall a b,
  partitions a b segments ->
  (a <= b)%nat /\ flat_map indices segments = seq a (b - a).
Proof.
  induction segments as [|s rest IH]; intros a b H; simpl in *.
  - subst. rewrite Nat.sub_diag. split; [lia | reflexivity].
  - destruct H as (Ha & Hlt & Hrest). apply IH in Hrest as (Hle & Heq).
    split; [lia|]. rewrite Heq. unfold indices. rewrite Ha.
    replace (b - a)%nat with ((snd (Position s) - a) + (b - snd (Position s)))%nat by lia.
    rewrite seq_app. do 2 f_equal. lia.
Qed.

Lemma partitions_bounds segments : forall a b s,
  partitions a b segments -> s ∈ segments ->
  (a <= fst (Position s))%nat /\ (fst (Position s) < snd (Position s))%nat
  /\ (snd (Position s) <= b)%nat.
Proof.
  induction segments as [|s0 rest IH]; intros a b s H Hin; simpl in *.
  - by apply elem_of_nil in Hin.
  - destruct H as (Ha & Hlt & Hrest).
    pose proof (partitions_indices _ _ _ Hrest) as [Hle _].
    apply elem_of_cons in Hin as [-> | Hin]; [lia|].
    destruct (IH _ _ _ Hrest Hin) as (? & ? & ?). lia.
Qed.

(** Two segments of a partition that hold the same index are the same. *)
Lemma partitions_disjoint segments : forall a b s1 s2 i,
  partitions a b segments -> s1 ∈ segments -> s2 ∈ segments ->
  InRange i (Position s1) = true -> InRange i (Position s2) = true -> s1 = s2.
Proof.
  unfold InRange.
  induction segments as [|s0 rest IH]; intros a b s1 s2 i H H1 H2 Hi1 Hi2; simpl in *.
  - by apply elem_of_nil in H1.
  - destruct H as (Ha & Hlt & Hrest).
    apply andb_true_iff in Hi1 as [Hi1a Hi1b]. apply andb_true_iff in Hi2 as [Hi2a Hi2b].
    apply Nat.leb_le in Hi1a, Hi2a. apply Nat.ltb_lt in Hi1b, Hi2b.
    apply elem_of_cons in H1 as [-> | H1]; apply elem_of_cons in H2 as [-> | H2].
    + reflexivity.
    + destruct (partitions_bounds _ _ _ _ Hrest H2) as (? & ? & ?). lia.
    + destruct (partitions_bounds _ _ _ _ Hrest H1) as (? & ? & ?). lia.
    + apply (IH _ _ s1 s2 i Hrest H1 H2); apply andb_true_iff;
        (split; [apply Nat.leb_le | apply Nat.ltb_lt]); lia.
Qed.

(** ** The valid regions *)

(** An index inside a valid range lies in a segment that is not
    single-quoted. *)
Lemma getValidSlices_loop_cover segments : forall valid v i,
  v ∈ getValidSlices_loop segments valid -> InRange i v = true ->
  (exists v0, v0 ∈ valid /\ InRange i v0 = true)
  \/ (exists seg, seg ∈ segments /\ segType seg <> singleQuoted
                  /\ InRange i (Position seg) = true).
Proof.
  induction segments as [|seg rest IH]; intros valid v i Hin Hi; simpl in Hin.
  - left. exists v. split; [|exact Hi]. apply elem_of_reverse. exact Hin.
  - assert (Hlater : forall valid',
      v ∈ getValidSlices_loop rest valid' ->
      (forall v0, v0 ∈ valid' -> InRange i v0 = true ->
         (exists v1, v1 ∈ valid /\ InRange i v1 = true)
         \/ segType seg <> singleQuoted /\ InRange i (Position seg) = true) ->
      (exists v0, v0 ∈ valid /\ InRange i v0 = true)
      \/ (exists seg0, seg0 ∈ seg :: rest /\ segType seg0 <> singleQuoted
                       /\ InRange i (Position seg0) = true)).
    { intros valid' Hin' Hold.
      destruct (IH _ _ _ Hin' Hi) as [(v0 & Hv0 & Hi0) | (seg0 & Hs0 & Hty & Hi0)].
      - destruct (Hold _ Hv0 Hi0) as [? | [? ?]]; [left; assumption|].
        right. exists seg. split; [apply elem_of_cons; auto | auto].
      - right. exists seg0. split; [apply elem_of_cons; auto | auto]. }
    case_bool_decide as Hty.
    + destruct valid as [|[a b] valid'].
      * apply (Hlater _ Hin). intros v0 Hv0 Hi0.
        apply list_elem_of_singleton in Hv0 as ->. right. auto.
      * destruct (Nat.eqb_spec b (fst (Position seg))) as [Hb|Hb].
        -- apply (Hlater _ Hin). intros v0 Hv0 Hi0.
           apply elem_of_cons in Hv0 as [-> | Hv0].
           ++ unfold InRange in *. simpl in *.
              apply andb_true_iff in Hi0 as [Hlo Hhi].
              apply Nat.leb_le in Hlo. apply Nat.ltb_lt in Hhi.
              destruct (Nat.ltb_spec i b).
              ** left. exists (a, b). split; [apply elem_of_cons; auto|]. simpl.
                 apply andb_true_iff. split; [apply Nat.leb_le | apply Nat.ltb_lt]; lia.
              ** right. split; [exact Hty|].
                 apply andb_true_iff. split; [apply Nat.leb_le | apply Nat.ltb_lt]; lia.
           ++ left. exists v0. split; [apply elem_of_cons; auto | exact Hi0].
        -- apply (Hlater _ Hin). intros v0 Hv0 Hi0.
           apply elem_of_cons in Hv0 as [-> | Hv0]; [right; auto|].
           left. exists v0. split; [exact Hv0 | exact Hi0].
    + apply (Hlater _ Hin). intros v0 Hv0 Hi0. left. eauto.
Qed.

Lemma getValidSlices_cover segments v i :
  v ∈ getValidSlices segments -> InRange i v = true ->
  exists seg, seg ∈ segments /\ segType seg <> singleQuoted
              /\ InRange i (Position seg) = true.
Proof.
  intros Hin Hi.
  destruct (getValidSlices_loop_cover _ _ _ _ Hin Hi) as [(v0 & Hv0 & _) | H];
    [by apply elem_of_nil in Hv0 | exact H].
Qed.

(** Every reference the finder returns starts inside a valid range. *)
Lemma findParams_in_valid payload validSlices param :
  param ∈ findParams payload validSlices ->
  exists v, v ∈ validSlices /\ InRange (fst (ParamPosition param)) v = true.
Proof.
  unfold findParams. intros H.
  apply list_elem_of_In, in_flat_map in H as (pm & _ & Hin).
  destruct (existsb _ validSlices) eqn:He; [|destruct Hin].
  destruct Hin as [<- | []]. simpl.
  apply existsb_exists in He as (v & Hv & Hi).
  exists v. split; [apply list_elem_of_In; exact Hv | exact Hi].
Qed.

(** No reference found under honoured quoting starts inside a
    single-quoted segment. *)
Lemma findParams_outside_single_quotes payload segments param segment :
  tokenizeByQuotes payload = Ok segments ->
  param ∈ findParams payload (getValidSlices segments) ->
  segment ∈ segments -> segType segment = singleQuoted ->
  InRange (fst (ParamPosition param)) (Position segment) = false.
Proof.
  intros Htok Hparam Hseg Hty.
  destruct (tokenize_partitions payload) as (segments' & Htok' & Hpart).
  rewrite Htok in Htok'. inv Htok'.
  apply findParams_in_valid in Hparam as (v & Hv & Hi).
  apply getValidSlices_cover with (i := fst (ParamPosition param)) in Hv
    as (seg & Hin & Hnot & Hi'); [|exact Hi].
  destruct (InRange _ (Position segment)) eqn:Hr; [|reflexivity].
  assert (seg = segment) by (eapply partitions_disjoint; eauto).
  subst. contradiction.
Qed.

(** ** Single-quoted segments *)

Section MatcherEquations.

Variable multiline : bool.
Variable input : text.
Local Abbreviation run := (run multiline input).

Lemma run_seq_fwd r1 r2 s k :
  run (Seq r1 r2) Fwd s k = run r1 Fwd s (fun s' => run r2 Fwd s' k).
Proof. reflexivity. Qed.

Lemma run_alt r1 r2 d s k :
  run (Alt r1 r2) d s k =
  match run r1 d s k with Some res => Some res | None => run r2 d s k end.
Proof. reflexivity. Qed.

Lemma run_group name r d s k :
  run (Group name r) d s k = run r d s (fun s' => k (push name (pos s) (pos s') s')).
Proof. reflexivity. Qed.

Lemma run_star g r d s k :
  run (Star g r) d s k = star_loop (run r d) g k (S (length input)) s.
Proof. reflexivity. Qed.

Lemma run_chr_fwd cs s k :
  run (Chr cs) Fwd s k =
  match input !! pos s with
  | Some c => if cset_mem c cs then k (at_pos (S (pos s)) s) else None
  | None => None
  end.
Proof. reflexivity. Qed.

End MatcherEquations.

Lemma star_loop_O body g k s : star_loop body g k O s = k s.
Proof. reflexivity. Qed.

Lemma star_loop_lazy_S body k n s :
  star_loop body Lazy k (S n) s =
  match k s with
  | Some res => Some res
  | None =>
      body s (fun s' => if (pos s' =? pos s)%nat then None
                        else star_loop body Lazy k n s')
  end.
Proof. reflexivity. Qed.

Section SingleQuoted.

Variable payload : text.
Local Abbreviation run := (run false payload).
Local Abbreviation Matches := (Matches false payload).

(** The lazy loop before the closing quote stops at the first single
    quote it meets, whatever precedes that quote. *)
Lemma lazy_until_quote (K : cont) :
  (forall s', exists res, K s' = Some res /\ pos res = pos s') ->
  forall n sa s,
    star_loop (run (Group "1" anychar) Fwd) Lazy
              (fun sc => run chSQ Fwd sc K) n sa = Some s ->
    exists j, (pos sa <= j)%nat /\ payload !! j = Some SQ
              /\ (forall i, (pos sa <= i < j)%nat -> payload !! i <> Some SQ)
              /\ pos s = S j.
Proof.
  intros HK.
  assert (Hstop : forall sa s, run chSQ Fwd sa K = Some s ->
            payload !! pos sa = Some SQ /\ pos s = S (pos sa)).
  { intros sa s H. unfold chSQ in H. rewrite run_chr_fwd in H.
    destruct (payload !! pos sa) as [c|] eqn:Hc; [|discriminate].
    destruct (cset_mem c _) eqn:Hm; [|discriminate].
    apply cset_single in Hm as ->.
    destruct (HK (at_pos (S (pos sa)) sa)) as (res & Hres & Hpos).
    rewrite Hres in H. inv H. auto. }
  assert (Hnot : forall sa, run chSQ Fwd sa K = None -> payload !! pos sa <> Some SQ).
  { intros sa H Hq. unfold chSQ in H. rewrite run_chr_fwd, Hq in H.
    simpl in H. destruct (HK (at_pos (S (pos sa)) sa)) as (res & Hres & _).
    congruence. }
  induction n as [|n IH]; intros sa s H.
  - rewrite star_loop_O in H. apply Hstop in H as [Hq Hp].
    exists (pos sa). repeat split; auto. intros; lia.
  - rewrite star_loop_lazy_S in H.
    destruct (run chSQ Fwd sa K) as [res|] eqn:Hk.
    + inv H. apply Hstop in Hk as [Hq Hp].
      exists (pos sa). repeat split; auto. intros; lia.
    + apply Hnot in Hk.
      apply run_sound in H as (s1 & Hm & Hagain).
      inv Hm. unfold anychar, dot in *.
      assert (Hp1 : pos s' = S (pos sa)).
      { match goal with H : Matches (Alt _ _) _ _ _ |- _ => inv H end;
          match goal with H : Matches (Chr _) _ _ _ |- _ => inv H end; reflexivity. }
      simpl in Hagain. rewrite Hp1 in Hagain.
      destruct (Nat.eqb_spec (S (pos sa)) (pos sa)); [lia|].
      apply IH in Hagain as (j & Hj & Hq & Hnone & Hend).
      simpl in Hj. rewrite Hp1 in Hj.
      exists j. repeat split; auto; [lia|].
      intros i Hi. destruct (decide (i = pos sa)) as [->|]; [exact Hk|].
      apply Hnone. simpl. rewrite Hp1. lia.
Qed.

(** A match whose group singleQuoted is not empty starts at a single
    quote and ends with the first single quote after it. *)
Lemma single_quoted_match p m :
  match_at false payload quoteTokenizerPattern p = Some m ->
  (0 < group_length m "singleQuoted")%nat ->
  Index m = p /\ payload !! p = Some SQ
  /\ exists j, (p < j)%nat /\ payload !! j = Some SQ
               /\ (forall i, (p < i < j)%nat -> payload !! i <> Some SQ)
               /\ (Index m + Length m = S j)%nat.
Proof.
  unfold match_at, quoteTokenizerPattern. rewrite run_alt.
  destruct (run (Group "singleQuoted" _) Fwd _ Some) as [s|] eqn:H1.
  - intros Hm _. inv Hm. simpl. split; [reflexivity|].
    rewrite run_group in H1. cbn [cat] in H1. rewrite run_seq_fwd in H1.
    apply run_sound in H1 as (s1 & Hm1 & Hk).
    apply unescaped_quote_inv in Hm1 as (Hq & Hp & _). simpl in Hq, Hp.
    split; [exact Hq|].
    rewrite run_seq_fwd, run_star in Hk.
    apply lazy_until_quote in Hk as (j & Hj & Hqj & Hnone & Hend).
    + exists j. rewrite Hp in Hj. repeat split; auto; [|lia].
      intros i Hi. apply Hnone. lia.
    + intros s'. eexists. split; [reflexivity|]. reflexivity.
  - intros Hm Hlen. exfalso.
    destruct (run (Group "doubleQuoted" _) Fwd _ Some) as [s|] eqn:H2; [|discriminate].
    inv Hm. apply run_sound in H2 as (s' & Hm2 & Hk). inv Hk.
    apply Matches_other_groups with (nm := "singleQuoted"%string) in Hm2.
    + unfold group_length, group_span in Hlen. simpl in Hlen, Hm2.
      rewrite Hm2 in Hlen. simpl in Hlen. lia.
    + simpl. rewrite !not_elem_of_cons. repeat split; try discriminate.
      apply not_elem_of_nil.
Qed.

End SingleQuoted.

(** A single-quoted segment comes from a match whose group singleQuoted
    is not empty. *)
Lemma tokenize_loop_single payload ms : forall lastIndex segments segment,
  tokenize_loop payload ms lastIndex = Ok segments ->
  segment ∈ segments -> segType segment = singleQuoted ->
  exists m, m ∈ ms /\ Position segment = (Index m, (Index m + Length m)%nat)
            /\ (0 < group_length m "singleQuoted")%nat.
Proof.
  induction ms as [|m ms IH]; intros lastIndex segments segment H Hin Hty; simpl in H.
  - inv H. case_bool_decide; [|by apply elem_of_nil in Hin].
    apply list_elem_of_singleton in Hin as ->. discriminate.
  - destruct (Nat.ltb_spec 0 (group_length m "singleQuoted")) as [Hs|Hs].
    + destruct (tokenize_loop payload ms _) as [rest| |] eqn:Hrest; simpl in H; inv H.
      apply elem_of_app in Hin as [Hin | Hin].
      * case_bool_decide; [|by apply elem_of_nil in Hin].
        apply list_elem_of_singleton in Hin as ->. discriminate.
      * apply elem_of_cons in Hin as [-> | Hin].
        -- exists m. split; [apply elem_of_cons; auto|]. auto.
        -- destruct (IH _ _ _ Hrest Hin Hty) as (m' & ? & ? & ?).
           exists m'. split; [apply elem_of_cons; auto|]. auto.
    + destruct (0 <? group_length m "doubleQuoted")%nat; [|discriminate].
      destruct (tokenize_loop payload ms _) as [rest| |] eqn:Hrest; simpl in H; inv H.
      apply elem_of_app in Hin as [Hin | Hin].
      * case_bool_decide; [|by apply elem_of_nil in Hin].
        apply list_elem_of_singleton in Hin as ->. discriminate.
      * apply elem_of_cons in Hin as [-> | Hin]; [discriminate|].
        destruct (IH _ _ _ Hrest Hin Hty) as (m' & ? & ? & ?).
        exists m'. split; [apply elem_of_cons; auto|]. auto.
Qed.

(** A single-quoted segment opens with a single quote and closes with the
    first single quote after it. *)
Lemma single_quoted_segment payload segments segment :
  tokenizeByQuotes payload = Ok segments ->
  segment ∈ segments -> segType segment = singleQuoted ->
  let a := fst (Position segment) in
  let b := snd (Position segment) in
  payload !! a = Some SQ /\ (a + 2 <= b)%nat /\ payload !! (b - 1)%nat = Some SQ
  /\ forall i, (a < i < b - 1)%nat -> payload !! i <> Some SQ.
Proof.
  intros Htok Hin Hty.
  unfold tokenizeByQuotes in Htok.
  destruct (tokenize_loop_single _ _ _ _ _ Htok Hin Hty) as (m & Hm & Hpos & Hlen).
  unfold FindAll, all_matches in Hm.
  apply matches_from_each in Hm; [|lia]. simpl in Hm.
  apply single_quoted_match in Hm as (_ & Hq & j & Hj & Hqj & Hnone & Hend); [|exact Hlen].
  rewrite Hpos. simpl. rewrite Hend.
  replace (S j - 1)%nat with j by lia.
  repeat split; auto; lia.
Qed.

(** ** The parameter resolver terminates *)

Lemma Matches_chr_fwd ml input cs s s' :
  Matches ml input (Chr cs) Fwd s s' ->
  pos s' = S (pos s) /\ caps s' = caps s /\ (pos s < length input)%nat.
Proof.
  intros H. inv H. simpl. repeat split.
  match goal with H : _ !! _ = Some _ |- _ => apply lookup_lt_Some in H; exact H end.
Qed.

Lemma length_slice (t : text) a b : (length (slice t a b) <= length t - a)%nat.
Proof. unfold slice. rewrite length_take, length_drop. lia. Qed.

(** The default expression the parser pattern captures is shorter than
    the reference it is taken from. *)
Lemma parser_default_shorter found pm :
  FindRunesMatch paramParserRegex found = Some pm ->
  (length (group_text found pm "defaultsValue") < length found)%nat.
Proof.
  unfold FindRunesMatch. simpl. intros H.
  apply find_from_bounds in H as (_ & _ & H); [|lia].
  apply match_at_inv in H as (s & Hm & Hpm & Hle & _).
  rewrite Hpm. generalize dependent (Index pm). intros p Hm _ Hle. clear pm.
  unfold paramParserPattern in Hm. cbn [cat lit] in Hm.
  inv Hm.
  repeat match goal with
  | H : Matches _ _ (Seq _ _) Fwd _ _ |- _ => inv H
  end.
  repeat match goal with
  | H : Matches _ _ (chr _) Fwd _ _ |- _ =>
      apply Matches_chr_fwd in H as (? & ? & ?)
  end.
  match goal with H : Matches _ _ Eol _ _ _ |- _ => inv H end.
  match goal with H : Matches _ _ paramName _ ?a ?b |- _ =>
    pose proof (Matches_moves _ _ _ _ _ _ H) as [Hname _];
    pose proof (Matches_other_groups _ _ _ _ _ _ H "defaultsValue"%string) as Hcaps
  end.
  simpl in *.
  unfold group_text, group_span. simpl.
  match goal with H : Matches _ _ (Opt _ _) _ _ _ |- _ => inv H end.
  - repeat match goal with H : caps _ = _ |- _ => rewrite H in * end.
    rewrite Hcaps by apply not_elem_of_nil. simpl.
    unfold slice. simpl. lia.
  - repeat match goal with
    | H : Matches _ _ (Group _ _) _ _ _ |- _ => inv H
    | H : Matches _ _ (Seq _ _) Fwd _ _ |- _ => inv H
    end.
    repeat match goal with H : caps _ = _ |- _ => rewrite H in * end.
    simpl in *.
    match goal with H : Matches _ _ (Star Lazy dot) _ ?a ?b |- _ =>
      pose proof (Matches_moves _ _ _ _ _ _ H) as [Hstar Hin] end.
    match goal with H : Matches _ _ paramDefaults _ ?a ?b |- _ =>
      pose proof (Matches_moves _ _ _ _ _ _ H) as [Hdef _] end.
    simpl in *.
    rewrite Nat.min_l, Nat.max_r by lia. simpl.
    match goal with |- (length (slice found ?a ?b) < _)%nat =>
      pose proof (length_slice found a b) end.
    lia.
Qed.

Lemma length_match_text (input : text) m : (length (match_text input m) <= length input)%nat.
Proof. unfold match_text. pose proof (length_slice input (Index m) (Index m + Length m)). lia. Qed.

Lemma replace_loop_ext input ms ev1 ev2 : forall prevat,
  (forall m, m ∈ ms -> ev1 (match_text input m) = ev2 (match_text input m)) ->
  replace_loop input ms ev1 prevat = replace_loop input ms ev2 prevat.
Proof.
  induction ms as [|m ms IH]; intros prevat H; simpl; [reflexivity|].
  rewrite (H m) by (apply elem_of_cons; auto).
  destruct (ev2 _); simpl; try reflexivity.
  rewrite IH; [reflexivity|]. intros; apply H; apply elem_of_cons; auto.
Qed.



(** The recursive calls of [parseParam] are on texts shorter than its
    argument: two stand-ins for [parseParam] that agree on those give the
    same result. *)
Lemma parseParam_with_ext self1 self2 env param :
  (forall t, (length t < length param)%nat -> self1 t = self2 t) ->
  parseParam_with self1 env param = parseParam_with self2 env param.
Proof.
  intros Hself. unfold parseParam_with, referenceValue_with.
  destruct (FindRunesMatch paramFinderRegex param) as [fm|]; [|reflexivity].
  destruct (0 <? group_length fm "bare")%nat; [reflexivity|].
  destruct (0 <? group_length fm "braced")%nat; [|reflexivity].
  cbv zeta.
  destruct (FindRunesMatch paramParserRegex _) as [pm|] eqn:Hpm; [|reflexivity].
  destruct (0 <? group_length pm "defaults")%nat; [|reflexivity].
  destruct (handleDefaults _ _ _ _) as [[[value resolved] failing]| |]; simpl; try reflexivity.
  destruct resolved; [reflexivity|].
  unfold parseEmbeddedParams_with, ReplaceFunc.
  erewrite replace_loop_ext; [reflexivity|].
  intros m _. apply Hself.
  pose proof (parser_default_shorter _ _ Hpm).
  pose proof (length_match_text (group_text (match_text param fm) pm "defaultsValue") m).
  pose proof (length_match_text param fm). lia.
Qed.



Lemma parseParam_rec_stable env : forall fuel1 fuel2 param,
  (length param < fuel1)%nat -> (length param < fuel2)%nat ->
  parseParam_rec fuel1 env param = parseParam_rec fuel2 env param.
Proof.
  induction fuel1 as [|fuel1 IH]; intros fuel2 param H1 H2; [lia|].
  destruct fuel2 as [|fuel2]; [lia|].
  simpl. apply parseParam_with_ext. intros t Ht. apply IH; lia.
Qed.


(** [parseParam] satisfies the equation the source defines it by. *)
Lemma parseParam_unfold env param :
  parseParam env param = parseParam_with (parseParam env) env param.
Proof.
  unfold parseParam at 1. simpl.
  apply parseParam_with_ext. intros t Ht.
  unfold parseParam. apply parseParam_rec_stable; lia.
Qed.

(** A reference in which the resolver recognises a question-mark
    operator whose fallback is taken fails: with its default expression,
    the references in it resolved, as the message, or with the failure of
    resolving that expression. *)
Lemma recognised_required_reference_fails env param fm pm value :
  FindRunesMatch paramFinderRegex param = Some fm ->
  group_length fm "bare" = 0%nat -> (0 < group_length fm "braced")%nat ->
  FindRunesMatch paramParserRegex (match_text param fm) = Some pm ->
  (0 < group_length pm "defaults")%nat ->
  handleDefaults env (match_text param fm) pm (group_text param fm "braced")
    = Ok (value, false, true) ->
  parseParam env param =
  match parseEmbeddedParams env (group_text (match_text param fm) pm "defaultsValue") with
  | Ok message => Panic message
  | Panic message => Panic message
  | OutOfFuel => OutOfFuel
  end.
Proof.
  intros Hfm Hbare Hbraced Hpm Hdef Hh.
  rewrite parseParam_unfold. unfold parseParam_with, referenceValue_with.
  rewrite Hfm, Hbare. simpl.
  apply Nat.ltb_lt in Hbraced, Hdef. rewrite Hbraced, Hpm, Hdef, Hh. simpl.
  unfold parseEmbeddedParams.
  destruct (parseEmbeddedParams_with _ _); reflexivity.
Qed.

(** When the fallback of a question-mark operator is taken. *)
Lemma handleDefaults_failing env input m param value resolved :
  handleDefaults env input m param = Ok (value, resolved, true) ->
  last (group_text input m "defaultsOperation") = Some (rn "?")
  /\ resolved = false
  /\ (env !! param = None
      \/ (env !! param = Some []
          /\ take 1 (group_text input m "defaultsOperation") = str ":")).
Proof.
  unfold handleDefaults, LookupEnv.
  destruct (last _) as [op|] eqn:Hop; [|destruct (env !! param); discriminate].
  destruct (env !! param) as [v|] eqn:Hv; simpl;
    repeat case_bool_decide; simpl; intros Heq; inv Heq; subst;
    try (split; [reflexivity|]; split; [reflexivity|]); try tauto;
    try discriminate.
  all: right; split; [|assumption];
    match goal with H : length ?v = 0%nat |- _ => destruct v; [reflexivity | discriminate] end.
Qed.

(** A reference the parser pattern does not match anywhere resolves to the
    value of its variable. *)
Lemma unparsed_reference_is_its_variable env param fm :
  FindRunesMatch paramFinderRegex param = Some fm ->
  group_length fm "bare" = 0%nat -> (0 < group_length fm "braced")%nat ->
  FindRunesMatch paramParserRegex (match_text param fm) = None ->
  parseParam env param =
  Ok (take (Index fm) param ++ Getenv env (group_text param fm "braced")
        ++ drop (Index fm + Length fm) param).
Proof.
  intros Hfm Hbare Hbraced Hpm.
  rewrite parseParam_unfold. unfold parseParam_with, referenceValue_with.
  rewrite Hfm, Hbare. simpl.
  apply Nat.ltb_lt in Hbraced. rewrite Hbraced, Hpm. reflexivity.
Qed.

(** ** References with an operator *)

Section LoopsOverAClass.

Variable multiline : bool.
Variable input : text.
Local Abbreviation Matches := (Matches multiline input).

(** A loop over one character class reads characters of the class, and
    captures nothing. *)
Lemma star_class_inv g cs s s' :
  Matches (Star g (Chr cs)) Fwd s s' ->
  exists j, pos s' = (pos s + j)%nat /\ caps s' = caps s
            /\ forall i, (i < j)%nat ->
                 exists c, input !! (pos s + i)%nat = Some c /\ cset_mem c cs = true.
Proof.
  intros H. remember (Star g (Chr cs)) as r eqn:Hr. remember Fwd as d eqn:Hd.
  induction H; inv Hr.
  - exists O. rewrite Nat.add_0_r. repeat split. intros; lia.
  - specialize (IHMatches2 eq_refl eq_refl) as (j & Hp & Hc & Hall).
    match goal with H : Matches (Chr cs) Fwd _ _ |- _ => inv H end.
    simpl in *. exists (S j). split; [lia|]. split; [assumption|].
    intros [|i] Hi.
    + rewrite Nat.add_0_r. eauto.
    + replace (pos s + S i)%nat with (S (pos s) + i)%nat by lia. apply Hall. lia.
Qed.

Lemma star_class_intro g cs : forall j s,
  (forall i, (i < j)%nat ->
     exists c, input !! (pos s + i)%nat = Some c /\ cset_mem c cs = true) ->
  Matches (Star g (Chr cs)) Fwd s (at_pos (pos s + j) s).
Proof.
  induction j as [|j IH]; intros s Hall.
  - rewrite Nat.add_0_r. destruct s. apply M_Star_stop.
  - destruct (Hall O) as (c & Hc & Hm); [lia|]. rewrite Nat.add_0_r in Hc.
    eapply M_Star_more with (s1 := at_pos (S (pos s)) s).
    + econstructor; eauto.
    + simpl. lia.
    + replace (at_pos (pos s + S j) s)
        with (at_pos (pos (at_pos (S (pos s)) s) + j) (at_pos (S (pos s)) s)).
      * apply IH. intros i Hi. simpl.
        replace (S (pos s + i)) with (pos s + S i)%nat by lia. apply Hall. lia.
      * unfold at_pos. simpl. f_equal. lia.
Qed.

End LoopsOverAClass.

(** The characters of a name, and what they are not. *)
Lemma name_char_spec c :
  cset_mem c name_char = true <->
  (65 <= c <= 90 \/ 97 <= c <= 122 \/ 48 <= c <= 57 \/ c = 95).
Proof.
  unfold cset_mem, name_char, in_ranges, existsb, rng, one, fst, snd.
  change (rn "A") with 65. change (rn "Z") with 90. change (rn "a") with 97.
  change (rn "z") with 122. change (rn "0") with 48. change (rn "9") with 57.
  change (rn "_") with 95.
  rewrite !orb_true_iff, !andb_true_iff, !Z.leb_le. lia.
Qed.

Lemma name_start_char c : cset_mem c name_start = true -> cset_mem c name_char = true.
Proof.
  rewrite name_char_spec.
  unfold cset_mem, name_start, in_ranges, existsb, rng, one, fst, snd.
  change (rn "A") with 65. change (rn "Z") with 90. change (rn "a") with 97.
  change (rn "z") with 122. change (rn "_") with 95.
  rewrite !orb_true_iff, !andb_true_iff, !Z.leb_le. lia.
Qed.

Lemma is_name_inv name :
  is_name name = true ->
  exists c rest, name = c :: rest /\ cset_mem c name_start = true
                 /\ forall i x, rest !! i = Some x -> cset_mem x name_char = true.
Proof.
  destruct name as [|c rest]; [discriminate|]. simpl.
  rewrite andb_true_iff, forallb_forall. intros [Hc Hrest].
  exists c, rest. repeat split; [exact Hc|].
  intros i x Hx. apply Hrest. apply list_elem_of_In. eapply list_elem_of_lookup_2; eauto.
Qed.

Lemma name_chars name i x :
  is_name name = true -> name !! i = Some x -> cset_mem x name_char = true.
Proof.
  intros H Hx. apply is_name_inv in H as (c & rest & -> & Hc & Hrest).
  destruct i as [|i]; simpl in Hx.
  - inv Hx. apply name_start_char; assumption.
  - eapply Hrest; eauto.
Qed.

(** The operators: an optional colon, then one of [-], [+] and [?]. *)
Lemma operators_inv op :
  op ∈ operators ->
  exists o, (o = 45 \/ o = 43 \/ o = 63) /\ (op = [o] \/ op = [58; o]).
Proof.
  unfold operators. rewrite !elem_of_cons, elem_of_nil.
  intros [-> | [-> | [-> | [-> | [-> | [-> | []]]]]]].
  - exists 45; auto.
  - exists 45; auto.
  - exists 43; auto.
  - exists 43; auto.
  - exists 63; auto.
  - exists 63; auto.
Qed.

Lemma reference_lookup name op d i :
  reference name op d !! i =
  if decide (i < 2)%nat then str "${" !! i
  else if decide (i < 2 + length name)%nat then name !! (i - 2)%nat
  else if decide (i < 2 + length name + length op)%nat
       then op !! (i - (2 + length name))%nat
  else if decide (i < 2 + length name + length op + length d)%nat
       then d !! (i - (2 + length name + length op))%nat
  else str "}" !! (i - (2 + length name + length op + length d))%nat.
Proof.
  unfold reference.
  repeat case_decide.
  - rewrite lookup_app_l by (simpl; lia). reflexivity.
  - rewrite lookup_app_r by (simpl; lia).
    rewrite lookup_app_l by (simpl; lia). reflexivity.
  - rewrite lookup_app_r by (simpl; lia).
    rewrite lookup_app_r by (simpl; lia).
    rewrite lookup_app_l by (simpl; lia). f_equal. simpl. lia.
  - rewrite lookup_app_r by (simpl; lia).
    rewrite lookup_app_r by (simpl; lia).
    rewrite lookup_app_r by (simpl; lia).
    rewrite lookup_app_l by (simpl; lia). f_equal. simpl. lia.
  - rewrite lookup_app_r by (simpl; lia).
    rewrite lookup_app_r by (simpl; lia).
    rewrite lookup_app_r by (simpl; lia).
    rewrite lookup_app_r by (simpl; lia). f_equal. simpl. lia.
Qed.

Lemma reference_length name op d :
  length (reference name op d) = (3 + length name + length op + length d)%nat.
Proof. unfold reference. rewrite !length_app. simpl. lia. Qed.

Section OperatorReference.

Variables name op d : text.
Hypothesis name_ok : is_name name = true.
Hypothesis op_ok : op ∈ operators.
Hypothesis d_ok : NL ∉ d.

Local Abbreviation ref := (reference name op d).
Local Abbreviation Matches := (Matches false ref).

Local Ltac positions := cbn [pos caps at_pos push] in *.

(** The character of the reference at an index that is [k] further than
    the start of one of its parts. *)
Local Ltac at_index k :=
  rewrite reference_lookup; cbn [length] in *;
  repeat (case_decide; try lia);
  match goal with |- context [?l !! ?n] => replace n with k by lia end.

Lemma not_line_feed x : x <> NL -> cset_mem x (Except [(NL, NL)]) = true.
Proof.
  intros Hx. unfold cset_mem, in_ranges, existsb, fst, snd.
  rewrite orb_false_r. apply negb_true_iff, andb_false_iff.
  rewrite !Z.leb_gt. lia.
Qed.

Lemma name_matches s :
  pos s = 2%nat ->
  exists s', Matches paramName Fwd s s' /\ pos s' = (2 + length name)%nat.
Proof.
  intros Hs.
  destruct (is_name_inv _ name_ok) as (c & rest & Hn & Hc & Hrest).
  exists (at_pos (pos (at_pos (S (pos s)) s) + length rest) (at_pos (S (pos s)) s)).
  split; [|positions; rewrite Hn; simpl; lia].
  unfold paramName. eapply M_Seq_fwd.
  - eapply M_Chr_fwd; [|exact Hc]. rewrite Hs. rewrite Hn in *.
    at_index 0%nat. reflexivity.
  - apply star_class_intro.
    intros i Hi. positions. rewrite Hs. rewrite Hn in *.
    at_index (S i). cbn [lookup list_lookup].
    destruct (lookup_lt_is_Some_2 rest i Hi) as [x Hx].
    exists x. split; [exact Hx|]. eapply Hrest; eauto.
Qed.

Lemma operation_matches s :
  pos s = (2 + length name)%nat ->
  exists s', Matches (Group "1" paramDefaults) Fwd s s'
             /\ pos s' = (2 + length name + length op)%nat.
Proof.
  intros Hs.
  destruct (operators_inv _ op_ok) as (o & Ho & Hop).
  assert (Hops : cset_mem o (Among [one "-"; one "+"; one "?"]) = true).
  { destruct Ho as [-> | [-> | ->]]; reflexivity. }
  unfold paramDefaults.
  destruct Hop as [Hop | Hop]; eexists; (split; [apply M_Group, M_Group|]).
  - eapply M_Seq_fwd; [apply M_Opt_skip|].
    eapply M_Chr_fwd; [|exact Hops]. rewrite Hs. rewrite Hop in *.
    at_index 0%nat. reflexivity.
  - positions. rewrite Hop. simpl. lia.
  - eapply M_Seq_fwd; [apply M_Opt_take|]; eapply M_Chr_fwd.
    + rewrite Hs. rewrite Hop in *. at_index 0%nat. reflexivity.
    + reflexivity.
    + positions. rewrite Hs. rewrite Hop in *. at_index 1%nat. reflexivity.
    + exact Hops.
  - positions. rewrite Hop. simpl. lia.
Qed.

Lemma value_matches s :
  pos s = (2 + length name + length op)%nat ->
  exists s', Matches (Group "defaultsValue" (Star Lazy dot)) Fwd s s'
             /\ pos s' = (2 + length name + length op + length d)%nat.
Proof.
  intros Hs. eexists. split.
  - apply M_Group. apply star_class_intro with (j := length d).
    intros i Hi. rewrite Hs. at_index i.
    destruct (lookup_lt_is_Some_2 d i Hi) as [x Hx].
    exists x. split; [exact Hx|]. apply not_line_feed.
    intros ->; apply d_ok; eapply list_elem_of_lookup_2; eauto.
  - positions. lia.
Qed.

Lemma close_matches s :
  pos s = (2 + length name + length op + length d)%nat ->
  exists s', Matches (Seq (chr "}") Eol) Fwd s s'.
Proof.
  intros Hs. eexists. eapply M_Seq_fwd.
  - eapply M_Chr_fwd with (c := rn "}"); [|reflexivity].
    rewrite Hs. at_index 0%nat. reflexivity.
  - apply M_Eol. positions. unfold at_eol.
    rewrite reference_length, Hs.
    apply orb_true_iff. left. apply Nat.eqb_eq. lia.
Qed.

(** The parser pattern matches the whole reference. *)
Lemma parser_matches_reference :
  exists s, Matches paramParserPattern Fwd {| pos := 0; caps := [] |} s.
Proof.
  unfold paramParserPattern. cbn [cat lit].
  destruct (name_matches (at_pos 2 (at_pos 1 {| pos := 0; caps := [] |})))
    as (s3 & H3 & Hp3); [reflexivity|].
  destruct (operation_matches s3 Hp3) as (s4 & H4 & Hp4).
  destruct (value_matches s4 Hp4) as (s5 & H5 & Hp5).
  destruct (close_matches
              (push "expansion" (pos s3) (pos (push "defaults" (pos s3) (pos s5) s5))
                 (push "defaults" (pos s3) (pos s5) s5)))
    as (s6 & H6); [exact Hp5|].
  exists s6.
  eapply M_Seq_fwd.
  { eapply M_Seq_fwd; eapply M_Chr_fwd; reflexivity. }
  eapply M_Seq_fwd; [exact H3|].
  eapply M_Seq_fwd; [|exact H6].
  apply M_Opt_take, M_Group, M_Group.
  eapply M_Seq_fwd; [exact H4 | exact H5].
Qed.

(** The character after the name is not one of a name, and no character
    of the name, nor the one after it, closes the reference. *)
Lemma after_name_no_name_char x :
  ref !! (2 + length name)%nat = Some x -> cset_mem x name_char = false.
Proof.
  destruct (operators_inv _ op_ok) as (o & Ho & Hop).
  rewrite reference_lookup.
  assert (0 < length op)%nat by (destruct Hop as [-> | ->]; simpl; lia).
  repeat (case_decide; try lia).
  replace (2 + length name - (2 + length name))%nat with O by lia.
  intros Hx. apply not_true_iff_false. rewrite name_char_spec.
  destruct Hop as [-> | ->]; simpl in Hx; inv Hx; lia.
Qed.

Lemma operation_char_spec c :
  cset_mem c (Among [one "-"; one "+"; one "?"]) = true <-> (c = 45 \/ c = 43 \/ c = 63).
Proof.
  unfold cset_mem, in_ranges, existsb, one, fst, snd.
  change (rn "-") with 45. change (rn "+") with 43. change (rn "?") with 63.
  rewrite !orb_true_iff, !andb_true_iff, !Z.leb_le. lia.
Qed.

Lemma in_name_part p x :
  (2 <= p < 2 + length name)%nat -> ref !! p = Some x -> cset_mem x name_char = true.
Proof.
  intros Hp. rewrite reference_lookup.
  repeat (case_decide; try lia). apply name_chars, name_ok.
Qed.

Lemma name_not_empty : (0 < length name)%nat.
Proof.
  destruct (is_name_inv _ name_ok) as (c & rest & -> & _). simpl. lia.
Qed.

(** The parser pattern matches the reference in one way only. *)
Lemma parser_match_unique s :
  Matches paramParserPattern Fwd {| pos := 0; caps := [] |} s ->
  let a := (2 + length name)%nat in
  let b := (a + length op)%nat in
  let e := (b + length d)%nat in
  pos s = S e
  /\ caps s = [("expansion"%string, (a, e)); ("defaults"%string, (a, e));
               ("defaultsValue"%string, (b, e)); ("1"%string, (a, b));
               ("defaultsOperation"%string, (a, b))].
Proof.
  intros Hm a b e.
  unfold paramParserPattern, paramName in Hm. cbn [cat lit] in Hm.
  repeat match goal with
  | H : Matches (Seq _ _) Fwd _ _ |- _ => inv H
  end.
  repeat match goal with
  | H : Matches (chr _) Fwd _ _ |- _ => inv H
  | H : Matches (Chr _) Fwd _ _ |- _ => inv H
  end.
  match goal with H : Matches Eol _ _ _ |- _ => inv H end.
  match goal with H : Matches (Star _ _) _ _ _ |- _ =>
    apply star_class_inv in H as (j & Hj & Hcj & Hall) end.
  positions.
  assert (Hname : (3 + j <= 2 + length name)%nat).
  { destruct (decide (3 + j <= 2 + length name)%nat) as [|Hn]; [assumption|].
    pose proof name_not_empty.
    destruct (Hall (length name - 1)%nat) as (x & Hx & Hxm); [lia|].
    replace (3 + (length name - 1))%nat with (2 + length name)%nat in Hx by lia.
    apply after_name_no_name_char in Hx.
    change (cset_mem x name_char = true) in Hxm. congruence. }
  clear Hall.
  destruct (operators_inv _ op_ok) as (o & Ho & Hop).
  assert (Hend : pos s3 = e).
  { pose proof (lookup_lt_Some _ _ _ H3) as Hlt.
    rewrite reference_length in Hlt.
    unfold at_eol in H. rewrite reference_length in H.
    apply orb_true_iff in H as [H | H].
    - apply Nat.eqb_eq in H. lia.
    - apply andb_true_iff in H as [Hnl Hlast].
      apply bool_decide_eq_true in Hnl. simpl in Hlast. apply Nat.eqb_eq in Hlast.
      rewrite reference_lookup in Hnl.
      repeat (case_decide; try lia).
      replace (S (pos s3) - (2 + length name + length op + length d))%nat with O in Hnl
        by lia.
      discriminate. }
  assert (Hlen : (0 < length op)%nat) by (destruct Hop as [-> | ->]; simpl; lia).
  subst a b e. inv H2; [lia|].
  repeat match goal with
  | H : Matches (Group _ _) Fwd _ _ |- _ => inv H
  | H : Matches (Seq _ _) Fwd _ _ |- _ => inv H
  end.
  match goal with H : Matches (Star _ _) _ _ _ |- _ =>
    apply star_class_inv in H as (j' & Hj' & Hcj' & _) end.
  positions.
  unfold paramDefaults in H14.
  repeat match goal with
  | H : Matches (Group _ _) Fwd _ _ |- _ => inv H
  | H : Matches (Seq _ _) Fwd _ _ |- _ => inv H
  end.
  match goal with H : Matches (Chr _) Fwd _ _ |- _ => inv H end.
  match goal with H : cset_mem _ (Among [one "-"; _; _]) = true |- _ =>
    apply operation_char_spec in H; rename H into Hoc end.
  positions.
  assert (Hops : forall p x, (2 <= p < 2 + length name)%nat -> ref !! p = Some x ->
                             x <> 58 /\ x <> 45 /\ x <> 43 /\ x <> 63).
  { intros p x Hp Hx. apply (in_name_part _ _ Hp) in Hx.
    apply name_char_spec in Hx. lia. }
  assert (Hcolon : s1 = s2
                   \/ (ref !! pos s2 = Some 58 /\ s1 = at_pos (S (pos s2)) s2)).
  { inv H6; [left; reflexivity|]. right.
    match goal with H : Matches (chr _) Fwd _ _ |- _ => inv H end.
    match goal with H : cset_mem _ _ = true |- _ => apply cset_single in H; subst end.
    split; [assumption | reflexivity]. }
  clear H6.
  assert (Hfirst : forall x, ref !! pos s2 = Some x ->
                             x = 58 \/ x = 45 \/ x = 43 \/ x = 63 ->
                             pos s2 = (2 + length name)%nat /\ op !! O = Some x).
  { intros x Hx Hxo.
    assert (Ha : pos s2 = (2 + length name)%nat).
    { destruct (decide (pos s2 = 2 + length name)%nat) as [|Hn]; [assumption|].
      destruct (Hops (pos s2) x ltac:(lia) Hx). lia. }
    split; [exact Ha|]. rewrite Ha, reference_lookup in Hx.
    repeat (case_decide; try lia).
    replace (2 + length name - (2 + length name))%nat with O in Hx by lia.
    exact Hx. }
  split; [rewrite Hend; reflexivity|].
  rewrite Hcj'.
  destruct Hcolon as [-> | [Hc58 ->]]; positions.
  - destruct (Hfirst _ H5 ltac:(tauto)) as [Ha Hx].
    assert (Hl : length op = 1%nat).
    { destruct Hop as [-> | ->]; [reflexivity|]. simpl in Hx. inv Hx. lia. }
    rewrite Hcj, Hend, Ha, Hl.
    rewrite !Nat.min_l, !Nat.max_r by lia.
    repeat f_equal; lia.
  - destruct (Hfirst _ Hc58 ltac:(tauto)) as [Ha Hx].
    assert (Hl : length op = 2%nat).
    { destruct Hop as [-> | ->]; [|reflexivity]. simpl in Hx. inv Hx. lia. }
    rewrite Hcj, Hend, Ha, Hl.
    rewrite !Nat.min_l, !Nat.max_r by lia.
    repeat f_equal; lia.
Qed.

(** What the parser pattern finds in the reference: the whole of it, with
    the operator and the default expression in their groups. *)
Lemma parser_on_reference :
  exists pm,
    FindRunesMatch paramParserRegex ref = Some pm
    /\ Groups pm =
       let a := (2 + length name)%nat in
       let b := (a + length op)%nat in
       let e := (b + length d)%nat in
       [("expansion"%string, (a, e)); ("defaults"%string, (a, e));
        ("defaultsValue"%string, (b, e)); ("1"%string, (a, b));
        ("defaultsOperation"%string, (a, b))].
Proof.
  destruct parser_matches_reference as (s & Hs).
  pose proof (run_complete _ _ _ _ _ _ Hs eq_refl ltac:(simpl; lia) Some
                ltac:(discriminate)) as Hrun.
  unfold FindRunesMatch, find_from. simpl pattern. simpl Multiline.
  destruct (match_at false ref paramParserPattern 0) as [pm|] eqn:Hpm.
  - exists pm. split.
    + destruct (length ref - 0)%nat; simpl; rewrite Hpm; reflexivity.
    + apply match_at_inv in Hpm as (s' & Hm & -> & _).
      apply parser_match_unique in Hm as [_ Hc]. exact Hc.
  - unfold match_at in Hpm.
    destruct (run false ref paramParserPattern Fwd _ Some); [discriminate|].
    contradiction.
Qed.

End OperatorReference.

Lemma reference_parts name op d :
  slice (reference name op d) 2 (2 + length name) = name
  /\ slice (reference name op d) (2 + length name) (2 + length name + length op) = op
  /\ slice (reference name op d) (2 + length name + length op)
           (2 + length name + length op + length d) = d
  /\ slice (reference name op d) 0 (0 + length (reference name op d))
     = reference name op d.
Proof.
  unfold slice, reference. repeat split.
  - rewrite drop_app_length' by reflexivity.
    apply take_app_length'. lia.
  - rewrite (app_assoc (str "${")).
    rewrite drop_app_length' by (rewrite length_app; reflexivity).
    apply take_app_length'. lia.
  - rewrite (app_assoc (str "${")), (app_assoc (str "${" ++ name)).
    rewrite drop_app_length' by (rewrite !length_app; simpl; lia).
    apply take_app_length'. lia.
  - rewrite drop_0. apply take_ge. lia.
Qed.

(** A reference with one of the six operators and a default expression on
    one line, when the finder takes the whole of it as one reference to
    [name], resolves as the table of the operators says. *)
Lemma reference_follows_operator env name op d fm :
  is_name name = true -> op ∈ operators -> NL ∉ d ->
  FindRunesMatch paramFinderRegex (reference name op d) = Some fm ->
  Index fm = 0%nat -> Length fm = length (reference name op d) ->
  group_length fm "bare" = 0%nat ->
  group_span fm "braced" = (2, 2 + length name)%nat ->
  parseParam env (reference name op d) = by_operator env name op d.
Proof.
  intros Hname Hop Hd Hfm Hi Hl Hbare Hbraced.
  destruct (parser_on_reference name op d Hname Hop Hd) as (pm & Hpm & Hg).
  destruct (reference_parts name op d) as (Pname & Pop & Pd & Pall).
  pose proof (is_name_inv _ Hname) as (c & rest & Hn & _).
  destruct (operators_inv _ Hop) as (o & Ho & Hop').
  rewrite parseParam_unfold. unfold parseParam_with, referenceValue_with.
  rewrite Hfm, Hbare. cbn [Nat.ltb Nat.leb].
  unfold group_length, group_text, match_text. rewrite Hbraced, Hi, Hl.
  cbn [fst snd]. rewrite Pname, Pall, Hpm.
  replace (0 <? 2 + length name - 2)%nat with true
    by (symmetry; apply Nat.ltb_lt; rewrite Hn; simpl; lia).
  unfold handleDefaults, group_text, group_span. rewrite Hg.
  cbn [last_capture String.eqb Ascii.eqb Bool.eqb fst snd].
  rewrite Pop, Pd.
  replace (2 + length name - 2)%nat with (S (length rest)) by (rewrite Hn; simpl; lia).
  replace (2 + length name + length op + length d - (2 + length name))%nat
    with (S (pred (length op) + length d))
    by (destruct Hop' as [-> | ->]; simpl; lia).
  rewrite drop_ge by lia. cbn [take].
  change (parseEmbeddedParams_with (parseParam env) d) with (parseEmbeddedParams env d).
  unfold by_operator, LookupEnv.
  generalize (parseEmbeddedParams env d). intros r.
  clear Hfm Hpm Hg Pname Pop Pd Pall Hop Hbraced Hl Hn.
  destruct (env !! name) as [[|v0 v]|];
    destruct Hop' as [-> | ->]; destruct Ho as [-> | [-> | ->]];
    destruct r; cbn [obind fail_with];
    vm_compute; try reflexivity;
    match goal with |- _ = Ok ?x => exact (f_equal Ok (app_nil_r x)) end.
Qed.

(** A reference nested in the default expression of another. *)
Example nested_default_follows_operator :
  let env : Env := <[str "USER" := str "root"]> ∅ in
  parseParam env (reference (str "HOME") (str ":-") (str "/home/${USER-nobody}"))
  = by_operator env (str "HOME") (str ":-") (str "/home/${USER-nobody}")
  /\ by_operator env (str "HOME") (str ":-") (str "/home/${USER-nobody}")
     = Ok (str "/home/root").
Proof.
  split; [|vm_compute; reflexivity].
  destruct (FindRunesMatch paramFinderRegex
              (reference (str "HOME") (str ":-") (str "/home/${USER-nobody}")))
    as [fm|] eqn:Hfm; [|vm_compute in Hfm; discriminate].
  apply reference_follows_operator with (fm := fm); try exact Hfm;
    try (vm_compute in Hfm; inv Hfm; reflexivity).
  - unfold operators. rewrite !elem_of_cons. tauto.
  - apply (bool_decide_unpack _). vm_compute. exact I.
Qed.

(** ** References with a plain default expression *)

Lemma star_loop_greedy_S body k n s :
  star_loop body Greedy k (S n) s =
  match body s (fun s' => if (pos s' =? pos s)%nat then None
                          else star_loop body Greedy k n s') with
  | Some res => Some res
  | None => k s
  end.
Proof. reflexivity. Qed.

Section GreedyLoops.

Variable input : text.
Local Abbreviation run := (run false input).
Local Abbreviation Matches := (Matches false input).

(** What no match of a pattern can start with is not matched. *)
Lemma run_None r d s k :
  (forall s', ~ Matches r d s s') -> run r d s k = None.
Proof.
  intros H. destruct (run r d s k) as [res|] eqn:E; [|reflexivity].
  apply run_sound in E as (s' & Hm & _). destruct (H s' Hm).
Qed.

(** A greedy loop over a character class reads all the characters of the
    class there are, when the rest of the pattern matches after them. *)
Lemma star_class_greedy cs k res : forall j n s,
  (j <= n)%nat ->
  (forall i, (i < j)%nat ->
     exists c, input !! (pos s + i)%nat = Some c /\ cset_mem c cs = true) ->
  (forall c, input !! (pos s + j)%nat = Some c -> cset_mem c cs = false) ->
  k (at_pos (pos s + j) s) = Some res ->
  star_loop (run (Chr cs) Fwd) Greedy k n s = Some res.
Proof.
  induction j as [|j IH]; intros n s Hn Hall Hstop Hk.
  - rewrite Nat.add_0_r in Hk, Hstop.
    replace (at_pos (pos s) s) with s in Hk by (destruct s; reflexivity).
    destruct n as [|n]; [exact Hk|].
    rewrite star_loop_greedy_S, run_chr_fwd.
    destruct (input !! pos s) as [x|]; [|exact Hk].
    rewrite (Hstop x eq_refl). exact Hk.
  - destruct n as [|n]; [lia|].
    rewrite star_loop_greedy_S, run_chr_fwd.
    destruct (Hall O) as (c & Hc & Hm); [lia|]. rewrite Nat.add_0_r in Hc.
    rewrite Hc, Hm. cbn [pos at_pos].
    replace (S (pos s) =? pos s)%nat with false by (symmetry; apply Nat.eqb_neq; lia).
    rewrite (IH n (at_pos (S (pos s)) s)); [reflexivity|lia| | |].
    + intros i Hi. cbn [pos at_pos].
      replace (S (pos s) + i)%nat with (pos s + S i)%nat by lia. apply Hall. lia.
    + intros x. cbn [pos at_pos].
      replace (S (pos s) + j)%nat with (pos s + S j)%nat by lia. apply Hstop.
    + unfold at_pos in *. cbn [pos caps] in *.
      replace (S (pos s) + j)%nat with (pos s + S j)%nat by lia. exact Hk.
Qed.

Local Abbreviation nested :=
  (Group "braceDepth" (cat [unescapedToken; lit "${"; paramName])).
Local Abbreviation lone_dollar := (cat [unescapedToken; chDollar; NotAhead (chr "{")]).
Local Abbreviation no_dollar_no_brace := (Chr (Except [one "$"; one "}"])).
Local Abbreviation escaped_dollar := (cat [unescapedToken; chBSL; chDollar]).
Local Abbreviation closing := (Balance "braceDepth" (chr "}")).
Local Abbreviation brace_loop :=
  (alts [nested; alts [lone_dollar; no_dollar_no_brace; escaped_dollar]; closing]).

Lemma unescaped_then_inv r s s' :
  Matches (Seq unescapedToken r) Fwd s s' ->
  exists s1, pos s1 = pos s /\ Matches r Fwd s1 s'.
Proof.
  intros H. inv H.
  match goal with H : Matches unescapedToken _ _ _ |- _ =>
    unfold unescapedToken, Lookbehind in H; inv H end.
  eexists. split; [|eassumption]. reflexivity.
Qed.

Lemma nested_needs_dollar s k :
  input !! pos s <> Some DOLLAR -> run nested Fwd s k = None.
Proof.
  intros Hx. apply run_None. intros s' H. inv H.
  match goal with H : Matches _ Fwd _ _ |- _ =>
    cbn [cat lit] in H; apply unescaped_then_inv in H as (s1 & Hp & Hm) end.
  repeat match goal with H : Matches (Seq _ _) Fwd _ _ |- _ => inv H end.
  repeat match goal with H : Matches (chr _) Fwd _ _ |- _ => inv H end.
  repeat match goal with H : cset_mem _ (Among [_]) = true |- _ =>
    apply cset_single in H end.
  subst. rewrite Hp in *. apply Hx. assumption.
Qed.

Lemma lone_dollar_needs_dollar s k :
  input !! pos s <> Some DOLLAR -> run lone_dollar Fwd s k = None.
Proof.
  intros Hx. apply run_None. intros s' H.
  cbn [cat] in H. apply unescaped_then_inv in H as (s1 & Hp & H).
  inv H.
  match goal with H : Matches chDollar Fwd _ _ |- _ => inv H end.
  match goal with H : cset_mem _ (Among [_]) = true |- _ => apply cset_single in H end.
  subst. rewrite Hp in *. apply Hx. assumption.
Qed.

Lemma escaped_dollar_needs_dollar s k :
  input !! S (pos s) <> Some DOLLAR -> run escaped_dollar Fwd s k = None.
Proof.
  intros Hx. apply run_None. intros s' H.
  cbn [cat] in H. apply unescaped_then_inv in H as (s1 & Hp & H).
  inv H.
  match goal with H : Matches chBSL Fwd _ _ |- _ => inv H end.
  match goal with H : Matches chDollar Fwd _ _ |- _ => inv H end.
  repeat match goal with H : cset_mem _ (Among [_]) = true |- _ =>
    apply cset_single in H end.
  subst. cbn [pos at_pos] in *. rewrite Hp in *. apply Hx. assumption.
Qed.

(** One turn of the loop of the braced reference over a character that is
    neither a dollar sign nor a closing brace, and is not followed by a
    dollar sign: the character is read. *)
Lemma brace_loop_reads s k x :
  input !! pos s = Some x -> x <> DOLLAR -> x <> rn "}" ->
  input !! S (pos s) <> Some DOLLAR ->
  run brace_loop Fwd s k = k (at_pos (S (pos s)) s).
Proof.
  intros Hx Hd Hb Hnext. cbn [alts].
  rewrite run_alt, nested_needs_dollar by congruence.
  rewrite run_alt, run_alt, lone_dollar_needs_dollar by congruence.
  rewrite run_alt, run_chr_fwd, Hx.
  replace (cset_mem x (Except [one "$"; one "}"])) with true.
  - destruct (k (at_pos (S (pos s)) s)); [reflexivity|].
    rewrite escaped_dollar_needs_dollar by assumption.
    simpl. unfold step. rewrite Hx.
    destruct ((rn "}" <=? x) && (x <=? rn "}")) eqn:E; [|reflexivity].
    apply andb_true_iff in E. rewrite !Z.leb_le in E. lia.
  - symmetry. unfold cset_mem, in_ranges, existsb, one, fst, snd.
    change (rn "$") with DOLLAR.
    apply negb_true_iff. rewrite orb_false_r.
    apply orb_false_iff. split; apply andb_false_iff; rewrite !Z.leb_gt; lia.
Qed.

Lemma escaped_dollar_needs_backslash s k :
  input !! pos s <> Some BSL -> run escaped_dollar Fwd s k = None.
Proof.
  intros Hx. apply run_None. intros s' H.
  cbn [cat] in H. apply unescaped_then_inv in H as (s1 & Hp & H).
  inv H.
  match goal with H : Matches chBSL Fwd _ _ |- _ => inv H end.
  match goal with H : cset_mem _ (Among [_]) = true |- _ => apply cset_single in H end.
  subst. rewrite Hp in *. apply Hx. assumption.
Qed.

Lemma pop_None name cs : last_capture name cs = None -> pop name cs = None.
Proof.
  induction cs as [|[n c] cs IH]; simpl; [reflexivity|].
  destruct (String.eqb n name); [discriminate|].
  intros H. rewrite (IH H). reflexivity.
Qed.

(** At the closing brace of the outermost reference the loop stops. *)
Lemma brace_loop_stops s k :
  input !! pos s = Some (rn "}") -> last_capture "braceDepth" (caps s) = None ->
  run brace_loop Fwd s k = None.
Proof.
  intros Hx Hcaps. cbn [alts].
  rewrite run_alt, nested_needs_dollar by (rewrite Hx; discriminate).
  rewrite run_alt, run_alt, lone_dollar_needs_dollar by (rewrite Hx; discriminate).
  rewrite run_alt, run_chr_fwd, Hx.
  change (cset_mem (rn "}") (Except [one "$"; one "}"])) with false.
  rewrite escaped_dollar_needs_backslash by (rewrite Hx; discriminate).
  simpl. unfold step. rewrite Hx.
  change (cset_mem (rn "}") (Among [one "}"])) with true. cbn [caps at_pos].
  rewrite (pop_None _ _ Hcaps). reflexivity.
Qed.

(** The end of the braced reference: no nested reference is open, and a
    closing brace follows. *)
Local Abbreviation brace_end := (Seq (IfGroup "braceDepth" Never Empty) (chr "}")).

Lemma brace_end_run s k :
  last_capture "braceDepth" (caps s) = None ->
  run brace_end Fwd s k =
  match input !! pos s with
  | Some x => if bool_decide (x = rn "}") then k (at_pos (S (pos s)) s) else None
  | None => None
  end.
Proof.
  intros Hcaps. simpl. rewrite Hcaps. unfold step.
  destruct (input !! pos s) as [x|]; [|reflexivity].
  change (rn "}") with 125.
  case_bool_decide as Hx.
  - subst. reflexivity.
  - destruct ((125 <=? x) && (x <=? 125)) eqn:E; [|reflexivity].
    apply andb_true_iff in E. rewrite !Z.leb_le in E. lia.
Qed.

(** Over characters that are neither dollar signs nor closing braces, up
    to a closing brace, the loop of the braced reference reads them all
    and the reference ends at that brace. *)
Lemma brace_loop_plain k : forall m n s,
  (m <= n)%nat ->
  (forall i, (i < m)%nat ->
     exists x, input !! (pos s + i)%nat = Some x /\ x <> DOLLAR /\ x <> rn "}") ->
  input !! (pos s + m)%nat = Some (rn "}") ->
  last_capture "braceDepth" (caps s) = None ->
  star_loop (run brace_loop Fwd) Greedy (fun s' => run brace_end Fwd s' k) n s
  = k (at_pos (S (pos s + m)) s).
Proof.
  induction m as [|m IH]; intros n s Hn Hall Hend Hcaps.
  - rewrite Nat.add_0_r in *.
    assert (HK : run brace_end Fwd s k = k (at_pos (S (pos s)) s)).
    { rewrite brace_end_run, Hend by assumption.
      rewrite bool_decide_eq_true_2 by reflexivity. reflexivity. }
    destruct n as [|n]; [exact HK|].
    rewrite star_loop_greedy_S, brace_loop_stops by assumption. exact HK.
  - destruct n as [|n]; [lia|].
    destruct (Hall O) as (x & Hx & Hxd & Hxb); [lia|]. rewrite Nat.add_0_r in Hx.
    assert (Hnext : input !! S (pos s) <> Some DOLLAR).
    { replace (S (pos s)) with (pos s + 1)%nat by lia.
      destruct m as [|m]; [rewrite Hend; discriminate|].
      destruct (Hall 1%nat) as (y & Hy & Hyd & _); [lia|].
      rewrite Hy. congruence. }
    rewrite star_loop_greedy_S, (brace_loop_reads _ _ x) by assumption.
    cbn [pos at_pos].
    replace (S (pos s) =? pos s)%nat with false by (symmetry; apply Nat.eqb_neq; lia).
    rewrite (IH n (at_pos (S (pos s)) s)); [|lia| | |assumption].
    + cbn [pos at_pos caps].
      replace (S (S (pos s) + m)) with (S (pos s + S m)) by lia.
      unfold at_pos. cbn [caps].
      destruct (k _) eqn:E; [reflexivity|].
      rewrite brace_end_run, Hx by assumption.
      rewrite bool_decide_eq_false_2 by assumption. reflexivity.
    + intros i Hi. cbn [pos at_pos].
      replace (S (pos s) + i)%nat with (pos s + S i)%nat by lia. apply Hall. lia.
    + cbn [pos at_pos].
      replace (S (pos s) + m)%nat with (pos s + S m)%nat by lia. exact Hend.
Qed.

End GreedyLoops.

Lemma unescaped_at_start input cs k :
  run false input unescapedToken Fwd {| pos := 0; caps := cs |} k
  = k {| pos := 0; caps := cs |}.
Proof. reflexivity. Qed.

Lemma plain_inv d i x :
  plain d = true -> d !! i = Some x -> x <> NL /\ x <> DOLLAR /\ x <> rn "}".
Proof.
  unfold plain. rewrite forallb_forall. intros H Hx.
  specialize (H x (proj1 (list_elem_of_In _ _) (list_elem_of_lookup_2 _ _ _ Hx))).
  apply negb_true_iff, bool_decide_eq_false in H.
  rewrite !elem_of_cons, elem_of_nil in H. tauto.
Qed.

Lemma plain_no_line_feed d : plain d = true -> NL ∉ d.
Proof.
  intros H Hin. apply list_elem_of_lookup in Hin as (i & Hi).
  destruct (plain_inv _ _ _ H Hi) as (Hn & _). apply Hn. reflexivity.
Qed.

Section PlainReference.

Variables name op d : text.
Hypothesis name_ok : is_name name = true.
Hypothesis op_ok : op ∈ operators.
Hypothesis d_ok : plain d = true.

Local Abbreviation ref := (reference name op d).
Local Abbreviation run := (run false ref).

Lemma after_name_plain i :
  (i < length op + length d)%nat ->
  exists x, ref !! (2 + length name + i)%nat = Some x /\ x <> DOLLAR /\ x <> rn "}".
Proof.
  intros Hi. rewrite reference_lookup.
  destruct (operators_inv _ op_ok) as (o & Ho & Hop).
  repeat (case_decide; try lia).
  - destruct (lookup_lt_is_Some_2 op (2 + length name + i - (2 + length name))%nat)
      as [x Hx]; [lia|].
    exists x. split; [exact Hx|].
    apply list_elem_of_lookup_2 in Hx. unfold DOLLAR. change (rn "}") with 125.
    destruct Hop as [-> | ->]; rewrite ?elem_of_cons, elem_of_nil in Hx; lia.
  - destruct (lookup_lt_is_Some_2 d
                (2 + length name + i - (2 + length name + length op))%nat)
      as [x Hx]; [lia|].
    exists x. split; [exact Hx|]. eapply plain_inv; eauto.
Qed.

(** The finder takes the whole reference, as a braced reference to
    [name]. *)
Lemma finder_on_plain_reference :
  FindRunesMatch paramFinderRegex ref =
  Some {| Index := 0; Length := length ref;
          Groups := [("braced"%string, (2, 2 + length name)%nat)] |}.
Proof.
  destruct (is_name_inv _ name_ok) as (c & rest & Hn & Hc & Hrest).
  assert (H0 : ref !! 0%nat = Some DOLLAR) by reflexivity.
  assert (H1 : ref !! 1%nat = Some (rn "{")) by reflexivity.
  assert (H2 : ref !! 2%nat = Some c).
  { rewrite reference_lookup. rewrite Hn. reflexivity. }
  assert (Hrun : run paramFinderPattern Fwd {| pos := 0; caps := [] |} Some
                 = Some {| pos := length ref;
                           caps := [("braced"%string, (2, 2 + length name)%nat)] |}).
  { unfold paramFinderPattern. rewrite run_alt.
    rewrite run_None.
    2:{ intros s' H. cbn [cat] in H. apply unescaped_then_inv in H as (s1 & Hp & H).
        simpl in Hp. inv H.
        match goal with H : Matches _ _ chDollar Fwd _ _ |- _ => inv H end.
        match goal with H : Matches _ _ (Group _ _) Fwd _ _ |- _ => inv H end.
        match goal with H : Matches _ _ paramName Fwd _ _ |- _ => inv H end.
        match goal with H : Matches _ _ (Chr _) Fwd _ _ |- _ => inv H end.
        cbn [pos at_pos] in *.
        match goal with H : _ !! S (pos s1) = Some ?x |- _ =>
          rewrite Hp, H1 in H; inv H end. }
    unfold bracedParam. cbn [cat lit].
    rewrite !run_seq_fwd, unescaped_at_start.
    rewrite !run_seq_fwd.
    unfold chr.
    rewrite run_chr_fwd. cbn [pos at_pos]. rewrite H0.
    change (cset_mem DOLLAR (Among [one "$"])) with true. cbn iota.
    rewrite run_chr_fwd. cbn [pos at_pos]. rewrite H1.
    change (cset_mem (rn "{") (Among [one "{"])) with true. cbn iota.
    rewrite run_group. unfold paramName. rewrite run_seq_fwd, run_chr_fwd.
    cbn [pos at_pos]. rewrite H2.
    replace (cset_mem c (Among [rng "A" "Z"; rng "a" "z"; one "_"])) with true
      by (symmetry; exact Hc).
    rewrite run_star.
    apply star_class_greedy with (j := length rest).
    - rewrite reference_length, Hn. cbn [length]. lia.
    - intros i Hi. cbn [pos at_pos].
      destruct (lookup_lt_is_Some_2 rest i Hi) as [x Hx].
      exists x. split; [|eapply Hrest; eauto].
      rewrite reference_lookup, Hn. cbn [length].
      repeat (case_decide; try lia).
      replace (3 + i - 2)%nat with (S i) by lia. exact Hx.
    - intros x Hx. cbn [pos at_pos] in Hx.
      apply (after_name_no_name_char name op d op_ok).
      rewrite <- Hx. f_equal. rewrite Hn. simpl. lia.
    - cbn beta. rewrite run_seq_fwd, run_star.
      etransitivity.
      + apply brace_loop_plain with (m := (length op + length d)%nat).
        * rewrite reference_length. lia.
        * intros i Hi. cbn [pos at_pos push].
          replace (3 + length rest + i)%nat with (2 + length name + i)%nat
            by (rewrite Hn; simpl; lia).
          apply after_name_plain. exact Hi.
        * cbn [pos at_pos push]. rewrite reference_lookup.
          rewrite Hn. cbn [length].
          repeat (case_decide; try lia).
          match goal with |- _ !! ?n = _ => replace n with O by lia end.
          reflexivity.
        * reflexivity.
      + cbn [pos at_pos push caps]. unfold at_pos. cbn [caps].
        rewrite reference_length, Hn. cbn [length].
        unfold push. cbn [caps].
        rewrite Nat.min_l, Nat.max_r by lia.
        repeat f_equal; lia. }
  unfold FindRunesMatch, find_from.
  cbn [pattern Multiline paramFinderRegex].
  assert (Hm : match_at false ref paramFinderPattern 0 =
               Some {| Index := 0; Length := length ref;
                       Groups := [("braced"%string, (2, 2 + length name)%nat)] |}).
  { unfold match_at. rewrite Hrun. cbn [pos caps]. rewrite Nat.sub_0_r. reflexivity. }
  destruct (length ref - 0)%nat; simpl; rewrite Hm; reflexivity.
Qed.

End PlainReference.

(** No reference starts where there is no dollar sign. *)
Lemma finder_needs_dollar input p :
  input !! p <> Some DOLLAR -> match_at false input paramFinderPattern p = None.
Proof.
  intros Hp. unfold match_at. rewrite run_None; [reflexivity|].
  intros s' H. unfold paramFinderPattern, bracedParam in H. cbn [cat lit] in H.
  inv H.
  - match goal with H : Matches _ _ _ Fwd _ _ |- _ =>
      apply unescaped_then_inv in H as (s1 & Hs1 & H); inv H end.
    match goal with H : Matches _ _ chDollar Fwd _ _ |- _ => inv H end.
    match goal with H : cset_mem _ _ = true |- _ => apply cset_single in H; subst end.
    simpl in Hs1. rewrite Hs1 in *. contradiction.
  - match goal with H : Matches _ _ (Seq (Seq unescapedToken _) _) Fwd _ _ |- _ =>
      inv H end.
    match goal with H : Matches _ _ (Seq unescapedToken _) Fwd _ _ |- _ =>
      apply unescaped_then_inv in H as (sa & Hsa & Hm) end.
    match goal with H : Matches _ _ (Seq (Star _ _) _) Fwd _ _ |- _ => clear H end.
    repeat match goal with H : Matches _ _ (Seq _ _) Fwd _ _ |- _ => inv H end.
    repeat match goal with H : Matches _ _ (chr _) Fwd _ _ |- _ => inv H end.
    repeat match goal with H : cset_mem _ (Among [_]) = true |- _ =>
      apply cset_single in H; subst end.
    simpl in Hsa. rewrite Hsa in *. contradiction.
Qed.

(** A text without a dollar sign is left as it is. *)
Lemma parseEmbeddedParams_plain env d :
  plain d = true -> parseEmbeddedParams env d = Ok d.
Proof.
  intros Hd.
  unfold parseEmbeddedParams, parseEmbeddedParams_with, ReplaceFunc, FindAll, all_matches.
  cbn [pattern Multiline paramFinderRegex matches_from].
  unfold find_from. rewrite scan_None; [reflexivity|].
  intros i _. apply finder_needs_dollar.
  intros Hx. apply (plain_inv _ _ _ Hd) in Hx. tauto.
Qed.

(** A reference with one of the six operators and a plain default
    expression resolves as the table of the operators says, with the
    default expression taken as it is written. *)
Lemma plain_reference_follows_operator env name op d :
  is_name name = true -> op ∈ operators -> plain d = true ->
  parseParam env (reference name op d) = by_operator env name op d
  /\ parseEmbeddedParams env d = Ok d.
Proof.
  intros Hname Hop Hd. split; [|apply parseEmbeddedParams_plain; exact Hd].
  eapply reference_follows_operator; eauto using plain_no_line_feed.
  - apply finder_on_plain_reference; assumption.
  - reflexivity.
  - reflexivity.
  - reflexivity.
  - reflexivity.
Qed.

(** On one line, a required reference whose variable is absent fails with
    its message. *)
Lemma required_plain_reference_fails env name d :
  is_name name = true -> plain d = true ->
  (env !! name = None ->
   parseParam env (reference name (str "?") d) = Panic d
   /\ parseParam env (reference name (str ":?") d) = Panic d)
  /\ (env !! name = Some [] ->
      parseParam env (reference name (str ":?") d) = Panic d).
Proof.
  intros Hname Hd.
  assert (Hq : str "?" ∈ operators) by (unfold operators; rewrite !elem_of_cons; tauto).
  assert (Hcq : str ":?" ∈ operators) by (unfold operators; rewrite !elem_of_cons; tauto).
  destruct (plain_reference_follows_operator env name _ d Hname Hq Hd) as [E1 Ed].
  destruct (plain_reference_follows_operator env name _ d Hname Hcq Hd) as [E2 _].
  rewrite E1, E2. unfold by_operator, LookupEnv. rewrite Ed.
  split; [intros ->; split; reflexivity | intros ->; reflexivity].
Qed.

(** ** The value map *)

Lemma distinct_ext l : forall seen1 seen2,
  (forall x, x ∈ seen1 <-> x ∈ seen2) -> distinct seen1 l = distinct seen2 l.
Proof.
  induction l as [|x l IH]; intros seen1 seen2 H; simpl; [reflexivity|].
  rewrite (bool_decide_ext _ _ (H x)).
  case_bool_decide; [apply IH; exact H|].
  f_equal. apply IH. intros y. rewrite !elem_of_cons, H. reflexivity.
Qed.

Lemma distinct_spec l : forall seen,
  NoDup (distinct seen l)
  /\ forall x, x ∈ distinct seen l <-> x ∈ l /\ x ∉ seen.
Proof.
  induction l as [|x l IH]; intros seen; simpl.
  - split; [constructor|]. intros y. rewrite elem_of_nil. tauto.
  - case_bool_decide as Hx.
    + destruct (IH seen) as [Hnd Hiff]. split; [exact Hnd|].
      intros y. rewrite Hiff, elem_of_cons. split; [tauto|].
      intros [[-> | ?] ?]; tauto.
    + destruct (IH (x :: seen)) as [Hnd Hiff]. split.
      * constructor; [|exact Hnd]. rewrite Hiff, elem_of_cons. tauto.
      * intros y. rewrite !elem_of_cons, Hiff, elem_of_cons. split.
        -- intros [-> | [? ?]]; tauto.
        -- intros [[-> | ?] ?]; [tauto|].
           destruct (decide (y = x)); tauto.
Qed.

Section ValueMapFacts.

Context {St : Type}.
Variable parser : text -> M St text.

Lemma mapParamValues_loop_calls params : forall values seen st calls0,
  (forall id, is_Some (values !! id) <-> id ∈ seen) ->
  exists new,
    snd (snd (mapParamValues_loop params (logged parser) values (st, calls0)))
      = calls0 ++ new
    /\ match fst (mapParamValues_loop params (logged parser) values (st, calls0)) with
       | Ok values' =>
           map fst new = distinct seen (map Id params)
           /\ (forall id o, (id, o) ∈ new -> exists v, o = Ok v)
           /\ forall id v, values' !! id = Some v <->
                           values !! id = Some v \/ (id, Ok v) ∈ new
       | _ => exists rest, distinct seen (map Id params) = map fst new ++ rest
       end.
Proof.
  induction params as [|param params IH]; intros values seen st calls0 Hseen; simpl.
  - exists []. rewrite app_nil_r. split; [reflexivity|]. split; [reflexivity|].
    split; [intros id o Hin; by apply elem_of_nil in Hin|].
    intros id v. rewrite elem_of_nil. tauto.
  - destruct (values !! Id param) as [v0|] eqn:Hv.
    + rewrite bool_decide_true by (apply Hseen; exists v0; exact Hv).
      apply IH. exact Hseen.
    + assert (Hnot : Id param ∉ seen).
      { intros Hin. destruct (proj2 (Hseen _) Hin) as [w Hw]. congruence. }
      rewrite bool_decide_false by exact Hnot.
      assert (Hstep :
        bind (logged parser (Id param))
             (fun v => mapParamValues_loop params (logged parser)
                         (<[Id param := v]> values)) (st, calls0)
        = match parser (Id param) st with
          | (Ok v, st1) =>
              mapParamValues_loop params (logged parser)
                (<[Id param := v]> values) (st1, calls0 ++ [(Id param, Ok v)])
          | (r, st1) => (match r with Ok _ => OutOfFuel | Panic e => Panic e
                                    | OutOfFuel => OutOfFuel end,
                         (st1, calls0 ++ [(Id param, r)]))
          end).
      { unfold bind, logged. simpl.
        destruct (parser (Id param) st) as [[v|e|] st1]; reflexivity. }
      rewrite Hstep. clear Hstep.
      destruct (parser (Id param) st) as [[v|e|] st1] eqn:Hp; simpl.
      * destruct (IH (<[Id param := v]> values) (Id param :: seen) st1
                    (calls0 ++ [(Id param, Ok v)])) as (new & Hcalls & Hres).
        { intros id. rewrite elem_of_cons, <- Hseen.
          destruct (decide (id = Id param)) as [->|Hne].
          - rewrite lookup_insert_eq. split; eauto.
          - rewrite lookup_insert_ne by congruence. split; [tauto|].
            intros [? | ?]; [congruence | assumption]. }
        exists ((Id param, Ok v) :: new). split.
        { rewrite Hcalls, <- app_assoc. reflexivity. }
        destruct (fst (mapParamValues_loop _ _ _ _)) as [values'|e|].
        -- destruct Hres as (Hids & Hoks & Hvals). split; [simpl; f_equal; exact Hids|].
           split.
           { intros id o Hin. apply elem_of_cons in Hin as [Heq | Hin];
               [inv Heq; eauto | eauto]. }
           intros id w. rewrite Hvals, elem_of_cons.
           destruct (decide (id = Id param)) as [->|Hne].
           ++ rewrite lookup_insert_eq, Hv. split.
              ** intros [Heq | ?]; [inv Heq; right; left; reflexivity | tauto].
              ** intros [? | [Heq | ?]]; [discriminate | inv Heq; tauto | tauto].
           ++ rewrite lookup_insert_ne by congruence. split; [tauto|].
              intros [? | [Heq | ?]]; [tauto | inv Heq; congruence | tauto].
        -- destruct Hres as [rest Hrest]. exists rest. simpl. f_equal. exact Hrest.
        -- destruct Hres as [rest Hrest]. exists rest. simpl. f_equal. exact Hrest.
      * exists [(Id param, Panic e)]. split; [reflexivity|].
        eexists. simpl. reflexivity.
      * exists [(Id param, OutOfFuel)]. split; [reflexivity|].
        eexists. simpl. reflexivity.
Qed.

(** Recording the calls changes neither the map nor the state of the
    parser. *)
Lemma logged_transparent params : forall values st calls,
  let logged_run := mapParamValues_loop params (logged parser) values (st, calls) in
  (fst logged_run, fst (snd logged_run))
  = mapParamValues_loop params parser values st.
Proof.
  induction params as [|param params IH]; intros values st calls; simpl; [reflexivity|].
  destruct (values !! Id param); [apply IH|].
  unfold bind, logged. simpl.
  destruct (parser (Id param) st) as [[v|e|] st1]; simpl; try reflexivity.
  apply IH.
Qed.

End ValueMapFacts.

(** ** The compositor *)

Section OutputFacts.

Variable MarshalIndent : list ParamJson -> text.

Lemma bind_assoc_run {St A B} (m : M St A) (f : A -> M St B) st :
  bind m f st =
  match m st with
  | (Ok a, st') => f a st'
  | (Panic e, st') => (Panic e, st')
  | (OutOfFuel, st') => (OutOfFuel, st')
  end.
Proof. reflexivity. Qed.

(** [GetOutput] is its two halves, one after the other. *)
Lemma GetOutput_halves config w :
  GetOutput MarshalIndent config w =
  bind (discover config)
       (fun r => compose MarshalIndent config (fst r) (snd r)) w.
Proof.
  unfold GetOutput, discover, compose.
  rewrite !bind_assoc_run.
  destruct (readToRunes _ _ w) as [[payload| |] w1]; try reflexivity.
  rewrite !bind_assoc_run.
  destruct (ignoreQuotes config).
  - simpl. rewrite !bind_assoc_run.
    destruct (forM_ _ _ w1) as [[[]| |] w2]; try reflexivity.
    rewrite !bind_assoc_run.
    destruct (if (0 <? length (envOverrides config))%nat then _ else _) as [o w3].
    destruct o as [[]| |]; reflexivity.
  - rewrite !bind_assoc_run. unfold lift.
    destruct (tokenizeByQuotes payload) as [segments| |]; try reflexivity.
    simpl. rewrite !bind_assoc_run.
    destruct (forM_ _ _ w1) as [[[]| |] w2]; try reflexivity.
    rewrite !bind_assoc_run.
    destruct (if (0 <? length (envOverrides config))%nat then _ else _) as [o w3].
    destruct o as [[]| |]; reflexivity.
Qed.

Lemma bind_Ok {St A B} (m : M St A) (f : A -> M St B) st b st' :
  bind m f st = (Ok b, st') ->
  exists a st1, m st = (Ok a, st1) /\ f a st1 = (Ok b, st').
Proof.
  rewrite bind_assoc_run. destruct (m st) as [[a| |] st1]; try discriminate. eauto.
Qed.

Lemma quiet_bind {A B} (m : M World A) (f : A -> M World B) :
  quiet m -> (forall a, quiet (f a)) -> quiet (bind m f).
Proof.
  intros Hm Hf w. rewrite bind_assoc_run. specialize (Hm w).
  destruct (m w) as [[a| |] w1]; simpl in *; try exact Hm.
  rewrite Hf. exact Hm.
Qed.

Lemma quiet_ret {A} (a : A) : quiet (ret a).
Proof. intros w. reflexivity. Qed.

Lemma quiet_lift {A} (o : outcome A) : quiet (lift o).
Proof. intros w. reflexivity. Qed.

Lemma quiet_ReadFile path : quiet (ReadFile path).
Proof. intros w. unfold ReadFile. destruct (w_files w !! path); reflexivity. Qed.

Lemma quiet_readToRunes path stdIn : quiet (readToRunes path stdIn).
Proof. destruct stdIn; [intros w; reflexivity | apply quiet_ReadFile]. Qed.

Lemma quiet_Setenv name value : quiet (Setenv name value).
Proof. intros w. unfold Setenv. simpl. case_bool_decide; reflexivity. Qed.

Lemma quiet_setEnv_loop payload ms : quiet (setEnv_loop payload ms).
Proof.
  induction ms as [|m ms IH]; simpl; [apply quiet_ret|].
  apply quiet_bind.
  - intros w. reflexivity.
  - intros value. apply quiet_bind; [apply quiet_Setenv | intros _; exact IH].
Qed.

(** Taking in assignments writes neither files nor output. *)
Lemma quiet_setEnv payload isFile : quiet (setEnv payload isFile).
Proof.
  unfold setEnv. destruct (FindRunesMatch _ payload).
  - apply quiet_setEnv_loop.
  - intros w. reflexivity.
Qed.

Lemma quiet_forM_ {A} (l : list A) (f : A -> M World unit) :
  (forall a, quiet (f a)) -> quiet (forM_ l f).
Proof.
  intros Hf. induction l as [|a l IH]; simpl; [apply quiet_ret|].
  apply quiet_bind; [apply Hf | intros _; exact IH].
Qed.

Lemma quiet_discover config : quiet (discover config).
Proof.
  unfold discover.
  apply quiet_bind; [apply quiet_readToRunes | intros payload].
  apply quiet_bind.
  { destruct (ignoreQuotes config); [apply quiet_ret|].
    apply quiet_bind; [apply quiet_lift | intros; apply quiet_ret]. }
  intros validSlices. apply quiet_bind.
  { apply quiet_forM_. intros path.
    apply quiet_bind; [apply quiet_ReadFile | intros; apply quiet_setEnv]. }
  intros _. apply quiet_bind; [|intros; apply quiet_ret].
  destruct (0 <? length (envOverrides config))%nat;
    [apply quiet_setEnv | apply quiet_ret].
Qed.

(** The first half reads the document it returns and writes nothing. *)
Lemma discover_reads config w payload params w' :
  discover config w = (Ok (payload, params), w') ->
  written w' = written w
  /\ (if readFromStdin config then payload = w_stdin w
      else w_files w !! file config = Some payload).
Proof.
  intros H. split.
  { pose proof (quiet_discover config w) as Hq. rewrite H in Hq. exact Hq. }
  unfold discover in H.
  apply bind_Ok in H as (p & w1 & Hr & H).
  apply bind_Ok in H as (vs & w2 & _ & H).
  apply bind_Ok in H as (? & w3 & _ & H).
  apply bind_Ok in H as (? & w4 & _ & H).
  inv H. unfold readToRunes, ReadFile in Hr.
  destruct (readFromStdin config).
  - inv Hr. reflexivity.
  - destruct (w_files w !! file config); inv Hr. reflexivity.
Qed.

(** Resolving the references writes nothing. *)
Lemma mapParamValues_loop_world params : forall values w,
  snd (mapParamValues_loop params
         (fun id w => (parseParam (w_env w) id, w)) values w) = w.
Proof.
  induction params as [|param params IH]; intros values w; simpl; [reflexivity|].
  destruct (values !! Id param); [apply IH|].
  rewrite bind_assoc_run.
  destruct (parseParam (w_env w) (Id param)); try reflexivity. apply IH.
Qed.

(** A reference that fails to resolve stops the call with its message,
    before anything is written. *)
Lemma GetOutput_aborts config w payload params w' msg :
  list_ config = false ->
  discover config w = (Ok (payload, params), w') ->
  fst (mapperHandler params w') = Panic msg ->
  exists w'', GetOutput MarshalIndent config w = (Panic msg, w'')
              /\ written w'' = written w.
Proof.
  intros Hlist Hd Hm.
  rewrite GetOutput_halves, bind_assoc_run, Hd. simpl.
  apply discover_reads in Hd as [Hw _].
  unfold compose. rewrite Hlist.
  destruct params as [|param params]; [discriminate|].
  change (0 <? length (param :: params))%nat with true. cbv iota.
  rewrite bind_assoc_run.
  unfold mapperHandler, mapParamValues in *.
  pose proof (mapParamValues_loop_world (param :: params) ∅ w') as Hsame.
  destruct (mapParamValues_loop _ _ _ w') as [o w1]. simpl in Hm, Hsame. subst.
  eexists. split; [reflexivity | exact Hw].
Qed.


(** [Validate] leaves no configuration that edits in place what it
    reads from standard input. *)
Lemma Validate_in_place c w c' w' :
  Validate c w = (Ok c', w') ->
  readFromStdin c = false ->
  editInPlace c' = true -> readFromStdin c' = false.
Proof.
  unfold Validate. intros H Hc He.
  destruct (w_files w !! file c).
  - inv H. exact Hc.
  - destruct (w_stdin_pipe w); inv H.
Qed.

End OutputFacts.

(** * The tests of the source, replayed on the model *)

(** TestTokenizeByQuotes *)
Example test_tokenize_escaped_double_quote :
  tokenizeByQuotes (str "oh " ++ [DQ] ++ str "hi\" ++ [DQ] ++ str " to" ++ [DQ] ++ str " 'you'")
  = Ok [mkSegment (0, 3)%nat unQuoted; mkSegment (3, 12)%nat doubleQuoted;
        mkSegment (12, 13)%nat unQuoted; mkSegment (13, 18)%nat singleQuoted].
Proof. vm_compute. reflexivity. Qed.

Example test_tokenize_single_in_double :
  tokenizeByQuotes (str "oh " ++ [DQ] ++ str "'hi'" ++ [DQ] ++ str " to \" ++ [DQ]
                      ++ str "'you\" ++ [DQ])
  = Ok [mkSegment (0, 3)%nat unQuoted; mkSegment (3, 9)%nat doubleQuoted;
        mkSegment (9, 21)%nat unQuoted].
Proof. vm_compute. reflexivity. Qed.

Example test_tokenize_escaped_single_quotes :
  tokenizeByQuotes (str "oh \'hi\' to you") = Ok [mkSegment (0, 16)%nat unQuoted].
Proof. vm_compute. reflexivity. Qed.

Example test_tokenize_unmatched_tail :
  tokenizeByQuotes (str "'hello " ++ [DQ] ++ str "${TO:-y'ou}'")
  = Ok [mkSegment (0, 16)%nat singleQuoted; mkSegment (16, 20)%nat unQuoted].
Proof. vm_compute. reflexivity. Qed.

Example test_tokenize_backslash_pairs :
  tokenizeByQuotes ([DQ] ++ str "oh" ++ [DQ] ++ str " \\" ++ [DQ] ++ str "hi\\" ++ [DQ]
                      ++ str " \\'to\\' \\\'you\\\'")
  = Ok [mkSegment (0, 4)%nat doubleQuoted; mkSegment (4, 7)%nat unQuoted;
        mkSegment (7, 13)%nat doubleQuoted; mkSegment (13, 16)%nat unQuoted;
        mkSegment (16, 22)%nat singleQuoted; mkSegment (22, 34)%nat unQuoted].
Proof. vm_compute. reflexivity. Qed.

(** TestFindParamsWithQuotesInParams, TestFindParamsWithEnclosingQuotesInParams *)
Example test_find_quotes_in_param :
  found_in (str "foo${BAR:-'baz'}foo") = Ok [mkParam (str "${BAR:-'baz'}") (3, 16)%nat].
Proof. vm_compute. reflexivity. Qed.

Example test_find_enclosing_quotes :
  found_in (str "'foo${BAR:-'baz'}foo'") = Ok [].
Proof. vm_compute. reflexivity. Qed.

(** TestFindNestedParam *)
Example test_find_nested :
  found_in (str "12${FOO:+${BAR:-${FOO-${BAZ%stahp}}}}34")
  = Ok [mkParam (str "${FOO:+${BAR:-${FOO-${BAZ%stahp}}}}") (2, 37)%nat].
Proof. vm_compute. reflexivity. Qed.

(** TestFindParamsWithEscapedDollar; 246 is the letter o with diaeresis. *)
Example test_find_escaped_dollar :
  found_in ([246] ++ str "\$BAR" ++ [246; 246] ++ str "${FOO:+\${BAZ}}" ++ [246]
              ++ str "\${FOO:-$BAR}" ++ [246] ++ str "${FOO:+\$BAZ}")
  = Ok [mkParam (str "${FOO:+\${BAZ}") (8, 22)%nat;
        mkParam (str "$BAR") (32, 36)%nat;
        mkParam (str "${FOO:+\$BAZ}") (38, 51)%nat].
Proof. vm_compute. reflexivity. Qed.

(** TestFindParamsInOnlyParams *)
Example test_find_only_params :
  fmap (map ParamPosition) (Some (findParams
    (str "$FOO${FOO}${FOO-foo}${FOO:-foo}${FOO+foo}${FOO:+foo}${FOO?foo}${FOO:?foo}${FOO#foo}${FOO##foo}${FOO%foo}$FOO${FOO%%foo}$F${FOO:-$BAR${BAR}$BAR}")
    [(0, 143)%nat]))
  = Some [(0, 4); (4, 10); (10, 20); (20, 31); (31, 41); (41, 52); (52, 62); (62, 73);
          (73, 83); (83, 94); (94, 104); (104, 108); (108, 119); (119, 121);
          (121, 143)]%nat.
Proof. vm_compute. reflexivity. Qed.

(** TestGetValidSlices, TestFindParams and TestMapParamValues, on the
    document of the tests. *)
Example test_lorem_valid_slices :
  length loremQuotes = 561%nat
  /\ match tokenizeByQuotes loremQuotes with
     | Ok segments => getValidSlices segments = [(0, 151); (176, 561)]%nat
     | _ => False
     end.
Proof. split; vm_compute; reflexivity. Qed.

Example test_lorem_params :
  found_in loremQuotes
  = Ok [mkParam (str "${BAZ:-$BAR}") (64, 76)%nat;
        mkParam (str "${Q}") (215, 219)%nat;
        mkParam (str "${Q}") (267, 271)%nat;
        mkParam (str "${BAR}") (309, 315)%nat;
        mkParam (str "${BAZ:-${BAR}}") (377, 391)%nat;
        mkParam (str "${FOO:+ipsum}") (393, 406)%nat;
        mkParam (str "$FOO") (473, 477)%nat;
        mkParam (str "${Q}") (518, 522)%nat].
Proof. vm_compute. reflexivity. Qed.

Example test_lorem_values :
  let env : Env :=
    <[str "Q" := str "quis"]> (<[str "FOO" := str "iaculis"]>
      (<[str "BAR" := str "fringilla"]> ∅)) in
  match found_in loremQuotes with
  | Ok params =>
      fst (mapperHandler params (with_env (fun _ => env) no_world))
      = Ok (<[str "${BAZ:-$BAR}" := str "fringilla"]>
           (<[str "${Q}" := str "quis"]>
           (<[str "${BAR}" := str "fringilla"]>
           (<[str "${BAZ:-${BAR}}" := str "fringilla"]>
           (<[str "${FOO:+ipsum}" := str "ipsum"]>
           (<[str "$FOO" := str "iaculis"]> ∅))))))
  | _ => False
  end.
Proof. vm_compute. reflexivity. Qed.

(** TestEscapeHandler *)
Example test_escape_unknown_sequences :
  escapeHandler (str "foo\c\e\" ++ [DQ] ++ str "\'bar")
  = str "foo\c\e\" ++ [DQ] ++ str "\'bar".
Proof. vm_compute. reflexivity. Qed.

Example test_escape_tab :
  escapeHandler (str "\t") = [9] /\ escapeHandler (str "\\t") = str "\t"
  /\ escapeHandler (str "\\\t") = [BSL; 9] /\ escapeHandler (str "\\\\t") = str "\\t".
Proof. repeat split; vm_compute; reflexivity. Qed.

Example test_escape_numeric :
  escapeHandler ([246] ++ str "|\xf|\xf61|\u00F60|\u0F6|\U00000f6|\U000000f60|\123" ++ [246])
  = [246] ++ str "|\xf|" ++ [246] ++ str "1|" ++ [246] ++ str "0|\u0F6|\U00000f6|"
      ++ [246] ++ str "0|S" ++ [246].
Proof. vm_compute. reflexivity. Qed.

(** TestQuoteHandler *)
Example test_quote_handler_escaped_single :
  quoteHandler ([DQ] ++ str "\'" ++ [DQ]) unQuoted = Ok [SQ]
  /\ quoteHandler ([DQ] ++ str "\'" ++ [DQ]) singleQuoted
     = Panic (str "unmatched quote " ++ [DQ] ++ str " in: '" ++ [DQ] ++ str "\'" ++ [DQ] ++ str "'")
  /\ quoteHandler ([DQ] ++ str "\'" ++ [DQ]) doubleQuoted = Ok [SQ].
Proof. repeat split; vm_compute; reflexivity. Qed.

Example test_quote_handler_mixed :
  let value := str "oh " ++ [DQ] ++ str "hi" ++ [DQ] ++ str " to 'you'" in
  quoteHandler value unQuoted = Ok (str "oh hi to you")
  /\ quoteHandler value singleQuoted = Ok (str "oh " ++ [DQ] ++ str "hi" ++ [DQ] ++ str " to you")
  /\ quoteHandler value doubleQuoted = Ok (str "oh hi to 'you'").
Proof. repeat split; vm_compute; reflexivity. Qed.

(** TestQuoteHandlerWithEscapes *)
Example test_quote_handler_hex_across_quotes :
  quoteHandler (str "\x''f6") unQuoted = Ok (str "xf6")
  /\ quoteHandler (str "\x''f6") singleQuoted = Ok [246]
  /\ quoteHandler (str "\x''f6") doubleQuoted = Ok (str "\x''f6").
Proof. repeat split; vm_compute; reflexivity. Qed.

(** TestEscapeLiteralDollars *)
Example test_escape_literal_dollars :
  escapeLiteralDollars (str "\$foo$bar$$") unQuoted = Ok (str "\$foo$bar$$")
  /\ escapeLiteralDollars (str "'\$foo$bar$$'") unQuoted = Ok (str "'\$foo\$bar\$\$'")
  /\ escapeLiteralDollars (str "'\$foo$bar$$'") doubleQuoted = Ok (str "'\$foo$bar$$'")
  /\ escapeLiteralDollars (str "\$foo'$bar$'$") singleQuoted = Ok (str "\$foo'$bar$'\$").
Proof. repeat split; vm_compute; reflexivity. Qed.

(** TestParseParamWithDefaults, TestParseParamWithCompositeDefaults *)
Example test_parse_nested :
  parseParam table_env (str "${FOO:+${BAR-bar}}") = Ok (str "bar")
  /\ parseParam table_env (str "${FOO+${BAR-${BAZ?baz}}}") = Ok []
  /\ parseParam table_env (str "${FOO+${BAR-${BAZ:?baz}}}") = Panic (str "baz")
  /\ parseParam table_env (str "${FOO:+${BAR-${FOO}bar}}") = Ok (str "foobar")
  /\ parseParam table_env (str "${FOO:+${BAR-bar$FOO}}") = Ok (str "barfoo").
Proof. repeat split; vm_compute; reflexivity. Qed.

(** TestParseParamWithQuotes *)
Example test_parser_handler_quotes :
  let env : Env := <[str "BAZ" := str "baz"]> ∅ in
  parserHandler env (str "${BAR-\'$BAZ\'}") unQuoted = Ok (str "'baz'")
  /\ parserHandler env (str "${BAR-'$BAZ'}") unQuoted = Ok (str "$BAZ")
  /\ parserHandler env (str "${BAR-\\'$BAZ\\'}") unQuoted = Ok (str "\$BAZ\")
  /\ parserHandler env (str "foo${BAR-\'$BAZ\'}") unQuoted = Ok (str "foo'baz'")
  /\ parserHandler env ([DQ] ++ str "$BAZ" ++ [DQ]) unQuoted = Ok (str "baz").
Proof. repeat split; vm_compute; reflexivity. Qed.

(** TestSetEnv *)
Example test_set_env_batch :
  let w := with_env (insert (str "FOO") (str "bar")) no_world in
  setEnv (str "FOO=baz" ++ [NL] ++ str "BAR=${FOO:+$BAZ}" ++ [NL]
            ++ str "BAZ=${BAR:-${FOO:+bar}}") false w
  = (Ok tt,
     with_env (fun _ => <[str "BAZ" := str "bar"]>
                          (<[str "BAR" := []]> (<[str "FOO" := str "baz"]> ∅))) w).
Proof. vm_compute. reflexivity. Qed.

Example test_set_env_failures :
  fst (setEnv (str "FOOBAR=${UNSET:?bar}") false no_world) = Panic (str "bar")
  /\ fst (setEnv (str "$INVALID=foo") false no_world)
     = Panic (str "Invalid env assignment syntax")
  /\ fst (setEnv (str "INVALID = foo") false no_world)
     = Panic (str "Invalid env assignment syntax")
  /\ fst (setEnv [] true no_world) = Panic (str "Invalid env assignment syntax").
Proof. repeat split; vm_compute; reflexivity. Qed.

(** TestOutputIgnoreQuotes *)
Example test_output_ignore_quotes :
  let w := mkWorld (<[str "FOO" := str "bar"]> ∅)
                   (<[str "in" := str "Lorem '$FOO' ipsum"]> ∅) [] false [] in
  w_stdout (snd (GetOutput (fun _ => [])
                   (mkConfig (str "in") false false false false [] [] [] false) w))
  = str "Lorem '$FOO' ipsum"
  /\ w_stdout (snd (GetOutput (fun _ => [])
                      (mkConfig (str "in") false false false true [] [] [] false) w))
     = str "Lorem 'bar' ipsum".
Proof. repeat split; vm_compute; reflexivity. Qed.

(** TestOutputWithEnvFilesAndOverrides, with the file of assignments of
    the test left out; 214 and 246 are the letters O and o with
    diaeresis. *)
Example test_output_overrides :
  let doc := [214] ++ str ", ${BAR+" ++ [246] ++ str ",} $FOO " ++ [246] ++ str ", ${Q}" in
  let w := mkWorld ∅ (<[str "in" := doc]> ∅) [] false [] in
  w_stdout (snd (GetOutput (fun _ => [])
                   (mkConfig (str "in") false false false false
                             [str "BAR=x"; str "FOO=H" ++ [246];
                              str "Q=${BAZ:-H" ++ [246; 45; 246] ++ str "ns M" ++ [246; 125]]
                             [] [] false) w))
  = [214] ++ str ", " ++ [246] ++ str ", H" ++ [246; 32; 246] ++ str ", H"
      ++ [246; 45; 246] ++ str "ns M" ++ [246].
Proof. vm_compute. reflexivity. Qed.

(** * The claims *)

(** C1.  With FOO set to foo, BAZ set to the empty string and BAR unset,
    the eight references of the operator table resolve to foo, bar, the
    empty string, bar, the empty string, bar, a failure with message bar,
    and the empty string. *)
Theorem operator_truth_table :
  table_env !! str "BAR" = None
  /\ parseParam table_env (str "${FOO:-bar}") = Ok (str "foo")
  /\ parseParam table_env (str "${BAZ:-bar}") = Ok (str "bar")
  /\ parseParam table_env (str "${BAZ-bar}") = Ok []
  /\ parseParam table_env (str "${FOO:+bar}") = Ok (str "bar")
  /\ parseParam table_env (str "${BAR:+bar}") = Ok []
  /\ parseParam table_env (str "${BAZ+bar}") = Ok (str "bar")
  /\ parseParam table_env (str "${BAR:?bar}") = Panic (str "bar")
  /\ parseParam table_env (str "${BAZ?bar}") = Ok [].
Proof. repeat split; vm_compute; reflexivity. Qed.

(** C2, at the input where the code departs from it.  The finder takes
    the two-line reference as one reference and BAR is unset, yet the
    parser pattern does not match it, resolving it returns the empty
    string instead of failing, and the expansion of a document that holds
    it succeeds and prints the document without the reference; the same
    reference on one line fails with its message. *)
Theorem required_reference_over_two_lines :
  MatchesToIndices paramFinderRegex two_line_required = [(0, 11)%nat]
  /\ FindRunesMatch paramParserRegex two_line_required = None
  /\ parseParam ∅ two_line_required = Ok []
  /\ parseParam ∅ (str "${BAR:?ab}") = Panic (str "ab")
  /\ GetOutput (fun _ => []) two_line_config two_line_world
     = (Ok tt, with_stdout (fun _ => str "<>") two_line_world).
Proof. repeat split; vm_compute; reflexivity. Qed.

(** C3.  Building the value map calls the resolver once for each distinct
    reference text, in the order of first occurrence, and the map holds,
    for every reference text, the value that one call returned; a call
    that fails ends the building with the calls made so far. *)
Theorem resolver_called_once_per_reference
        {St : Type} (parser : text -> M St text) (params : list Param)
        (st st' : St) (r : outcome AssocArray) (calls : list (text * outcome text)) :
  mapParamValues params (logged parser) (st, []) = (r, (st', calls)) ->
  NoDup (map fst calls)
  /\ (exists rest, distinct [] (map Id params) = map fst calls ++ rest)
  /\ forall values, r = Ok values ->
       map fst calls = distinct [] (map Id params)
       /\ (forall param, param ∈ params -> is_Some (values !! Id param))
       /\ forall id v, values !! id = Some v <-> (id, Ok v) ∈ calls.
Proof.
  intros H. unfold mapParamValues in H.
  destruct (mapParamValues_loop_calls parser params ∅ [] st [])
    as (new & Hcalls & Hres).
  { intros id. rewrite lookup_empty, elem_of_nil. split; [intros [? ?]; discriminate | tauto]. }
  rewrite H in Hcalls, Hres. simpl in Hcalls, Hres. subst new.
  assert (Hprefix : exists rest, distinct [] (map Id params) = map fst calls ++ rest).
  { destruct r; [exists []; rewrite app_nil_r; symmetry; apply Hres | exact Hres | exact Hres]. }
  split.
  { destruct Hprefix as [rest Hrest].
    pose proof (proj1 (distinct_spec (map Id params) [])) as Hnd.
    rewrite Hrest in Hnd. apply NoDup_app in Hnd. tauto. }
  split; [exact Hprefix|].
  intros values ->. destruct Hres as (Hids & Hoks & Hvals). split; [exact Hids|]. split.
  - intros param Hin.
    assert (Hd : Id param ∈ distinct [] (map Id params)).
    { apply distinct_spec. split; [|apply not_elem_of_nil].
      apply list_elem_of_fmap. exists param. auto. }
    rewrite <- Hids in Hd. apply list_elem_of_fmap in Hd as ([id o] & Heq & Hin').
    simpl in Heq. subst id.
    destruct (Hoks _ _ Hin') as [v ->].
    exists v. apply Hvals. right. exact Hin'.
  - intros id v. rewrite Hvals, lookup_empty. split; [intros [?|?]; [discriminate | assumption] | auto].
Qed.

Lemma resolver_called_once_witness :
  mapParamValues repeating_params (logged mock_parser) (0%nat, [])
    = (Ok mock_values, (2%nat, mock_calls))
  /\ NoDup (map fst mock_calls)
  /\ (exists rest, distinct [] (map Id repeating_params) = map fst mock_calls ++ rest)
  /\ forall values, Ok mock_values = Ok values ->
       map fst mock_calls = distinct [] (map Id repeating_params)
       /\ (forall param, param ∈ repeating_params -> is_Some (values !! Id param))
       /\ forall id v, values !! id = Some v <-> (id, Ok v) ∈ mock_calls.
Proof.
  split; [vm_compute; reflexivity|].
  apply (resolver_called_once_per_reference mock_parser repeating_params 0%nat 2%nat).
  vm_compute. reflexivity.
Defined.

(** ** Assignment lines *)

(** The shape is only found at the start of a line. *)
Lemma shape_at_line_start isFile payload p :
  shape_at isFile payload p = true ->
  p = 0%nat \/ exists q, p = S q /\ payload !! q = Some NL.
Proof.
  unfold shape_at. intros H.
  destruct (match_at true payload (line_shape isFile) p) as [m|] eqn:Hm; [|discriminate].
  apply match_at_inv in Hm as (s & Hm & _).
  assert (Hbol : at_bol true payload p = true).
  { destruct isFile; simpl in Hm; inv Hm;
      match goal with H : Matches _ _ Bol _ _ _ |- _ => inv H; assumption end. }
  destruct p as [|q]; [left; reflexivity|]. right. exists q. split; [reflexivity|].
  simpl in Hbol. case_bool_decide; [assumption | discriminate].
Qed.




(** ** Single quotes *)

(** C5, as stated, fails: the text quote, backslash, quote, quote has the
    single-quoted segment 0 to 3, whose closing quote, at index 2, is
    preceded by one backslash. *)
Lemma closing_quote_may_be_escaped :
  tokenizeByQuotes escaped_quote_in_quotes
  = Ok [mkSegment (0, 3)%nat singleQuoted; mkSegment (3, 4)%nat unQuoted]
  /\ backslashes_before escaped_quote_in_quotes 2 = 1%nat
  /\ closing_quote_unescaped escaped_quote_in_quotes
       (mkSegment (0, 3)%nat singleQuoted) = false.
Proof. repeat split; vm_compute; reflexivity. Qed.

(** C5, amended.  Every single-quoted segment the tokenizer produces opens
    with a single quote and ends at the next single quote of the text,
    whatever precedes that quote: the segment is at least two characters
    long, its last character is a single quote, and there is no single
    quote between the two. *)
Theorem single_quoted_segment_ends_at_next_quote
        (payload : text) (segments : list Segment) (segment : Segment) :
  tokenizeByQuotes payload = Ok segments ->
  segment ∈ segments -> segType segment = singleQuoted ->
  payload !! fst (Position segment) = Some SQ
  /\ (fst (Position segment) + 2 <= snd (Position segment))%nat
  /\ payload !! (snd (Position segment) - 1)%nat = Some SQ
  /\ forall i, (fst (Position segment) < i < snd (Position segment) - 1)%nat ->
               payload !! i <> Some SQ.
Proof. intros. eapply single_quoted_segment; eauto. Qed.

Lemma single_quoted_segment_witness :
  escaped_quote_in_quotes !! 0%nat = Some SQ
  /\ (0 + 2 <= 3)%nat
  /\ escaped_quote_in_quotes !! (3 - 1)%nat = Some SQ
  /\ forall i, (0 < i < 3 - 1)%nat -> escaped_quote_in_quotes !! i <> Some SQ.
Proof.
  apply (single_quoted_segment_ends_at_next_quote escaped_quote_in_quotes
           [mkSegment (0, 3)%nat singleQuoted; mkSegment (3, 4)%nat unQuoted]
           (mkSegment (0, 3)%nat singleQuoted)).
  - vm_compute. reflexivity.
  - apply list_elem_of_here.
  - reflexivity.
Defined.

(** ** Valid regions *)

(** C6.  When quoting is honoured, no reference the finder returns starts
    inside a single-quoted segment of the tokenization of the text. *)
Theorem no_reference_starts_in_single_quotes
        (payload : text) (segments : list Segment) (param : Param) (segment : Segment) :
  tokenizeByQuotes payload = Ok segments ->
  param ∈ findParams payload (getValidSlices segments) ->
  segment ∈ segments -> segType segment = singleQuoted ->
  InRange (fst (ParamPosition param)) (Position segment) = false.
Proof. apply findParams_outside_single_quotes. Qed.

Lemma no_reference_in_single_quotes_witness :
  findParams quoted_and_bare
    (getValidSlices [mkSegment (0, 4)%nat singleQuoted; mkSegment (4, 7)%nat unQuoted])
  = [mkParam (str "$B") (5, 7)%nat]
  /\ InRange 5 (0, 4)%nat = false.
Proof.
  split; [vm_compute; reflexivity|].
  apply (no_reference_starts_in_single_quotes quoted_and_bare
           [mkSegment (0, 4)%nat singleQuoted; mkSegment (4, 7)%nat unQuoted]
           (mkParam (str "$B") (5, 7)%nat)
           (mkSegment (0, 4)%nat singleQuoted)).
  - vm_compute. reflexivity.
  - vm_compute. apply list_elem_of_here.
  - apply list_elem_of_here.
  - reflexivity.
Defined.

(** C7.  For every text the tokenizer returns segments, and they split
    the text exactly: the first starts at 0, each starts where the one
    before it ends, none is empty, the last ends at the length of the
    text; put end to end, their indices are 0, 1, ... up to the length. *)
Theorem tokenization_partitions (payload : text) :
  exists segments,
    tokenizeByQuotes payload = Ok segments
    /\ partitions 0 (length payload) segments
    /\ flat_map indices segments = seq 0 (length payload).
Proof.
  destruct (tokenize_partitions payload) as (segments & Htok & Hpart).
  exists segments. split; [exact Htok|]. split; [exact Hpart|].
  apply partitions_indices in Hpart as [_ Heq].
  rewrite Nat.sub_0_r in Heq. exact Heq.
Qed.

(** ** Expansion *)



(** C9, at the input where the code departs from it.  The content after
    FOO starts with a number sign, the finder takes the whole as one
    reference, FOO is unset, and yet resolving it returns x followed by a
    closing brace, not the empty value of FOO: the operator of the inner
    reference is applied to FOO.  Without an inner reference the value of
    FOO comes back. *)
Theorem unknown_operator_with_nested_reference :
  MatchesToIndices paramFinderRegex unknown_operator_around_default = [(0, 15)%nat]
  /\ parseParam ∅ unknown_operator_around_default = Ok (str "x}")
  /\ parseParam ∅ (str "${FOO#foo}") = Ok []
  /\ parseParam (<[str "FOO" := str "foo"]> ∅) (str "${FOO%%foo}") = Ok (str "foo").
Proof. repeat split; vm_compute; reflexivity. Qed.


(** The value of an assignment with two references: only the first is
    expanded, here and in the variable that is assigned. *)
Example second_reference_is_left :
  let env : Env := <[str "X" := str "1"]> (<[str "Y" := str "2"]> ∅) in
  parseParam env (str "$X $Y") = Ok (str "1 $Y")
  /\ parserHandler env (str "$X $Y") unQuoted = Ok (str "1 $Y")
  /\ w_env (snd (setEnv (str "A=$X $Y") false (with_env (fun _ => env) no_world)))
       !! str "A" = Some (str "1 $Y")
  /\ parseParam env (str "${U:-$X $Y} $X") = Ok (str "1 2 $X").
Proof. repeat split; vm_compute; reflexivity. Qed.

(** * Beyond the claims *)

(** ** The matches of a pattern *)

Lemma in_order_weaken hi slices : forall lo lo',
  (lo' <= lo)%nat -> in_order lo hi slices -> in_order lo' hi slices.
Proof.
  destruct slices as [|[a b] rest]; intros lo lo' Hle H; simpl in *; [exact I|].
  destruct H as (H1 & H2 & H3 & H4). repeat split; try lia. exact H4.
Qed.

Lemma in_order_length hi slices : forall lo,
  in_order lo hi slices -> (length slices <= S hi - lo)%nat.
Proof.
  induction slices as [|[a b] rest IH]; intros lo H; simpl in *; [lia|].
  destruct H as (H1 & H2 & H3 & H4). apply IH in H4.
  destruct (Nat.eqb_spec a b); lia.
Qed.

Lemma matches_from_in_order ml input r fuel : forall start,
  (start <= length input)%nat ->
  in_order start (length input)
    (map (fun m => (Index m, (Index m + Length m)%nat)) (matches_from ml input r fuel start)).
Proof.
  induction fuel as [|fuel IH]; intros start Hs; simpl; [exact I|].
  destruct (find_from _ _ r start) as [m|] eqn:Hf; [|exact I].
  apply find_from_bounds in Hf as (H1 & H2 & _); [|exact Hs].
  simpl. split; [exact H1|]. split; [lia|]. split; [exact H2|].
  unfold next_start.
  destruct (Nat.eqb_spec (Length m) 0) as [H0|H0].
  - replace (Index m =? Index m + Length m)%nat with true
      by (symmetry; apply Nat.eqb_eq; lia).
    destruct (Nat.eqb_spec (Index m + Length m) (length input)); [exact I|].
    apply IH. lia.
  - replace (Index m =? Index m + Length m)%nat with false
      by (symmetry; apply Nat.eqb_neq; lia).
    apply IH. exact H2.
Qed.

(** X1.  For every pattern and every text, the index pairs of the matches
    lie inside the text and come in order: each match starts at or after
    the end of the one before it, and strictly after the start of the one
    before it; there are at most as many as the text has positions. *)
Theorem MatchesToIndices_in_order (re : Regexp) (payload : text) :
  in_order 0 (length payload) (MatchesToIndices re payload)
  /\ (length (MatchesToIndices re payload) <= S (length payload))%nat.
Proof.
  assert (H : in_order 0 (length payload) (MatchesToIndices re payload)).
  { unfold MatchesToIndices, FindAll, all_matches. apply matches_from_in_order. lia. }
  split; [exact H|]. apply in_order_length in H. lia.
Qed.

(** ** Unescaped characters *)

Lemma backslashes_before_O (t : text) : backslashes_before t 0 = O.
Proof. unfold backslashes_before. rewrite take_0. reflexivity. Qed.

Lemma backslashes_before_S (t : text) p x :
  t !! p = Some x ->
  backslashes_before t (S p) = if x =? BSL then S (backslashes_before t p) else O.
Proof.
  intros Hx. unfold backslashes_before.
  rewrite (take_S_r _ _ _ Hx), reverse_snoc. reflexivity.
Qed.

(** A run of [n] backslashes that starts at [q], where the text starts or
    another character comes before, is the whole run before [q + n]. *)
Lemma backslashes_run (t : text) q : forall n,
  (forall i, (q <= i < q + n)%nat -> t !! i = Some BSL) ->
  (q = O \/ exists c, t !! (q - 1)%nat = Some c /\ c <> BSL) ->
  backslashes_before t (q + n) = n.
Proof.
  induction n as [|n IH]; intros Hall Hq.
  - rewrite Nat.add_0_r. destruct Hq as [-> | (c & Hc & Hne)].
    + apply backslashes_before_O.
    + destruct q as [|q]; [apply backslashes_before_O|].
      replace (S q - 1)%nat with q in Hc by lia.
      rewrite (backslashes_before_S _ _ _ Hc).
      destruct (Z.eqb_spec c BSL); [contradiction | reflexivity].
  - replace (q + S n)%nat with (S (q + n)) by lia.
    rewrite (backslashes_before_S _ _ BSL) by (apply Hall; lia).
    rewrite Z.eqb_refl. f_equal. apply IH; [|exact Hq].
    intros i Hi. apply Hall. lia.
Qed.

Section Unescaped.

Variable multiline : bool.
Variable input : text.
Local Abbreviation Matches := (Matches multiline input).

(** Backwards, the loop over pairs of backslashes reads an even number of
    backslashes. *)
Lemma backslash_pairs_inv g s s' :
  Matches (Star g (Times 2 chBSL)) Bwd s s' ->
  exists k, pos s = (pos s' + 2 * k)%nat
            /\ forall i, (pos s' <= i < pos s)%nat -> input !! i = Some BSL.
Proof.
  intros H. remember (Star g (Times 2 chBSL)) as r eqn:Hr.
  remember Bwd as d eqn:Hd.
  induction H; inv Hr.
  - exists O. split; [lia|]. intros; lia.
  - specialize (IHMatches2 eq_refl eq_refl) as (k & Hk & Hall).
    match goal with H : Matches (Times 2 _) Bwd _ _ |- _ => inv H end.
    match goal with H : Matches (Times 1 _) Bwd _ _ |- _ => inv H end.
    match goal with H : Matches (Times 0 _) Bwd _ _ |- _ => inv H end.
    repeat match goal with H : Matches chBSL Bwd _ _ |- _ => inv H end.
    repeat match goal with H : cset_mem _ (Among [_]) = true |- _ =>
      apply cset_single in H; subst end.
    cbn [pos at_pos] in *.
    exists (S k). split; [lia|].
    intros i Hi.
    destruct (decide (i = p)) as [-> | ?]; [assumption|].
    destruct (decide (i = p0)) as [-> | ?]; [assumption|].
    apply Hall. lia.
Qed.

(** The look-behind of the source holds exactly where an even number of
    backslashes comes before. *)
Lemma unescaped_side_inv sa sb :
  Matches (Alt (Chr (Except [(BSL, BSL)])) Bol) Bwd sa sb ->
  pos sa = O \/ exists c, input !! (pos sa - 1)%nat = Some c /\ c <> BSL.
Proof.
  intros H. inv H.
  - match goal with H : Matches (Chr _) Bwd _ _ |- _ => inv H end.
    match goal with H1 : pos _ = S ?p, H2 : input !! ?p = Some ?c |- _ =>
      right; exists c; rewrite H1; simpl; rewrite Nat.sub_0_r; split; [exact H2|] end.
    intros ->.
    match goal with H : cset_mem BSL _ = true |- _ => vm_compute in H; discriminate end.
  - match goal with H : Matches Bol Bwd _ _ |- _ => inv H end.
    match goal with H : at_bol _ _ (pos ?x) = true |- _ =>
      unfold at_bol in H; destruct (pos x) as [|q]; [left; reflexivity|];
      apply andb_true_iff in H as [_ H]; apply bool_decide_eq_true in H;
      right; exists NL; simpl; rewrite Nat.sub_0_r; split; [exact H | discriminate] end.
Qed.

(** The look-behind of the source holds only where an even number of
    backslashes comes before. *)
Lemma unescaped_even d s s' :
  Matches unescapedToken d s s' ->
  Nat.even (backslashes_before input (pos s)) = true /\ pos s' = pos s.
Proof.
  intros H. unfold unescapedToken, Lookbehind in H. inv H.
  split; [|reflexivity].
  match goal with H : Matches (Seq _ _) Bwd _ _ |- _ => inv H end.
  match goal with
    HA : Matches (Alt _ _) Bwd ?sa _, HS : Matches (Star _ _) Bwd _ ?sa |- _ =>
      apply backslash_pairs_inv in HS as (k & Hk & Hall);
      apply unescaped_side_inv in HA;
      rewrite Hk, (backslashes_run input (pos sa) (2 * k));
      [ rewrite Nat.even_mul; reflexivity
      | intros i Hi; apply Hall; lia
      | exact HA ]
  end.
Qed.

End Unescaped.

(** ** The references the finder returns *)

Lemma unescaped_then_even ml input r s s' :
  Matches ml input (Seq unescapedToken r) Fwd s s' ->
  Nat.even (backslashes_before input (pos s)) = true
  /\ exists s1, pos s1 = pos s /\ Matches ml input r Fwd s1 s'.
Proof.
  intros H. inv H.
  match goal with H : Matches _ _ unescapedToken _ _ _ |- _ =>
    apply unescaped_even in H as [He Hp] end.
  split; [exact He|]. eexists. split; [exact Hp | eassumption].
Qed.

(** A match of the finder pattern starts at a dollar sign that an even
    number of backslashes comes before, and is at least two characters
    long. *)
Lemma finder_match_inv payload p m :
  match_at false payload paramFinderPattern p = Some m ->
  Index m = p /\ payload !! p = Some DOLLAR
  /\ Nat.even (backslashes_before payload p) = true
  /\ (2 <= Length m)%nat /\ (p + Length m <= length payload)%nat.
Proof.
  intros H. pose proof H as H'.
  apply match_at_inv in H as (s & Hm & -> & Hle & Hlen). cbn [Index Length].
  assert (payload !! p = Some DOLLAR
          /\ Nat.even (backslashes_before payload p) = true
          /\ (p + 2 <= pos s)%nat) as (Hd & He & Hp).
  { unfold paramFinderPattern, bracedParam in Hm. cbn [cat lit] in Hm. inv Hm.
    - match goal with H : Matches _ _ _ Fwd _ _ |- _ =>
        apply unescaped_then_even in H as (He & s1 & Hs1 & H); inv H end.
      match goal with H : Matches _ _ chDollar Fwd _ _ |- _ => inv H end.
      match goal with H : cset_mem _ _ = true |- _ => apply cset_single in H; subst end.
      match goal with H : Matches _ _ (Group _ _) Fwd _ _ |- _ => inv H end.
      match goal with H : Matches _ _ paramName Fwd _ _ |- _ => inv H end.
      match goal with H : Matches _ _ (Chr _) Fwd _ _ |- _ => inv H end.
      match goal with H : Matches _ _ (Star _ _) Fwd _ _ |- _ =>
        apply Matches_moves in H as [Hmv _] end.
      cbn [pos at_pos push] in *. rewrite Hs1 in *.
      repeat split; [assumption | exact He | lia].
    - match goal with H : Matches _ _ (Seq (Seq unescapedToken _) _) Fwd _ _ |- _ =>
        inv H end.
      match goal with H : Matches _ _ (Seq unescapedToken _) Fwd _ _ |- _ =>
        apply unescaped_then_even in H as (He & sa & Hsa & Ha) end.
      match goal with H : Matches _ _ (Seq (Star _ _) _) Fwd _ _ |- _ =>
        apply Matches_moves in H as [Hmv _] end.
      repeat match goal with H : Matches _ _ (Seq _ _) Fwd _ _ |- _ => inv H end.
      match goal with H : Matches _ _ (Group _ _) Fwd _ _ |- _ =>
        inv H end.
      match goal with H : Matches _ _ paramName Fwd _ _ |- _ =>
        apply Matches_moves in H as [Hmn _] end.
      repeat match goal with H : Matches _ _ (chr _) Fwd _ _ |- _ => inv H end.
      repeat match goal with H : cset_mem _ (Among [_]) = true |- _ =>
        apply cset_single in H; subst end.
      cbn [pos at_pos push] in *. rewrite Hsa in *.
      repeat split; [assumption | exact He | lia]. }
  repeat split; try assumption; [lia|].
  specialize (Hlen ltac:(apply lookup_lt_Some in Hd; lia)). lia.
Qed.

Lemma findParams_inv payload validSlices param :
  param ∈ findParams payload validSlices ->
  exists m, m ∈ FindAll paramFinderRegex payload
            /\ ParamPosition param = (Index m, (Index m + Length m)%nat)
            /\ Id param = slice payload (Index m) (Index m + Length m)
            /\ existsb (InRange (Index m)) validSlices = true.
Proof.
  unfold findParams, MatchesToIndices. intros H.
  apply list_elem_of_In, in_flat_map in H as (pm & Hpm & Hin).
  apply in_map_iff in Hpm as (m & <- & Hm). cbn [fst snd] in Hin.
  destruct (existsb _ validSlices) eqn:He; [|destruct Hin].
  destruct Hin as [<- | []].
  exists m. repeat split; [apply list_elem_of_In; exact Hm | exact He].
Qed.

Lemma findParams_sublist payload validSlices lo hi :
  in_order lo hi (MatchesToIndices paramFinderRegex payload) ->
  in_order lo hi (map ParamPosition (findParams payload validSlices)).
Proof.
  unfold findParams. generalize (MatchesToIndices paramFinderRegex payload).
  intros l. revert lo. induction l as [|[a b] l IH]; intros lo H; simpl; [exact I|].
  destruct H as (H1 & H2 & H3 & H4).
  destruct (existsb _ validSlices); simpl.
  - repeat split; try assumption. apply IH. exact H4.
  - apply IH. eapply in_order_weaken; [|exact H4].
    destruct (Nat.eqb_spec a b); lia.
Qed.

(** X2.  The references [findParams] returns come in the order of the
    text and do not overlap; each lies inside the text, is at least two
    characters long, has as its text the characters at its position, and
    starts inside one of the valid ranges. *)
Theorem findParams_positions (payload : text) (validSlices : list (nat * nat)) :
  in_order 0 (length payload) (map ParamPosition (findParams payload validSlices))
  /\ Forall (fun param =>
       let a := fst (ParamPosition param) in
       let b := snd (ParamPosition param) in
       Id param = slice payload a b /\ length (Id param) = (b - a)%nat
       /\ (a + 2 <= b)%nat /\ (b <= length payload)%nat
       /\ exists v, v ∈ validSlices /\ InRange a v = true)
     (findParams payload validSlices).
Proof.
  split.
  - apply findParams_sublist.
    unfold MatchesToIndices, FindAll, all_matches. apply matches_from_in_order. lia.
  - apply Forall_forall. intros param Hin.
    apply findParams_inv in Hin as (m & Hm & Hpos & Hid & Hv).
    unfold FindAll, all_matches in Hm.
    apply matches_from_each in Hm; [|lia].
    apply finder_match_inv in Hm as (_ & _ & _ & Hlen & Hle).
    rewrite Hpos, Hid. cbn [fst snd].
    repeat split; try lia.
    + unfold slice. rewrite length_take, length_drop. lia.
    + apply existsb_exists in Hv as (v & Hv & Hi).
      exists v. split; [apply list_elem_of_In; exact Hv | exact Hi].
Qed.

(** X3.  Every reference [findParams] returns starts at a dollar sign
    that is not escaped: the number of backslashes right before it is
    even. *)
Theorem findParams_at_unescaped_dollar (payload : text) (validSlices : list (nat * nat)) :
  Forall (fun param =>
       payload !! fst (ParamPosition param) = Some DOLLAR
       /\ Nat.even (backslashes_before payload (fst (ParamPosition param))) = true)
     (findParams payload validSlices).
Proof.
  apply Forall_forall. intros param Hin.
  apply findParams_inv in Hin as (m & Hm & Hpos & _).
  unfold FindAll, all_matches in Hm.
  apply matches_from_each in Hm; [|lia].
  apply finder_match_inv in Hm as (_ & Hd & He & _).
  rewrite Hpos. cbn [fst]. split; assumption.
Qed.

(** ** The valid ranges *)

Lemma InRange_iff i (v : nat * nat) :
  InRange i v = true <-> (fst v <= i < snd v)%nat.
Proof.
  unfold InRange. rewrite andb_true_iff, Nat.leb_le, Nat.ltb_lt. reflexivity.
Qed.

Lemma outside_single_quotes_cons seg rest i :
  outside_single_quotes (seg :: rest) i
  <-> (segType seg <> singleQuoted /\ InRange i (Position seg) = true)
      \/ outside_single_quotes rest i.
Proof.
  unfold outside_single_quotes. split.
  - intros (s0 & Hs0 & Hty & Hi). apply elem_of_cons in Hs0 as [-> | Hs0];
      [left; auto | right; eauto].
  - intros [[Hty Hi] | (s0 & Hs0 & Hty & Hi)].
    + exists seg. split; [apply elem_of_cons; auto | auto].
    + exists s0. split; [apply elem_of_cons; auto | auto].
Qed.

Lemma in_ranges_of_cons v slices i :
  in_ranges_of (v :: slices) i <-> InRange i v = true \/ in_ranges_of slices i.
Proof.
  unfold in_ranges_of. split.
  - intros (v0 & Hv0 & Hi). apply elem_of_cons in Hv0 as [-> | Hv0]; [auto | eauto].
  - intros [Hi | (v0 & Hv0 & Hi)].
    + exists v. split; [apply list_elem_of_here | exact Hi].
    + exists v0. split; [apply elem_of_cons; auto | exact Hi].
Qed.

Lemma in_ranges_of_nil i : in_ranges_of [] i <-> False.
Proof.
  unfold in_ranges_of. split; [|tauto]. intros (v & Hv & _). by apply elem_of_nil in Hv.
Qed.

Lemma sorted_snoc (l : list (nat * nat)) v :
  StronglySorted apart l -> Forall (fun v0 => apart v0 v) l ->
  StronglySorted apart (l ++ [v]).
Proof.
  intros Hs Hall. apply StronglySorted_app. split; [|split].
  - intros v1 v2 Hv1 Hv2. apply list_elem_of_singleton in Hv2 as ->.
    rewrite Forall_forall in Hall. apply Hall. exact Hv1.
  - exact Hs.
  - repeat constructor.
Qed.

Lemma sorted_snoc_inv (l : list (nat * nat)) v :
  StronglySorted apart (l ++ [v]) ->
  StronglySorted apart l /\ Forall (fun v0 => apart v0 v) l.
Proof.
  intros H. apply StronglySorted_app in H as (Hcross & Hs & _).
  split; [exact Hs|]. apply Forall_forall. intros v0 Hv0.
  apply Hcross; [exact Hv0 | apply list_elem_of_here].
Qed.

Lemma getValidSlices_loop_spec segments : forall c b valid,
  partitions c b segments ->
  StronglySorted apart (reverse valid) ->
  Forall (fun v => (fst v < snd v)%nat /\ (snd v <= c)%nat) valid ->
  StronglySorted apart (getValidSlices_loop segments valid)
  /\ Forall (fun v => (fst v < snd v)%nat /\ (snd v <= b)%nat)
            (getValidSlices_loop segments valid)
  /\ forall i, in_ranges_of (getValidSlices_loop segments valid) i
               <-> in_ranges_of valid i \/ outside_single_quotes segments i.
Proof.
  induction segments as [|seg rest IH]; intros c b valid Hpart Hsort Hall; simpl.
  - simpl in Hpart. subst b. split; [exact Hsort|]. split.
    + apply Forall_reverse. exact Hall.
    + intros i. unfold in_ranges_of, outside_single_quotes. split.
      * intros (v & Hv & Hi). left. exists v. split; [|exact Hi].
        apply elem_of_reverse. exact Hv.
      * intros [(v & Hv & Hi) | (seg & Hs & _)]; [|by apply elem_of_nil in Hs].
        exists v. split; [|exact Hi]. apply elem_of_reverse. exact Hv.
  - destruct Hpart as (Hfst & Hlt & Hpart).
    case_bool_decide as Hty.
    + destruct valid as [|[x y] valid'].
      * destruct (IH (snd (Position seg)) b [Position seg] Hpart) as (H1 & H2 & H3).
        { rewrite reverse_singleton. repeat constructor. }
        { constructor; [|constructor]. split; [rewrite Hfst; exact Hlt | lia]. }
        split; [exact H1|]. split; [exact H2|].
        intros i. rewrite H3, outside_single_quotes_cons, in_ranges_of_cons,
          !in_ranges_of_nil. tauto.
      * apply Forall_cons in Hall as [[Hxy Hyc] Hall'].
        rewrite reverse_cons in Hsort.
        apply sorted_snoc_inv in Hsort as [Hs1 Hcross].
        cbn [fst snd] in *.
        destruct (Nat.eqb_spec y (fst (Position seg))) as [Hy|Hy].
        -- destruct (IH (snd (Position seg)) b ((x, snd (Position seg)) :: valid') Hpart)
             as (H1 & H2 & H3).
           { rewrite reverse_cons. apply sorted_snoc; [exact Hs1|].
             eapply Forall_impl; [exact Hcross|]. intros v Hv. exact Hv. }
           { constructor; [cbn [fst snd]; lia|].
             eapply Forall_impl; [exact Hall'|]. cbn beta. intros v [? ?]. lia. }
           split; [exact H1|]. split; [exact H2|].
           intros i. rewrite H3, outside_single_quotes_cons, !in_ranges_of_cons,
             !InRange_iff. cbn [fst snd].
           destruct (Nat.ltb_spec i y); split; intros; intuition lia.
        -- destruct (IH (snd (Position seg)) b (Position seg :: (x, y) :: valid') Hpart)
             as (H1 & H2 & H3).
           { rewrite !reverse_cons. apply sorted_snoc.
             - apply sorted_snoc; assumption.
             - apply Forall_app. split.
               + eapply Forall_impl; [exact Hcross|]. unfold apart. cbn [fst snd].
                 intros v Hv. lia.
               + constructor; [|constructor]. unfold apart. cbn [fst snd]. lia. }
           { constructor; [split; [rewrite Hfst; exact Hlt | lia]|].
             constructor; [cbn [fst snd]; lia|].
             eapply Forall_impl; [exact Hall'|]. cbn beta. intros v [? ?]. lia. }
           split; [exact H1|]. split; [exact H2|].
           intros i. rewrite H3, outside_single_quotes_cons, !in_ranges_of_cons.
           tauto.
    + destruct (IH (snd (Position seg)) b valid Hpart Hsort) as (H1 & H2 & H3).
      { eapply Forall_impl; [exact Hall|]. cbn beta. intros v [? ?]. lia. }
      split; [exact H1|]. split; [exact H2|].
      intros i. rewrite H3, outside_single_quotes_cons. tauto.
Qed.

(** X4.  For segments that split a stretch of text, the valid ranges are
    not empty, lie inside the stretch, come in order with a gap between
    one and the next, and hold exactly the indices of the segments that
    are not single-quoted. *)
Theorem getValidSlices_exact (segments : list Segment) (a b : nat) :
  partitions a b segments ->
  StronglySorted apart (getValidSlices segments)
  /\ Forall (fun v => (a <= fst v)%nat /\ (fst v < snd v)%nat /\ (snd v <= b)%nat)
            (getValidSlices segments)
  /\ forall i, in_ranges_of (getValidSlices segments) i
               <-> outside_single_quotes segments i.
Proof.
  intros Hpart. unfold getValidSlices.
  destruct (getValidSlices_loop_spec segments a b [] Hpart) as (H1 & H2 & H3);
    [constructor | constructor |].
  assert (Hcover : forall i, in_ranges_of (getValidSlices_loop segments []) i
                             <-> outside_single_quotes segments i).
  { intros i. rewrite H3, in_ranges_of_nil. tauto. }
  split; [exact H1|]. split; [|exact Hcover].
  apply Forall_forall. intros v Hv.
  rewrite Forall_forall in H2. destruct (H2 v Hv) as [Hlt Hle].
  split; [|split; assumption].
  destruct (proj1 (Hcover (fst v))) as (seg & Hseg & _ & Hi).
  { exists v. split; [exact Hv|]. apply InRange_iff. lia. }
  apply InRange_iff in Hi.
  destruct (partitions_bounds _ _ _ _ Hpart Hseg) as (? & _). lia.
Qed.

Lemma getValidSlices_exact_witness :
  getValidSlices [mkSegment (0, 4)%nat unQuoted; mkSegment (4, 7)%nat doubleQuoted;
                  mkSegment (7, 9)%nat singleQuoted; mkSegment (9, 12)%nat unQuoted]
  = [(0, 7)%nat; (9, 12)%nat]
  /\ StronglySorted apart [(0, 7)%nat; (9, 12)%nat].
Proof.
  split; [reflexivity|].
  apply (getValidSlices_exact
           [mkSegment (0, 4)%nat unQuoted; mkSegment (4, 7)%nat doubleQuoted;
            mkSegment (7, 9)%nat singleQuoted; mkSegment (9, 12)%nat unQuoted] 0 12).
  simpl. repeat split; lia.
Defined.

(** ** Texts without the characters a pattern starts at *)

Lemma free_of_lookup chars (t : text) i x :
  free_of chars t = true -> t !! i = Some x -> x ∉ chars.
Proof.
  unfold free_of. rewrite forallb_forall. intros H Hx.
  specialize (H x (proj1 (list_elem_of_In _ _) (list_elem_of_lookup_2 _ _ _ Hx))).
  apply negb_true_iff, bool_decide_eq_false in H. exact H.
Qed.

Lemma free_of_weaken chars chars' (t : text) :
  (forall x, x ∈ chars' -> x ∈ chars) -> free_of chars t = true -> free_of chars' t = true.
Proof.
  unfold free_of. rewrite !forallb_forall. intros Hsub H x Hx.
  specialize (H x Hx). apply negb_true_iff, bool_decide_eq_false in H.
  apply negb_true_iff, bool_decide_eq_false. auto.
Qed.

Lemma free_of_app chars (t1 t2 : text) :
  free_of chars (t1 ++ t2) = free_of chars t1 && free_of chars t2.
Proof. unfold free_of. apply forallb_app. Qed.

Section NoStart.

Variable chars : list rune.
Variable r : regex.
Hypothesis r_starts : starts_at chars r.
Variable ml : bool.
Variable input : text.
Hypothesis input_free : free_of chars input = true.

Lemma no_match_at p : match_at ml input r p = None.
Proof.
  destruct (match_at ml input r p) as [m|] eqn:Hm; [|reflexivity].
  apply match_at_inv in Hm as (s & Hs & _).
  apply r_starts in Hs as (c & Hc & Hin). cbn [pos] in Hc.
  destruct (free_of_lookup _ _ _ _ input_free Hc Hin).
Qed.

Lemma no_match_found : find_from ml input r 0 = None.
Proof. unfold find_from. apply scan_None. intros i _. apply no_match_at. Qed.

Lemma no_matches : all_matches ml input r = [].
Proof. unfold all_matches. cbn [matches_from]. rewrite no_match_found. reflexivity. Qed.

End NoStart.

Lemma starts_at_unescaped chars r :
  starts_at chars r -> starts_at chars (Seq unescapedToken r).
Proof.
  intros H ml input s s' Hm. apply unescaped_then_even in Hm as (_ & s1 & Hp & Hm).
  apply H in Hm. rewrite Hp in Hm. exact Hm.
Qed.

Lemma starts_at_chr q : starts_at [q] (Chr (Among [(q, q)])).
Proof.
  intros ml input s s' Hm. inv Hm.
  match goal with H : cset_mem _ _ = true |- _ => apply cset_single in H; subst end.
  eexists. split; [eassumption | apply list_elem_of_here].
Qed.

Lemma starts_at_seq chars r1 r2 : starts_at chars r1 -> starts_at chars (Seq r1 r2).
Proof. intros H ml input s s' Hm. inv Hm. eapply H; eauto. Qed.

Lemma starts_at_group chars name r : starts_at chars r -> starts_at chars (Group name r).
Proof. intros H ml input s s' Hm. inv Hm. eapply H; eauto. Qed.

Lemma starts_at_alt chars r1 r2 :
  starts_at chars r1 -> starts_at chars r2 -> starts_at chars (Alt r1 r2).
Proof. intros H1 H2 ml input s s' Hm. inv Hm; [eapply H1 | eapply H2]; eauto. Qed.

Lemma starts_at_more chars chars' r :
  (forall x, x ∈ chars -> x ∈ chars') -> starts_at chars r -> starts_at chars' r.
Proof.
  intros Hsub H ml input s s' Hm. apply H in Hm as (c & Hc & Hin). eauto.
Qed.

Lemma tokenizer_starts : starts_at [SQ; DQ] quoteTokenizerPattern.
Proof.
  unfold quoteTokenizerPattern. cbn [cat].
  apply starts_at_alt; apply starts_at_group, starts_at_seq, starts_at_unescaped.
  - eapply starts_at_more; [|apply starts_at_chr].
    intros x Hx. apply list_elem_of_singleton in Hx as ->. rewrite !elem_of_cons. tauto.
  - eapply starts_at_more; [|apply starts_at_chr].
    intros x Hx. apply list_elem_of_singleton in Hx as ->. rewrite !elem_of_cons. tauto.
Qed.

Lemma quotes_start : starts_at [SQ; DQ] (pattern resolveAllQuotesRegex).
Proof.
  cbn [pattern resolveAllQuotesRegex].
  apply starts_at_alt; apply starts_at_unescaped.
  - eapply starts_at_more; [|apply starts_at_chr].
    intros x Hx. apply list_elem_of_singleton in Hx as ->. rewrite !elem_of_cons. tauto.
  - eapply starts_at_more; [|apply starts_at_chr].
    intros x Hx. apply list_elem_of_singleton in Hx as ->. rewrite !elem_of_cons. tauto.
Qed.

Lemma double_quote_starts : starts_at [DQ] (pattern resolveDoubleQuotesRegex).
Proof. apply starts_at_unescaped, starts_at_chr. Qed.

Lemma dollar_starts : starts_at [DOLLAR] (pattern unescapedDollarRegex).
Proof. apply starts_at_unescaped, starts_at_chr. Qed.

Lemma backslashAny_starts : starts_at [BSL] (pattern backslashAny).
Proof. apply starts_at_seq, starts_at_chr. Qed.

Lemma escaped_quotes_start : starts_at [BSL] (pattern unescapeAllQuotesRegex).
Proof.
  cbn [pattern unescapeAllQuotesRegex]. unfold escapedSingleQuote, escapedDoubleQuote.
  cbn [cat].
  apply starts_at_alt; apply starts_at_unescaped, starts_at_seq, starts_at_chr.
Qed.

Lemma escape_sequence_starts : starts_at [BSL] (pattern escapeSequenceRegex).
Proof.
  cbn [pattern escapeSequenceRegex]. apply starts_at_unescaped.
  apply starts_at_alt; [|apply starts_at_group]; apply starts_at_seq, starts_at_chr.
Qed.

Lemma finder_starts : starts_at [DOLLAR] paramFinderPattern.
Proof.
  unfold paramFinderPattern, bracedParam. cbn [cat lit].
  apply starts_at_alt.
  - apply starts_at_unescaped, starts_at_seq, starts_at_chr.
  - apply starts_at_seq, starts_at_unescaped, starts_at_seq, starts_at_seq.
    apply (starts_at_chr DOLLAR).
Qed.

(** ** Literal text *)

Lemma FindAll_none chars re (t : text) :
  starts_at chars (pattern re) -> free_of chars t = true ->
  FindAll re t = [] /\ FindRunesMatch re t = None.
Proof.
  intros Hs Hf. split.
  - apply (no_matches chars _ Hs _ _ Hf).
  - apply (no_match_found chars _ Hs _ _ Hf).
Qed.

Lemma tokenizeByQuotes_without_quotes (t : text) :
  free_of [SQ; DQ] t = true ->
  tokenizeByQuotes t
  = Ok (match t with [] => [] | _ :: _ => [mkSegment (0%nat, length t) unQuoted] end).
Proof.
  intros Hf. unfold tokenizeByQuotes.
  destruct (FindAll_none _ quoteTokenizerRegex t tokenizer_starts Hf) as [-> _].
  simpl. destruct t; reflexivity.
Qed.

(** X5.  A text that holds no quote characters is one unquoted segment,
    and the empty text has no segment. *)
Theorem tokenize_without_quotes (t : text) :
  free_of [SQ; DQ] t = true ->
  tokenizeByQuotes t
  = Ok (match t with [] => [] | _ :: _ => [mkSegment (0%nat, length t) unQuoted] end).
Proof. apply tokenizeByQuotes_without_quotes. Qed.

Lemma tokenize_without_quotes_witness :
  tokenizeByQuotes (str "a $B c") = Ok [mkSegment (0, 6)%nat unQuoted].
Proof. apply (tokenize_without_quotes (str "a $B c")). reflexivity. Defined.

Lemma parseParam_without_dollar env (t : text) :
  free_of [DOLLAR] t = true -> parseParam env t = Ok t.
Proof.
  intros Hf. rewrite parseParam_unfold. unfold parseParam_with.
  destruct (FindAll_none _ paramFinderRegex t finder_starts Hf) as [_ ->].
  reflexivity.
Qed.

Lemma parseEmbeddedParams_without_dollar env (t : text) :
  free_of [DOLLAR] t = true -> parseEmbeddedParams env t = Ok t.
Proof.
  intros Hf. unfold parseEmbeddedParams, parseEmbeddedParams_with, ReplaceFunc.
  destruct (FindAll_none _ paramFinderRegex t finder_starts Hf) as [-> _].
  reflexivity.
Qed.

(** X6.  A text without a dollar sign holds no reference: resolving it,
    as a reference or as a default expression, returns it as it is,
    whatever the environment. *)
Theorem text_without_dollar_is_kept (env : Env) (t : text) :
  free_of [DOLLAR] t = true ->
  parseParam env t = Ok t /\ parseEmbeddedParams env t = Ok t.
Proof.
  intros Hf. split;
    [apply parseParam_without_dollar | apply parseEmbeddedParams_without_dollar];
    exact Hf.
Qed.

Lemma text_without_dollar_witness :
  parseParam table_env (str "FOO and {BAR}") = Ok (str "FOO and {BAR}")
  /\ parseEmbeddedParams table_env (str "FOO and {BAR}") = Ok (str "FOO and {BAR}").
Proof. apply (text_without_dollar_is_kept table_env (str "FOO and {BAR}")). reflexivity. Defined.

Lemma escapeHandler_without_backslash (t : text) :
  free_of [BSL] t = true -> escapeHandler t = t.
Proof.
  intros Hf. unfold escapeHandler.
  destruct (FindAll_none _ escapeSequenceRegex t escape_sequence_starts Hf) as [-> _].
  reflexivity.
Qed.

(** X7.  [escapeHandler] changes nothing in a text without a backslash. *)
Theorem escapeHandler_keeps_plain_text (t : text) :
  free_of [BSL] t = true -> escapeHandler t = t.
Proof. apply escapeHandler_without_backslash. Qed.

Lemma escapeHandler_keeps_plain_text_witness :
  escapeHandler (str "a$b 'c' n x41") = str "a$b 'c' n x41".
Proof. apply (escapeHandler_keeps_plain_text (str "a$b 'c' n x41")). reflexivity. Defined.

Lemma slice_all (t : text) : slice t 0 (length t) = t.
Proof. unfold slice. rewrite drop_0, Nat.sub_0_r. apply take_ge. lia. Qed.

Lemma ReplaceFunc_none chars re (t : text) ev :
  starts_at chars (pattern re) -> free_of chars t = true -> ReplaceFunc re t ev = Ok t.
Proof.
  intros Hs Hf. unfold ReplaceFunc.
  destruct (FindAll_none _ re t Hs Hf) as [-> _]. reflexivity.
Qed.

Lemma Replace_none chars re (t : text) replacement :
  starts_at chars (pattern re) -> free_of chars t = true -> Replace re t replacement = t.
Proof.
  intros Hs Hf. unfold Replace.
  destruct (FindAll_none _ re t Hs Hf) as [-> _]. reflexivity.
Qed.

Lemma escapeLiteralDollars_without_quotes (t : text) :
  free_of [SQ; DQ] t = true -> escapeLiteralDollars t unQuoted = Ok t.
Proof.
  intros Hf. unfold escapeLiteralDollars. cbn [wrap].
  rewrite tokenizeByQuotes_without_quotes by exact Hf.
  destruct t as [|c t]; [reflexivity|].
  cbn [obind map Position segType fst snd concat].
  rewrite (bool_decide_eq_false_2 (unQuoted ≠ unQuoted)) by (intros H; apply H; reflexivity).
  rewrite (bool_decide_eq_false_2 (unQuoted = singleQuoted)) by discriminate.
  rewrite app_nil_r, slice_all. reflexivity.
Qed.

Lemma quoteHandler_literal (t : text) :
  free_of [SQ; DQ; BSL] t = true -> quoteHandler t unQuoted = Ok t.
Proof.
  intros Hf.
  assert (Hq : free_of [SQ; DQ] t = true).
  { eapply free_of_weaken; [|exact Hf]. intros x. rewrite !elem_of_cons. tauto. }
  assert (Hb : free_of [BSL] t = true).
  { eapply free_of_weaken; [|exact Hf]. intros x. rewrite !elem_of_cons. tauto. }
  unfold quoteHandler. cbn [wrap].
  rewrite tokenizeByQuotes_without_quotes by exact Hq.
  destruct t as [|c t]; [reflexivity|].
  cbn [obind mapM]. unfold quoteHandler_segment.
  cbn [Position segType fst snd]. rewrite slice_all.
  rewrite bool_decide_eq_true_2 by reflexivity.
  destruct (FindAll_none _ resolveAllQuotesRegex (c :: t) quotes_start Hq) as [_ ->].
  rewrite (Replace_none _ _ _ _ quotes_start Hq).
  rewrite (ReplaceFunc_none _ _ _ _ backslashAny_starts Hb).
  cbn [obind concat]. rewrite app_nil_r.
  rewrite escapeHandler_without_backslash by exact Hb. reflexivity.
Qed.

Lemma parserHandler_literal (env : Env) (t : text) :
  free_of [SQ; DQ; BSL; DOLLAR] t = true -> parserHandler env t unQuoted = Ok t.
Proof.
  intros Hf.
  assert (Hq : free_of [SQ; DQ] t = true).
  { eapply free_of_weaken; [|exact Hf]. intros x. rewrite !elem_of_cons. tauto. }
  assert (Hb : free_of [SQ; DQ; BSL] t = true).
  { eapply free_of_weaken; [|exact Hf]. intros x. rewrite !elem_of_cons. tauto. }
  assert (Hd : free_of [DOLLAR] t = true).
  { eapply free_of_weaken; [|exact Hf]. intros x. rewrite !elem_of_cons. tauto. }
  unfold parserHandler.
  rewrite escapeLiteralDollars_without_quotes by exact Hq. cbn [obind].
  rewrite parseParam_without_dollar by exact Hd. cbn [obind].
  apply quoteHandler_literal. exact Hb.
Qed.

(** X8.  A value without quote characters, backslashes and dollar signs
    is taken as it is written: outside quotes [escapeLiteralDollars],
    [quoteHandler] and [parserHandler] return it unchanged, whatever the
    environment. *)
Theorem literal_value_is_kept (env : Env) (t : text) :
  free_of [SQ; DQ; BSL; DOLLAR] t = true ->
  escapeLiteralDollars t unQuoted = Ok t
  /\ quoteHandler t unQuoted = Ok t
  /\ parserHandler env t unQuoted = Ok t.
Proof.
  intros Hf.
  split; [|split].
  - apply escapeLiteralDollars_without_quotes.
    eapply free_of_weaken; [|exact Hf]. intros x. rewrite !elem_of_cons. tauto.
  - apply quoteHandler_literal.
    eapply free_of_weaken; [|exact Hf]. intros x. rewrite !elem_of_cons. tauto.
  - apply parserHandler_literal. exact Hf.
Qed.

Lemma literal_value_witness :
  escapeLiteralDollars (str "a b=c #1") unQuoted = Ok (str "a b=c #1")
  /\ quoteHandler (str "a b=c #1") unQuoted = Ok (str "a b=c #1")
  /\ parserHandler table_env (str "a b=c #1") unQuoted = Ok (str "a b=c #1").
Proof. apply (literal_value_is_kept table_env (str "a b=c #1")). reflexivity. Defined.

(** ** Assignment lines *)

Section GreedyClass.

Variable multiline : bool.
Variable input : text.
Local Abbreviation run := (run multiline input).

(** A greedy loop over a character class, under either option: it reads
    all the characters of the class there are, when the rest of the
    pattern matches after them. *)
Lemma greedy_class_loop cs k res : forall j n s,
  (j <= n)%nat ->
  (forall i, (i < j)%nat ->
     exists c, input !! (pos s + i)%nat = Some c /\ cset_mem c cs = true) ->
  (forall c, input !! (pos s + j)%nat = Some c -> cset_mem c cs = false) ->
  k (at_pos (pos s + j) s) = Some res ->
  star_loop (run (Chr cs) Fwd) Greedy k n s = Some res.
Proof.
  induction j as [|j IH]; intros n s Hn Hall Hstop Hk.
  - rewrite Nat.add_0_r in Hk, Hstop.
    replace (at_pos (pos s) s) with s in Hk by (destruct s; reflexivity).
    destruct n as [|n]; [exact Hk|].
    rewrite star_loop_greedy_S, run_chr_fwd.
    destruct (input !! pos s) as [x|]; [|exact Hk].
    rewrite (Hstop x eq_refl). exact Hk.
  - destruct n as [|n]; [lia|].
    rewrite star_loop_greedy_S, run_chr_fwd.
    destruct (Hall O) as (c & Hc & Hm); [lia|]. rewrite Nat.add_0_r in Hc.
    rewrite Hc, Hm. cbn [pos at_pos].
    replace (S (pos s) =? pos s)%nat with false by (symmetry; apply Nat.eqb_neq; lia).
    rewrite (IH n (at_pos (S (pos s)) s)); [reflexivity|lia| | |].
    + intros i Hi. cbn [pos at_pos].
      replace (S (pos s) + i)%nat with (pos s + S i)%nat by lia. apply Hall. lia.
    + intros x. cbn [pos at_pos].
      replace (S (pos s) + j)%nat with (pos s + S j)%nat by lia. apply Hstop.
    + unfold at_pos in *. cbn [pos caps] in *.
      replace (S (pos s) + j)%nat with (pos s + S j)%nat by lia. exact Hk.
Qed.

Lemma run_None_any r d s k :
  (forall s', ~ Matches multiline input r d s s') -> run r d s k = None.
Proof.
  intros H. destruct (run r d s k) as [res|] eqn:E; [|reflexivity].
  apply run_sound in E as (s' & Hm & _). destruct (H s' Hm).
Qed.

End GreedyClass.

Lemma space_spec c :
  cset_mem c (Among [(9, 13); (32, 32); (133, 133); (160, 160); (5760, 5760);
                     (8192, 8202); (8232, 8233); (8239, 8239); (8287, 8287);
                     (12288, 12288)]) = true ->
  c <= 32 \/ 133 <= c.
Proof.
  unfold cset_mem, in_ranges, existsb, fst, snd.
  rewrite !orb_true_iff, !andb_true_iff, !Z.leb_le. lia.
Qed.

Section AssignmentLine.

Variables pre name value post : text.
Hypothesis name_ok : is_name name = true.
Hypothesis value_ok : free_of [NL] value = true.
Hypothesis pre_ok : pre = [] \/ last pre = Some NL.
Hypothesis post_ok : post = [] \/ head post = Some NL.

Local Abbreviation payload := (pre ++ assignment name value ++ post).
Local Abbreviation run := (run true payload).

Lemma line_lookup i :
  payload !! i =
  if decide (i < length pre)%nat then pre !! i
  else if decide (i < length pre + length name)%nat then name !! (i - length pre)%nat
  else if decide (i = length pre + length name)%nat then Some (rn "=")
  else if decide (i < length pre + length name + 1 + length value)%nat
       then value !! (i - (length pre + length name + 1))%nat
  else post !! (i - (length pre + length name + 1 + length value))%nat.
Proof.
  unfold assignment. rewrite <- !app_assoc. repeat case_decide.
  - rewrite lookup_app_l by lia. reflexivity.
  - rewrite lookup_app_r by lia. rewrite lookup_app_l by lia. reflexivity.
  - rewrite lookup_app_r by lia. rewrite lookup_app_r by lia. subst i.
    replace (length pre + length name - length pre - length name)%nat with O by lia.
    reflexivity.
  - rewrite lookup_app_r by lia. rewrite lookup_app_r by lia.
    rewrite lookup_app_r by (simpl; lia).
    rewrite lookup_app_l by (simpl; lia). f_equal. simpl. lia.
  - rewrite lookup_app_r by lia. rewrite lookup_app_r by lia.
    rewrite lookup_app_r by (simpl; lia).
    rewrite lookup_app_r by (simpl; lia). f_equal. simpl. lia.
Qed.

Lemma line_length :
  length payload = (length pre + (length name + 1 + length value) + length post)%nat.
Proof. unfold assignment. rewrite !length_app. simpl. lia. Qed.

Lemma assignment_length :
  length (assignment name value) = (length name + 1 + length value)%nat.
Proof. unfold assignment. rewrite !length_app. simpl. lia. Qed.

Local Ltac at_line k :=
  rewrite line_lookup; cbn [length] in *;
  repeat (case_decide; try lia);
  try match goal with |- context [?l !! ?n] => replace n with k by lia end.

(** The assignment pattern on the line: the name is all of [name], the
    value all of [value]. *)
Lemma envVar_on_line s k res :
  pos s = length pre ->
  k {| pos := length pre + length (assignment name value);
       caps := ("value"%string,
                (length pre + length name + 1,
                 length pre + length (assignment name value))%nat)
               :: ("name"%string, (length pre, length pre + length name)%nat)
               :: caps s |} = Some res ->
  run envVarPattern Fwd s k = Some res.
Proof.
  intros Hs Hk.
  destruct (is_name_inv _ name_ok) as (c & rest & Hn & Hc & Hrest).
  unfold envVarPattern. cbn [cat]. unfold paramName, chr, dot.
  rewrite run_seq_fwd, run_group, run_seq_fwd, run_chr_fwd.
  assert (H0 : payload !! pos s = Some c).
  { rewrite Hs. at_line O. rewrite Hn. reflexivity. rewrite Hn in *. simpl in *. lia. }
  rewrite H0.
  replace (cset_mem c (Among [rng "A" "Z"; rng "a" "z"; one "_"])) with true
    by (symmetry; exact Hc).
  rewrite run_star.
  apply greedy_class_loop with (j := length rest).
  - rewrite line_length, Hn. cbn [length]. lia.
  - intros i Hi. cbn [pos at_pos]. rewrite Hs.
    destruct (lookup_lt_is_Some_2 rest i Hi) as [x Hx].
    exists x. split; [|eapply Hrest; eauto].
    rewrite line_lookup, Hn. cbn [length].
    repeat (case_decide; try lia).
    replace (S (length pre) + i - length pre)%nat with (S i) by lia. exact Hx.
  - intros x. cbn [pos at_pos]. rewrite Hs.
    rewrite line_lookup, Hn. cbn [length].
    repeat (case_decide; try lia).
    intros Hx. inv Hx. reflexivity.
  - cbn beta. cbn [pos at_pos push caps].
    rewrite run_seq_fwd, run_chr_fwd. cbn [pos at_pos push caps].
    assert (He : payload !! (S (pos s) + length rest)%nat = Some (rn "=")).
    { rewrite Hs, line_lookup, Hn. cbn [length]. repeat (case_decide; try lia).
      reflexivity. }
    rewrite He.
    change (cset_mem (rn "=") (Among [one "="])) with true. cbn iota.
    rewrite run_group, run_star.
    apply greedy_class_loop with (j := length value).
    + rewrite line_length. lia.
    + intros i Hi. cbn [pos at_pos].
      destruct (lookup_lt_is_Some_2 value i Hi) as [x Hx].
      exists x. split.
      * rewrite Hs, line_lookup, Hn. cbn [length]. repeat (case_decide; try lia).
        rewrite <- Hx. f_equal. lia.
      * apply not_line_feed. intros ->.
        apply (free_of_lookup _ _ _ _ value_ok Hx). apply list_elem_of_here.
    + intros x. cbn [pos at_pos].
      rewrite Hs, line_lookup, Hn. cbn [length]. repeat (case_decide; try lia).
      match goal with |- context [post !! ?n] => replace n with O by lia end.
      destruct post_ok as [-> | Hp]; [discriminate|].
      destruct post as [|y post']; [discriminate|]. simpl in Hp. inv Hp.
      intros Hx. inv Hx. reflexivity.
    + cbn [pos at_pos push caps]. rewrite <- Hk. f_equal.
      unfold push, at_pos. cbn [pos caps].
      rewrite assignment_length, Hs, Hn. cbn [length].
      rewrite !Nat.min_l, !Nat.max_r by lia.
      replace (S (S (length pre) + length rest))
        with (length pre + S (length rest) + 1)%nat by lia.
      replace (length pre + S (length rest) + 1 + length value)%nat
        with (length pre + (S (length rest) + 1 + length value))%nat by lia.
      replace (S (length pre) + length rest)%nat
        with (length pre + S (length rest))%nat by lia.
      reflexivity.
Qed.

Lemma at_bol_line : at_bol true payload (length pre) = true.
Proof.
  destruct pre_ok as [-> | Hl]; [reflexivity|].
  apply last_Some in Hl as (pre' & ->).
  rewrite length_app. cbn [length]. rewrite Nat.add_1_r. cbn [at_bol andb].
  apply bool_decide_eq_true. rewrite <- !app_assoc.
  rewrite lookup_app_r by lia. rewrite Nat.sub_diag. reflexivity.
Qed.

(** The line does not start with the export prefix. *)
Lemma no_export s s' :
  pos s = length pre ->
  ~ Matches true payload (cat [lit "export"; space; Star Greedy space]) Fwd s s'.
Proof.
  intros Hs H. cbn [cat lit] in H. unfold space in H.
  repeat match goal with H : Matches _ _ (Seq _ _) Fwd _ _ |- _ => inv H end.
  match goal with H : Matches _ _ (Star _ _) Fwd _ _ |- _ => clear H end.
  repeat match goal with
  | H : Matches _ _ (chr _) Fwd _ _ |- _ => inv H
  | H : Matches _ _ (Chr _) Fwd _ _ |- _ => inv H
  end.
  repeat match goal with H : cset_mem _ (Among [one _]) = true |- _ =>
    apply cset_single in H; subst end.
  match goal with H : cset_mem _ _ = true |- _ => apply space_spec in H end.
  cbn [pos at_pos] in *. rewrite Hs in *.
  repeat match goal with H : payload !! _ = Some _ |- _ =>
    rewrite line_lookup in H; revert H end.
  pose proof (name_chars name 6 c5 name_ok) as Hc6.
  rewrite name_char_spec in Hc6.
  destruct name as [|n0 [|n1 [|n2 [|n3 [|n4 [|n5 [|n6 name']]]]]]];
    cbn [length] in *; try discriminate;
    repeat (case_decide; try lia); intros;
    repeat match goal with H : Some _ = Some _ |- _ => inv H end;
    try discriminate.
  - change (rn "=") with 61 in *. lia.
  - match goal with H : _ !! ?n = Some c5 |- _ =>
      replace n with 6%nat in H by lia; apply Hc6 in H end.
    lia.
Qed.

Lemma run_bol s (k : cont) :
  run Bol Fwd s k = if at_bol true payload (pos s) then k s else None.
Proof. reflexivity. Qed.

Lemma run_opt_greedy r s (k : cont) :
  run (Opt Greedy r) Fwd s k =
  match run r Fwd s k with Some res => Some res | None => k s end.
Proof. reflexivity. Qed.

(** At the start of the line both assignment patterns match the whole
    line. *)
Lemma line_match_at isFile :
  match_at true payload (line_shape isFile) (length pre)
  = Some (assignment_match (length pre) name value).
Proof.
  assert (Hrun : run (line_shape isFile) Fwd {| pos := length pre; caps := [] |} Some
                 = Some {| pos := length pre + length (assignment name value);
                           caps := Groups (assignment_match (length pre) name value) |}).
  { destruct isFile; unfold line_shape, envFileParserPattern, envParserPattern;
      cbn [cat]; rewrite run_seq_fwd, run_bol; cbn [pos]; rewrite at_bol_line.
    - rewrite run_seq_fwd, run_opt_greedy.
      rewrite run_None_any by (intros s'; apply no_export; reflexivity).
      apply envVar_on_line; reflexivity.
    - apply envVar_on_line; reflexivity. }
  unfold match_at. rewrite Hrun. unfold assignment_match. cbn [pos caps Groups].
  replace (length pre + length (assignment name value) - length pre)%nat
    with (length (assignment name value)) by lia.
  reflexivity.
Qed.

(** Where the line ends no assignment starts. *)
Lemma no_match_at_line_end isFile :
  match_at true payload (line_shape isFile) (length pre + length (assignment name value))
  = None.
Proof.
  destruct (match_at _ _ _ _) as [m|] eqn:Hm; [exfalso|reflexivity].
  assert (Hshape : shape_at isFile payload
                     (length pre + length (assignment name value)) = true)
    by (unfold shape_at; rewrite Hm; reflexivity).
  apply shape_at_line_start in Hshape as [H0 | (q & Hq & Hnl)].
  - rewrite assignment_length in H0. lia.
  - rewrite assignment_length in Hq.
    rewrite line_lookup in Hnl.
    destruct (is_name_inv _ name_ok) as (c & rest & Hn & Hc & Hrest).
    repeat (case_decide; try lia);
      first
        [ discriminate
        | apply (name_chars _ _ _ name_ok) in Hnl; apply name_char_spec in Hnl;
          unfold NL in Hnl; lia
        | apply (free_of_lookup _ _ _ _ value_ok) in Hnl;
          apply Hnl, list_elem_of_here ].
Qed.

End AssignmentLine.

Lemma scan_first ml input r p m : forall n start,
  (start <= p)%nat -> (p - start <= n)%nat ->
  (forall q, (start <= q < p)%nat -> match_at ml input r q = None) ->
  match_at ml input r p = Some m ->
  scan ml input r n start = Some m.
Proof.
  induction n as [|n IH]; intros start Hle Hn Hnone Hm.
  - assert (start = p) by lia. subst. simpl. rewrite Hm. reflexivity.
  - destruct (decide (start = p)) as [-> | Hne].
    + simpl. rewrite Hm. reflexivity.
    + simpl. rewrite Hnone by lia. apply IH; [lia | lia | | exact Hm].
      intros q Hq. apply Hnone. lia.
Qed.

Lemma literal_line_inv nv :
  literal_line nv = true ->
  is_name (fst nv) = true /\ free_of [NL] (snd nv) = true
  /\ free_of [SQ; DQ; BSL; DOLLAR] (snd nv) = true /\ 0 ∉ snd nv.
Proof.
  unfold literal_line. rewrite andb_true_iff. intros [Hn Hv].
  split; [exact Hn|]. split; [|split].
  - eapply free_of_weaken; [|exact Hv]. intros x. rewrite !elem_of_cons. tauto.
  - eapply free_of_weaken; [|exact Hv]. intros x. rewrite !elem_of_cons. tauto.
  - intros Hin. apply list_elem_of_lookup in Hin as (i & Hi).
    apply (free_of_lookup _ _ _ _ Hv Hi). apply list_elem_of_here.
Qed.

Lemma batch_cons nv rest :
  batch (nv :: rest)
  = assignment (fst nv) (snd nv)
      ++ match rest with [] => [] | _ :: _ => NL :: batch rest end.
Proof.
  unfold batch. destruct rest as [|nv' rest]; simpl; [rewrite app_nil_r|]; reflexivity.
Qed.

Lemma length_assignment name value :
  length (assignment name value) = (length name + 1 + length value)%nat.
Proof. unfold assignment. rewrite !length_app. simpl. lia. Qed.

(** The matches of the assignment patterns on a batch of literal lines:
    one for each line. *)
Lemma matches_from_batch isFile lines : forall pre fuel start,
  lines <> [] -> forallb literal_line lines = true ->
  (pre = [] \/ last pre = Some NL) ->
  (start <= length pre)%nat ->
  (forall q, (start <= q < length pre)%nat ->
     match_at true (pre ++ batch lines) (line_shape isFile) q = None) ->
  (length lines <= fuel)%nat ->
  matches_from true (pre ++ batch lines) (line_shape isFile) fuel start
  = batch_matches (length pre) lines.
Proof.
  induction lines as [|nv rest IH]; intros pre fuel start Hne Hall Hpre Hs Hnone Hfuel;
    [contradiction|].
  cbn [forallb] in Hall. apply andb_true_iff in Hall as [Hnv Hall].
  destruct (literal_line_inv _ Hnv) as (Hname & Hnl & _ & _).
  destruct fuel as [|fuel]; [simpl in Hfuel; lia|].
  rewrite batch_cons in *.
  set (post := match rest with [] => [] | _ :: _ => NL :: batch rest end) in *.
  assert (Hpost : post = [] \/ head post = Some NL).
  { subst post. destruct rest; [left | right]; reflexivity. }
  pose proof (line_match_at pre _ _ post Hname Hnl Hpre Hpost isFile) as Hm.
  pose proof (no_match_at_line_end pre _ _ post Hname Hnl isFile) as Hend.
  assert (Hlen : length (pre ++ assignment (fst nv) (snd nv) ++ post)
                 = (length pre + length (assignment (fst nv) (snd nv)) + length post)%nat)
    by (rewrite !length_app; lia).
  cbn [matches_from batch_matches].
  unfold find_from.
  rewrite (scan_first _ _ _ (length pre) (assignment_match (length pre) (fst nv) (snd nv)))
    by (try rewrite Hlen; try assumption; lia).
  f_equal. unfold next_start, assignment_match. cbn [Index Length].
  pose proof (length_assignment (fst nv) (snd nv)) as HL.
  replace (length (assignment (fst nv) (snd nv)) =? 0)%nat with false
    by (symmetry; apply Nat.eqb_neq; lia).
  destruct rest as [|nv' rest'].
  - subst post. cbn [batch_matches].
    destruct fuel as [|fuel]; [reflexivity|].
    cbn [matches_from]. unfold find_from.
    rewrite Hlen. cbn [length].
    replace (length pre + length (assignment (fst nv) (snd nv)) + 0
             - (length pre + length (assignment (fst nv) (snd nv))))%nat with O by lia.
    cbn [scan]. rewrite Hend. reflexivity.
  - subst post.
    replace (pre ++ assignment (fst nv) (snd nv) ++ NL :: batch (nv' :: rest'))
      with ((pre ++ assignment (fst nv) (snd nv) ++ [NL]) ++ batch (nv' :: rest')) in *
      by (rewrite <- !app_assoc; reflexivity).
    replace (length pre + length (assignment (fst nv) (snd nv)) + 1)%nat
      with (length (pre ++ assignment (fst nv) (snd nv) ++ [NL]))
      by (rewrite !length_app; simpl; lia).
    apply IH.
    + discriminate.
    + exact Hall.
    + right. rewrite !app_assoc. apply last_snoc.
    + rewrite !length_app. simpl. lia.
    + intros q Hq. rewrite !length_app in Hq. cbn [length] in Hq.
      assert (q = (length pre + length (assignment (fst nv) (snd nv)))%nat) as -> by lia.
      exact Hend.
    + simpl in Hfuel |- *. lia.
Qed.

Lemma line_parts (pre name value post : text) :
  slice (pre ++ assignment name value ++ post) (length pre) (length pre + length name)
  = name
  /\ slice (pre ++ assignment name value ++ post) (length pre + length name + 1)
           (length pre + length (assignment name value)) = value.
Proof.
  unfold slice, assignment. split.
  - rewrite drop_app_length. rewrite <- !app_assoc.
    apply take_app_length'. lia.
  - replace (pre ++ (name ++ str "=" ++ value) ++ post)
      with ((pre ++ name ++ str "=") ++ value ++ post)
      by (rewrite <- !app_assoc; reflexivity).
    rewrite drop_app_length' by (rewrite !length_app; simpl; lia).
    apply take_app_length'. rewrite !length_app. simpl. lia.
Qed.

Lemma setEnv_loop_batch lines : forall pre w,
  forallb literal_line lines = true ->
  setEnv_loop (pre ++ batch lines) (batch_matches (length pre) lines) w
  = (Ok tt, with_env (assigned lines) w).
Proof.
  induction lines as [|nv rest IH]; intros pre w Hall.
  - destruct w; reflexivity.
  - cbn [forallb] in Hall. apply andb_true_iff in Hall as [Hnv Hall].
    destruct (literal_line_inv _ Hnv) as (Hname & Hnl & Hlit & Hnul).
    rewrite batch_cons.
    set (post := match rest with [] => [] | _ :: _ => NL :: batch rest end).
    destruct (line_parts pre (fst nv) (snd nv) post) as [Pn Pv].
    cbn [batch_matches setEnv_loop]. unfold bind.
    unfold group_text, group_span, assignment_match.
    cbn [Groups last_capture String.eqb Ascii.eqb Bool.eqb fst snd].
    rewrite Pn, Pv.
    rewrite parserHandler_literal by exact Hlit.
    unfold Setenv. rewrite bool_decide_eq_false_2 by exact Hnul.
    destruct rest as [|nv' rest'].
    + subst post. cbn [batch_matches setEnv_loop]. unfold ret, assigned.
      destruct w; reflexivity.
    + subst post.
      replace (pre ++ assignment (fst nv) (snd nv) ++ NL :: batch (nv' :: rest'))
        with ((pre ++ assignment (fst nv) (snd nv) ++ [NL]) ++ batch (nv' :: rest'))
        by (rewrite <- !app_assoc; reflexivity).
      replace (length pre + length (assignment (fst nv) (snd nv)) + 1)%nat
        with (length (pre ++ assignment (fst nv) (snd nv) ++ [NL]))
        by (rewrite !length_app; simpl; lia).
      rewrite IH by exact Hall.
      unfold assigned. destruct w; reflexivity.
Qed.

Lemma length_batch lines : (length lines <= S (length (batch lines)))%nat.
Proof.
  induction lines as [|nv rest IH]; [simpl; lia|].
  rewrite batch_cons, length_app, length_assignment.
  destruct rest as [|nv' rest']; simpl in *; lia.
Qed.

Lemma setEnv_batch lines isFile w :
  lines <> [] -> forallb literal_line lines = true ->
  setEnv (batch lines) isFile w = (Ok tt, with_env (assigned lines) w).
Proof.
  intros Hne Hall.
  pose proof (matches_from_batch isFile lines [] (S (length (batch lines))) 0
                Hne Hall (or_introl eq_refl) (Nat.le_refl _)
                ltac:(intros q Hq; simpl in Hq; lia) (length_batch lines)) as Hms.
  cbn [app length] in Hms.
  assert (Hall' : FindAll (MustCompile (line_shape isFile) true) (batch lines)
                  = batch_matches 0 lines) by exact Hms.
  assert (Hfirst : exists m, FindRunesMatch (MustCompile (line_shape isFile) true)
                               (batch lines) = Some m).
  { destruct lines as [|nv rest]; [contradiction|].
    unfold FindRunesMatch. cbn [pattern Multiline].
    unfold FindAll, all_matches in Hall'. cbn [pattern Multiline matches_from] in Hall'.
    destruct (find_from true _ _ 0) as [m|]; [eauto | discriminate]. }
  destruct Hfirst as (m & Hfirst).
  unfold setEnv.
  replace (if isFile then MustCompile envFileParserPattern true
           else MustCompile envParserPattern true)
    with (MustCompile (line_shape isFile) true) by (destruct isFile; reflexivity).
  rewrite Hfirst, Hall'.
  apply (setEnv_loop_batch lines [] w Hall).
Qed.

(** X9.  A batch of lines [name=value], one for each line and joined by
    line feeds, whose names are names and whose values hold no quote,
    backslash, dollar sign, line feed or NUL, is accepted by [setEnv], from
    an env file as from the overrides: every line is assigned, in order,
    with its value as it is written, and nothing else changes. *)
Theorem setEnv_assigns_batch (lines : list (text * text)) (isFile : bool) (w : World) :
  lines <> [] -> forallb literal_line lines = true ->
  setEnv (batch lines) isFile w = (Ok tt, with_env (assigned lines) w).
Proof. apply setEnv_batch. Qed.

Lemma setEnv_assigns_batch_witness :
  batch [(str "FOO", str "bar"); (str "BAZ", []); (str "FOO", str "b a-z")]
  = str "FOO=bar" ++ [NL] ++ str "BAZ=" ++ [NL] ++ str "FOO=b a-z"
  /\ setEnv (batch [(str "FOO", str "bar"); (str "BAZ", []); (str "FOO", str "b a-z")])
            false no_world
     = (Ok tt,
        with_env (fun _ => <[str "FOO" := str "b a-z"]> (<[str "BAZ" := []]> ∅)) no_world).
Proof.
  split; [reflexivity|].
  rewrite (setEnv_assigns_batch
             [(str "FOO", str "bar"); (str "BAZ", []); (str "FOO", str "b a-z")]
             false no_world);
    [|discriminate | reflexivity].
  reflexivity.
Defined.

(** ** References *)

(** X10.  A braced reference with one of the six operators and a default
    expression that holds no dollar sign, closing brace or line feed
    resolves by the table of the operators: with [-] or [:-] to the value
    of the variable, or to the default expression when the variable is
    absent; with [+] or [:+] the other way round, the value of an absent
    variable being empty; with [?] or [:?] to the value, or to a failure
    whose message is the default expression.  The variable is absent when
    it is unset or, with a colon, set to the empty string. *)
Theorem operators_on_plain_defaults (env : Env) (name op d : text) :
  is_name name = true -> op ∈ operators -> plain d = true ->
  parseParam env (reference name op d) =
  let '(value, isSet) := LookupEnv env name in
  let colon := bool_decide (take 1 op = str ":") in
  let absent := negb isSet || (colon && bool_decide (value = [])) in
  if bool_decide (last op = Some (rn "+")) then
    if absent then Ok [] else Ok d
  else if absent then
    if bool_decide (last op = Some (rn "?")) then Panic d else Ok d
  else Ok value.
Proof.
  intros Hname Hop Hd.
  destruct (plain_reference_follows_operator env name op d Hname Hop Hd) as [-> Hemb].
  unfold by_operator. rewrite Hemb. unfold LookupEnv.
  destruct (env !! name) as [[|v0 v]|]; cbn [fail_with negb orb andb];
    repeat case_bool_decide; try reflexivity; try discriminate.
Qed.

Lemma operators_on_plain_defaults_witness :
  parseParam table_env (reference (str "BAZ") (str ":?") (str "no value"))
  = Panic (str "no value").
Proof.
  apply (operators_on_plain_defaults table_env (str "BAZ") (str ":?") (str "no value")).
  - reflexivity.
  - unfold operators. rewrite !elem_of_cons. tauto.
  - reflexivity.
Defined.

Lemma not_backslash c : c <> BSL -> cset_mem c (Among [(BSL, BSL)]) = false
                                    /\ cset_mem c (Except [(BSL, BSL)]) = true.
Proof.
  intros Hc. unfold cset_mem, in_ranges, existsb, fst, snd.
  rewrite orb_false_r.
  replace ((BSL <=? c) && (c <=? BSL)) with false; [split; reflexivity|].
  symmetry. apply andb_false_iff. rewrite !Z.leb_gt. lia.
Qed.

(** Where the text starts, or after a character that is not a backslash,
    the look-behind of the source holds. *)
Lemma unescaped_run ml input s k :
  (pos s = O \/ exists c, input !! (pos s - 1)%nat = Some c /\ c <> BSL) ->
  run ml input unescapedToken Fwd s k = k s.
Proof.
  intros H. destruct s as [p cs]. cbn [pos] in H.
  destruct p as [|q].
  - reflexivity.
  - destruct H as [H | (c & Hc & Hne)]; [discriminate|].
    cbn [Nat.sub] in Hc. rewrite Nat.sub_0_r in Hc.
    destruct (not_backslash c Hne) as [Hin Hout].
    unfold unescapedToken, Lookbehind.
    cbn [run]. rewrite star_loop_greedy_S.
    cbn [times_loop run step pos]. rewrite Hc, Hin.
    cbn [run step pos]. rewrite ?Hc, Hout. reflexivity.
Qed.

Lemma no_match_without_start chars r ml (input : text) p x :
  starts_at chars r -> input !! p = Some x -> x ∉ chars ->
  match_at ml input r p = None.
Proof.
  intros Hs Hx Hnot.
  destruct (match_at ml input r p) as [m|] eqn:Hm; [|reflexivity].
  apply match_at_inv in Hm as (s & Hm & _).
  apply Hs in Hm as (c & Hc & Hin). cbn [pos] in Hc.
  rewrite Hx in Hc. inv Hc. contradiction.
Qed.

Section BareReference.

Variables pre name post : text.
Hypothesis pre_ok : free_of [DOLLAR; BSL] pre = true.
Hypothesis name_ok : is_name name = true.
Hypothesis post_ok : forall x, head post = Some x -> cset_mem x name_char = false.

Local Abbreviation payload := (pre ++ DOLLAR :: name ++ post).

Lemma bare_lookup i :
  payload !! i =
  if decide (i < length pre)%nat then pre !! i
  else if decide (i = length pre) then Some DOLLAR
  else if decide (i < length pre + 1 + length name)%nat
       then name !! (i - (length pre + 1))%nat
  else post !! (i - (length pre + 1 + length name))%nat.
Proof.
  change (DOLLAR :: name ++ post) with ([DOLLAR] ++ name ++ post).
  repeat case_decide.
  - rewrite lookup_app_l by lia. reflexivity.
  - rewrite lookup_app_r by lia. subst. rewrite Nat.sub_diag. reflexivity.
  - rewrite lookup_app_r by lia. rewrite lookup_app_r by (simpl; lia).
    rewrite lookup_app_l by (simpl; lia). f_equal. simpl. lia.
  - rewrite lookup_app_r by lia. rewrite lookup_app_r by (simpl; lia).
    rewrite lookup_app_r by (simpl; lia). f_equal. simpl. lia.
Qed.

Lemma bare_found :
  FindRunesMatch paramFinderRegex payload
  = Some {| Index := length pre; Length := S (length name);
            Groups := [("bare"%string, (S (length pre), S (length pre) + length name)%nat)] |}.
Proof.
  destruct (is_name_inv _ name_ok) as (c & rest & Hn & Hc & Hrest).
  assert (Hrun : run false payload paramFinderPattern Fwd
                   {| pos := length pre; caps := [] |} Some
                 = Some {| pos := S (length pre) + length name;
                           caps := [("bare"%string,
                                     (S (length pre), S (length pre) + length name)%nat)] |}).
  { unfold paramFinderPattern. rewrite run_alt. cbn [cat].
    rewrite run_seq_fwd, unescaped_run.
    2:{ cbn [pos]. destruct pre as [|y pre'] eqn:Hpre using rev_ind; [left; reflexivity|].
        right. exists y. rewrite length_app. cbn [length].
        replace (length pre' + 1 - 1)%nat with (length pre') by lia.
        split.
        - rewrite <- app_assoc. rewrite lookup_app_r by lia.
          rewrite Nat.sub_diag. reflexivity.
        - intros ->. rewrite free_of_app in pre_ok.
          apply andb_true_iff in pre_ok as [_ Hy]. vm_compute in Hy. discriminate. }
    unfold chDollar. rewrite run_seq_fwd, run_chr_fwd. cbn [pos].
    rewrite bare_lookup. repeat (case_decide; try lia).
    change (cset_mem DOLLAR (Among [(DOLLAR, DOLLAR)])) with true. cbn iota.
    unfold paramName. rewrite run_group, run_seq_fwd, run_chr_fwd. cbn [pos at_pos].
    rewrite bare_lookup, Hn. cbn [length]. repeat (case_decide; try lia).
    replace (S (length pre) - (length pre + 1))%nat with O by lia. cbn [lookup list_lookup].
    replace (cset_mem c (Among [rng "A" "Z"; rng "a" "z"; one "_"])) with true
      by (symmetry; exact Hc).
    rewrite run_star.
    rewrite <- Hn.
    replace (S (length pre) + length name)%nat
      with (S (length pre) + S (length rest))%nat by (rewrite Hn; simpl; lia).
    rewrite (greedy_class_loop false payload _ _
               {| pos := S (length pre) + S (length rest);
                  caps := [("bare"%string,
                            (S (length pre), S (length pre) + S (length rest))%nat)] |}
               (length rest)); [reflexivity| | | |].
    - rewrite length_app. cbn [length]. rewrite length_app, Hn. cbn [length]. lia.
    - intros i Hi. cbn [pos at_pos].
      destruct (lookup_lt_is_Some_2 rest i Hi) as [x Hx].
      exists x. split; [|eapply Hrest; eauto].
      rewrite bare_lookup, Hn. cbn [length]. repeat (case_decide; try lia).
      replace (S (S (length pre)) + i - (length pre + 1))%nat with (S i) by lia.
      exact Hx.
    - intros x. cbn [pos at_pos].
      rewrite bare_lookup, Hn. cbn [length]. repeat (case_decide; try lia).
      replace (S (S (length pre)) + length rest - (length pre + 1 + S (length rest)))%nat
        with O by lia.
      intros Hx. apply post_ok. destruct post; [discriminate|]. exact Hx.
    - cbn [pos at_pos push caps]. unfold push, at_pos. cbn [pos caps].
      rewrite Nat.min_l, Nat.max_r by lia.
      replace (S (S (length pre)) + length rest)%nat
        with (S (length pre) + S (length rest))%nat by lia.
      reflexivity. }
  assert (Hm : match_at false payload paramFinderPattern (length pre)
               = Some {| Index := length pre; Length := S (length name);
                         Groups := [("bare"%string,
                                     (S (length pre), S (length pre) + length name)%nat)] |}).
  { unfold match_at. rewrite Hrun. cbn [pos caps].
    replace (S (length pre) + length name - length pre)%nat with (S (length name)) by lia.
    reflexivity. }
  unfold FindRunesMatch, find_from. cbn [pattern Multiline paramFinderRegex].
  apply scan_first with (p := length pre);
    [lia | rewrite length_app; lia | | exact Hm].
  intros q Hq.
  destruct (lookup_lt_is_Some_2 pre q ltac:(lia)) as [x Hx].
  apply (no_match_without_start [DOLLAR] _ _ _ _ x finder_starts).
  - rewrite lookup_app_l by lia. exact Hx.
  - intros Hin. apply list_elem_of_singleton in Hin as ->.
    apply (free_of_lookup _ _ _ _ pre_ok Hx). apply list_elem_of_here.
Qed.

End BareReference.

Lemma bare_parts (pre name post : text) :
  slice (pre ++ DOLLAR :: name ++ post) (S (length pre)) (S (length pre) + length name)
  = name
  /\ take (length pre) (pre ++ DOLLAR :: name ++ post) = pre
  /\ drop (length pre + S (length name)) (pre ++ DOLLAR :: name ++ post) = post.
Proof.
  unfold slice. repeat split.
  - replace (pre ++ DOLLAR :: name ++ post) with ((pre ++ [DOLLAR]) ++ name ++ post)
      by (rewrite <- app_assoc; reflexivity).
    rewrite drop_app_length' by (rewrite length_app; simpl; lia).
    apply take_app_length'. lia.
  - apply take_app_length.
  - replace (pre ++ DOLLAR :: name ++ post) with ((pre ++ [DOLLAR] ++ name) ++ post)
      by (rewrite <- !app_assoc; reflexivity).
    apply drop_app_length'. rewrite !length_app. simpl. lia.
Qed.

(** X11.  A bare reference [$name] resolves to the value of its variable,
    the empty string when the variable is unset, and the text around it
    stays: the text before it holding no dollar sign and no backslash, and
    the text after it not going on with a character of a name. *)
Theorem bare_reference_resolves (env : Env) (pre name post : text) :
  free_of [DOLLAR; BSL] pre = true -> is_name name = true ->
  (forall x, head post = Some x -> cset_mem x name_char = false) ->
  parseParam env (pre ++ DOLLAR :: name ++ post)
  = Ok (pre ++ default [] (env !! name) ++ post).
Proof.
  intros Hpre Hname Hpost.
  destruct (bare_parts pre name post) as (Pn & Ppre & Ppost).
  rewrite parseParam_unfold. unfold parseParam_with, referenceValue_with.
  rewrite (bare_found pre name post Hpre Hname Hpost).
  unfold group_length, group_text, group_span.
  cbn [Groups last_capture String.eqb Ascii.eqb Bool.eqb fst snd Index Length].
  replace (0 <? S (length pre) + length name - S (length pre))%nat with true.
  - rewrite Pn, Ppre, Ppost. cbn [obind].
    unfold Getenv, LookupEnv. destruct (env !! name); reflexivity.
  - symmetry. apply Nat.ltb_lt.
    destruct (is_name_inv _ Hname) as (c & rest & -> & _). simpl. lia.
Qed.

Lemma bare_reference_witness :
  parseParam table_env (str "say " ++ DOLLAR :: str "FOO" ++ str ", twice")
  = Ok (str "say foo, twice").
Proof.
  apply (bare_reference_resolves table_env (str "say ") (str "FOO") (str ", twice")).
  - reflexivity.
  - reflexivity.
  - intros x Hx. inv Hx. reflexivity.
Defined.

Lemma braced_reference name t : braced name t = reference name t [].
Proof. reflexivity. Qed.

Section BracedTail.

Variables name t : text.
Hypothesis name_ok : is_name name = true.
Hypothesis t_ok : free_of [DOLLAR; rn "}"] t = true.
Hypothesis t_head : forall x, head t = Some x -> cset_mem x name_char = false.

Local Abbreviation ref := (reference name t []).
Local Abbreviation run := (run false ref).

Lemma tail_plain i :
  (i < length t)%nat ->
  exists x, ref !! (2 + length name + i)%nat = Some x /\ x <> DOLLAR /\ x <> rn "}".
Proof.
  intros Hi. rewrite reference_lookup.
  repeat (case_decide; try lia).
  destruct (lookup_lt_is_Some_2 t (2 + length name + i - (2 + length name))%nat)
    as [x Hx]; [lia|].
  exists x. split; [exact Hx|].
  pose proof (free_of_lookup _ _ _ _ t_ok Hx) as Hnot.
  rewrite !elem_of_cons, elem_of_nil in Hnot. tauto.
Qed.

Lemma after_name x :
  ref !! (2 + length name)%nat = Some x -> cset_mem x name_char = false.
Proof.
  rewrite reference_lookup. cbn [length].
  repeat (case_decide; try lia).
  - replace (2 + length name - (2 + length name))%nat with O by lia.
    intros Hx. apply t_head. destruct t; [discriminate | exact Hx].
  - replace (2 + length name + length t + 0)%nat with (2 + length name + length t)%nat
      by lia.
    match goal with |- context [?l !! ?n] => replace n with O by lia end.
    intros Hx. inv Hx. reflexivity.
Qed.

Lemma closing_brace : ref !! (2 + length name + length t)%nat = Some (rn "}").
Proof.
  rewrite reference_lookup. cbn [length].
  repeat (case_decide; try lia).
  match goal with |- context [?l !! ?n] => replace n with O by lia end.
  reflexivity.
Qed.

(** The finder takes the whole reference, as a braced reference to
    [name]. *)
Lemma finder_on_braced :
  FindRunesMatch paramFinderRegex ref =
  Some {| Index := 0; Length := length ref;
          Groups := [("braced"%string, (2, 2 + length name)%nat)] |}.
Proof.
  destruct (is_name_inv _ name_ok) as (c & rest & Hn & Hc & Hrest).
  assert (H0 : ref !! 0%nat = Some DOLLAR) by reflexivity.
  assert (H1 : ref !! 1%nat = Some (rn "{")) by reflexivity.
  assert (H2 : ref !! 2%nat = Some c).
  { rewrite reference_lookup. rewrite Hn. reflexivity. }
  assert (Hrun : run paramFinderPattern Fwd {| pos := 0; caps := [] |} Some
                 = Some {| pos := length ref;
                           caps := [("braced"%string, (2, 2 + length name)%nat)] |}).
  { unfold paramFinderPattern. rewrite run_alt.
    rewrite run_None.
    2:{ intros s' H. cbn [cat] in H. apply unescaped_then_inv in H as (s1 & Hp & H).
        simpl in Hp. inv H.
        match goal with H : Matches _ _ chDollar Fwd _ _ |- _ => inv H end.
        match goal with H : Matches _ _ (Group _ _) Fwd _ _ |- _ => inv H end.
        match goal with H : Matches _ _ paramName Fwd _ _ |- _ => inv H end.
        match goal with H : Matches _ _ (Chr _) Fwd _ _ |- _ => inv H end.
        cbn [pos at_pos] in *.
        match goal with H : _ !! S (pos s1) = Some ?x |- _ =>
          rewrite Hp, H1 in H; inv H end. }
    unfold bracedParam. cbn [cat lit].
    rewrite !run_seq_fwd, unescaped_at_start.
    rewrite !run_seq_fwd.
    unfold chr.
    rewrite run_chr_fwd. cbn [pos at_pos]. rewrite H0.
    change (cset_mem DOLLAR (Among [one "$"])) with true. cbn iota.
    rewrite run_chr_fwd. cbn [pos at_pos]. rewrite H1.
    change (cset_mem (rn "{") (Among [one "{"])) with true. cbn iota.
    rewrite run_group. unfold paramName. rewrite run_seq_fwd, run_chr_fwd.
    cbn [pos at_pos]. rewrite H2.
    replace (cset_mem c (Among [rng "A" "Z"; rng "a" "z"; one "_"])) with true
      by (symmetry; exact Hc).
    rewrite run_star.
    apply star_class_greedy with (j := length rest).
    - rewrite reference_length, Hn. cbn [length]. lia.
    - intros i Hi. cbn [pos at_pos].
      destruct (lookup_lt_is_Some_2 rest i Hi) as [x Hx].
      exists x. split; [|eapply Hrest; eauto].
      rewrite reference_lookup, Hn. cbn [length].
      repeat (case_decide; try lia).
      replace (3 + i - 2)%nat with (S i) by lia. exact Hx.
    - intros x Hx. cbn [pos at_pos] in Hx.
      apply after_name.
      rewrite <- Hx. f_equal. rewrite Hn. simpl. lia.
    - cbn beta. rewrite run_seq_fwd, run_star.
      etransitivity.
      + apply brace_loop_plain with (m := length t).
        * rewrite reference_length. lia.
        * intros i Hi. cbn [pos at_pos push].
          replace (3 + length rest + i)%nat with (2 + length name + i)%nat
            by (rewrite Hn; simpl; lia).
          apply tail_plain. exact Hi.
        * cbn [pos at_pos push].
          replace (3 + length rest + length t)%nat
            with (2 + length name + length t)%nat by (rewrite Hn; simpl; lia).
          apply closing_brace.
        * reflexivity.
      + cbn [pos at_pos push caps]. unfold at_pos. cbn [caps].
        rewrite reference_length, Hn. cbn [length].
        unfold push. cbn [caps].
        rewrite Nat.min_l, Nat.max_r by lia.
        repeat f_equal; lia. }
  unfold FindRunesMatch, find_from.
  cbn [pattern Multiline paramFinderRegex].
  assert (Hm : match_at false ref paramFinderPattern 0 =
               Some {| Index := 0; Length := length ref;
                       Groups := [("braced"%string, (2, 2 + length name)%nat)] |}).
  { unfold match_at. rewrite Hrun. cbn [pos caps]. rewrite Nat.sub_0_r. reflexivity. }
  destruct (length ref - 0)%nat; simpl; rewrite Hm; reflexivity.
Qed.

Hypothesis t_op : starts_with_operator t = false.

Lemma dollar_only_at_start p : ref !! p = Some DOLLAR -> p = O.
Proof.
  rewrite reference_lookup. cbn [length].
  repeat case_decide.
  - destruct p as [|[|p]]; [reflexivity | discriminate | lia].
  - intros Hx. apply (name_chars _ _ _ name_ok), name_char_spec in Hx.
    unfold DOLLAR in Hx. lia.
  - intros Hx. apply (free_of_lookup _ _ _ _ t_ok) in Hx.
    exfalso. apply Hx, list_elem_of_here.
  - lia.
  - intros Hx. apply list_elem_of_lookup_2, list_elem_of_singleton in Hx. discriminate.
Qed.

(** The parser pattern, where it matches the reference, captures no
    operator and no default expression. *)
Lemma parser_defaults_empty pm :
  FindRunesMatch paramParserRegex ref = Some pm -> group_length pm "defaults" = O.
Proof.
  unfold FindRunesMatch. cbn [pattern Multiline paramParserRegex]. intros H.
  apply find_from_bounds in H as (_ & _ & H); [|lia].
  apply match_at_inv in H as (s & Hm & Hpm & _).
  rewrite Hpm. generalize dependent (Index pm). intros p Hm _. clear pm.
  unfold group_length, group_span. cbn [Groups].
  unfold paramParserPattern, paramName in Hm. cbn [cat lit] in Hm.
  repeat match goal with
  | H : Matches _ _ (Seq _ _) Fwd _ _ |- _ => inv H
  end.
  repeat match goal with
  | H : Matches _ _ (chr _) Fwd _ _ |- _ => inv H
  | H : Matches _ _ (Chr _) Fwd _ _ |- _ => inv H
  end.
  match goal with H : Matches _ _ Eol _ _ _ |- _ => inv H end.
  match goal with H : Matches _ _ (Star _ _) _ _ _ |- _ =>
    apply star_class_inv in H as (j & Hj & Hcj & Hall) end.
  repeat match goal with H : cset_mem _ (Among [one _]) = true |- _ =>
    apply cset_single in H; subst end.
  cbn [pos at_pos caps] in *.
  match goal with H : ref !! p = Some (rn "$") |- _ =>
    apply dollar_only_at_start in H; subst p end.
  assert (Hname : (3 + j <= 2 + length name)%nat).
  { destruct (decide (3 + j <= 2 + length name)%nat) as [|Hn]; [assumption|].
    pose proof (name_not_empty name name_ok).
    destruct (Hall (length name - 1)%nat) as (x & Hx & Hxm); [lia|].
    replace (3 + (length name - 1))%nat with (2 + length name)%nat in Hx by lia.
    apply after_name in Hx.
    change (cset_mem x name_char = true) in Hxm. congruence. }
  clear Hall.
  inv H2; [rewrite Hcj; reflexivity|]. exfalso.
  repeat match goal with
  | H : Matches _ _ (Group _ _) Fwd _ _ |- _ => inv H
  | H : Matches _ _ (Seq _ _) Fwd _ _ |- _ => inv H
  end.
  match goal with H : Matches _ _ (Star _ _) _ _ _ |- _ => clear H end.
  match goal with H : Matches _ _ paramDefaults _ _ _ |- _ =>
    unfold paramDefaults in H end.
  repeat match goal with
  | H : Matches _ _ (Group _ _) Fwd _ _ |- _ => inv H
  | H : Matches _ _ (Seq _ _) Fwd _ _ |- _ => inv H
  end.
  match goal with H : Matches _ _ (Chr _) Fwd _ _ |- _ => inv H end.
  match goal with H : cset_mem _ (Among [one "-"; _; _]) = true |- _ =>
    apply operation_char_spec in H; rename H into Hoc end.
  match goal with H : Matches _ _ (Opt _ _) Fwd ?sa ?sb |- _ =>
    assert (Hcolon : sb = sa
                     \/ (ref !! pos sa = Some 58 /\ sb = at_pos (S (pos sa)) sa));
    [ inv H; [left; reflexivity|]; right;
      match goal with H' : Matches _ _ (chr _) Fwd _ _ |- _ => inv H' end;
      match goal with H' : cset_mem _ _ = true |- _ => apply cset_single in H'; subst end;
      split; [assumption | reflexivity]
    | clear H ]
  end.
  match goal with H : at_eol _ _ _ = true |- _ => clear H end.
  match goal with H : ref !! _ = Some (rn "}") |- _ => clear H end.
  assert (Hin : forall q x, (2 <= q < 2 + length name)%nat -> ref !! q = Some x ->
                            x <> 58 /\ x <> 45 /\ x <> 43 /\ x <> 63).
  { intros q x Hq Hx. apply (in_name_part name t [] name_ok _ _ Hq) in Hx.
    apply name_char_spec in Hx. lia. }
  assert (Hafter : forall x, ref !! (2 + length name)%nat = Some x ->
                             (t !! O = Some x) \/ (t = [] /\ x = rn "}")).
  { intros x. rewrite reference_lookup. cbn [length].
    repeat (case_decide; try lia).
    - replace (2 + length name - (2 + length name))%nat with O by lia. auto.
    - intros Hx. right. split; [destruct t; [reflexivity | simpl in *; lia]|].
      apply list_elem_of_lookup_2, list_elem_of_singleton in Hx. exact Hx. }
  assert (Hfirst : forall x, ref !! pos s2 = Some x ->
                             x = 58 \/ x = 45 \/ x = 43 \/ x = 63 ->
                             pos s2 = (2 + length name)%nat /\ t !! O = Some x).
  { intros x Hx Hxo.
    assert (Ha : pos s2 = (2 + length name)%nat).
    { destruct (decide (pos s2 = 2 + length name)%nat) as [|Hn]; [assumption|].
      destruct (Hin (pos s2) x ltac:(lia) Hx). lia. }
    split; [exact Ha|]. rewrite Ha in Hx.
    destruct (Hafter _ Hx) as [? | [_ ->]]; [assumption|].
    change (rn "}") with 125 in Hxo. lia. }
  destruct Hcolon as [-> | [Hc58 ->]]; cbn [pos at_pos] in *.
  - destruct (Hfirst _ H2 ltac:(tauto)) as [_ Ht].
    destruct t as [|x t']; [discriminate|]. cbn in Ht. inv Ht.
    cbn [starts_with_operator] in t_op.
    rewrite bool_decide_eq_true_2 in t_op; [discriminate|].
    rewrite !elem_of_cons. change (rn "-") with 45. change (rn "+") with 43.
    change (rn "?") with 63. tauto.
  - destruct (Hfirst _ Hc58 ltac:(tauto)) as [Ha Ht].
    destruct t as [|x t']; [discriminate|]. cbn in Ht. inv Ht.
    rewrite Ha in H2.
    rewrite reference_lookup in H2. cbn [length] in H2.
    repeat (case_decide; try lia).
    + replace (S (2 + length name) - (2 + length name))%nat with 1%nat in H2 by lia.
      destruct t' as [|y t'']; [discriminate|]. cbn in H2. inv H2.
      cbn [starts_with_operator] in t_op.
      rewrite bool_decide_eq_false_2 in t_op
        by (rewrite !elem_of_cons, elem_of_nil; intros [? | [? | [? | []]]]; discriminate).
      rewrite bool_decide_eq_true_2 in t_op by reflexivity.
      rewrite bool_decide_eq_true_2 in t_op; [discriminate|].
      rewrite !elem_of_cons. change (rn "-") with 45. change (rn "+") with 43.
      change (rn "?") with 63. tauto.
    + apply list_elem_of_lookup_2, list_elem_of_singleton in H2.
      change (rn "}") with 125 in H2. lia.
Qed.

End BracedTail.

(** X12.  A braced reference whose content after the name is empty, or
    holds no dollar sign and no closing brace and starts with something
    that is neither a character of a name nor one of the six operators,
    resolves to the value of its variable, the empty string when the
    variable is unset: the content after the name is dropped. *)
Theorem reference_without_operator (env : Env) (name t : text) :
  is_name name = true -> free_of [DOLLAR; rn "}"] t = true ->
  (forall x, head t = Some x -> cset_mem x name_char = false) ->
  starts_with_operator t = false ->
  parseParam env (braced name t) = Ok (default [] (env !! name)).
Proof.
  intros Hname Ht Hhead Hop. rewrite braced_reference.
  destruct (reference_parts name t []) as (Pname & _ & _ & Pall).
  rewrite parseParam_unfold. unfold parseParam_with, referenceValue_with.
  rewrite (finder_on_braced name t Hname Ht Hhead).
  unfold group_length, group_text, group_span, match_text.
  cbn [Groups last_capture String.eqb Ascii.eqb Bool.eqb fst snd Index Length].
  rewrite Pname, Pall.
  replace (0 <? 2 + length name - 2)%nat with true
    by (symmetry; apply Nat.ltb_lt; destruct (is_name_inv _ Hname) as (c & rest & -> & _);
        simpl; lia).
  cbn [Nat.sub Nat.ltb Nat.leb].
  assert (Hvalue : Getenv env name = default [] (env !! name)).
  { unfold Getenv, LookupEnv. destruct (env !! name); reflexivity. }
  rewrite drop_ge by lia. cbn [take app].
  destruct (FindRunesMatch paramParserRegex (reference name t [])) as [pm|] eqn:Hpm.
  - apply (parser_defaults_empty name t Hname Ht Hhead Hop) in Hpm.
    unfold group_length, group_span in Hpm. rewrite Hpm.
    cbn [Nat.ltb Nat.leb obind]. rewrite app_nil_r, Hvalue. reflexivity.
  - cbn [obind]. rewrite app_nil_r, Hvalue. reflexivity.
Qed.

Lemma reference_without_operator_witness :
  parseParam table_env (braced (str "FOO") (str "%%.txt")) = Ok (str "foo").
Proof.
  apply (reference_without_operator table_env (str "FOO") (str "%%.txt")).
  - reflexivity.
  - reflexivity.
  - intros x Hx. inv Hx. reflexivity.
  - reflexivity.
Defined.

(** ** What an expansion call writes *)

Lemma Fprint_nil out w : Fprint out [] w = (Ok tt, w).
Proof.
  unfold Fprint. f_equal. destruct out as [|path].
  - unfold with_stdout. rewrite app_nil_r. destruct w; reflexivity.
  - unfold with_files. rewrite alter_id by (intros x _; apply app_nil_r).
    destruct w; reflexivity.
Qed.

Lemma Fprint_app out (s1 s2 : text) w :
  Fprint out (s1 ++ s2) w = Fprint out s2 (snd (Fprint out s1 w)).
Proof.
  unfold Fprint. f_equal. destruct out as [|path]; cbn [snd].
  - unfold with_stdout. cbn. rewrite app_assoc. reflexivity.
  - unfold with_files. cbn. f_equal.
    rewrite alter_alter_eq. apply alter_ext. intros x _. cbn. apply app_assoc.
Qed.

(** The loop of [GetOutput] never fails, and writes the expansion. *)
Lemma output_loop_writes config payload values out params : forall firstIndex w,
  output_loop config payload values out params firstIndex w
  = Fprint out (expansion (preserve config) payload values params firstIndex) w.
Proof.
  induction params as [|param rest IH]; intros firstIndex w; [reflexivity|].
  cbn [output_loop expansion]. rewrite !bind_assoc_run.
  rewrite !Fprint_app.
  assert (H1 : (if bool_decide (fst (ParamPosition param) ≠ firstIndex)
                then Fprint out (slice payload firstIndex (fst (ParamPosition param)))
                else ret tt) w
               = Fprint out (if bool_decide (fst (ParamPosition param) ≠ firstIndex)
                             then slice payload firstIndex (fst (ParamPosition param))
                             else []) w).
  { case_bool_decide; [reflexivity|]. rewrite Fprint_nil. reflexivity. }
  rewrite H1.
  destruct (Fprint out (if bool_decide _ then _ else _) w) as [o1 w1] eqn:E1.
  assert (o1 = Ok tt) as -> by (unfold Fprint in E1; inv E1; reflexivity).
  cbn [snd].
  assert (H2 : (if bool_decide (length (default [] (values !! Id param)) = 0%nat)
                   && preserve config
                then Fprint out (Id param)
                else Fprint out (default [] (values !! Id param))) w1
               = Fprint out
                   (if bool_decide (length (default [] (values !! Id param)) = 0%nat)
                       && preserve config
                    then Id param else default [] (values !! Id param)) w1).
  { destruct (_ && _); reflexivity. }
  rewrite bind_assoc_run, H2.
  destruct (Fprint out (if _ && _ then _ else _) w1) as [o2 w2] eqn:E2.
  assert (o2 = Ok tt) as -> by (unfold Fprint in E2; inv E2; reflexivity).
  cbn [snd]. apply IH.
Qed.

Section Compositor.

Variable MarshalIndent : list ParamJson -> text.

Lemma mapperHandler_world params w : snd (mapperHandler params w) = w.
Proof. apply mapParamValues_loop_world. Qed.

(** X13.  A call of [GetOutput] that fails has written nothing: neither
    a file nor the standard output has changed, whether the failure comes
    from reading the document or an env file, from an assignment, or from
    a reference that fails to resolve. *)
Theorem GetOutput_fails_without_writing (config : Config) (w w' : World) (msg : text) :
  GetOutput MarshalIndent config w = (Panic msg, w') -> written w' = written w.
Proof.
  intros H. rewrite GetOutput_halves, bind_assoc_run in H.
  pose proof (quiet_discover config w) as Hq.
  destruct (discover config w) as [[[payload params]| |] w1]; cbn [snd fst] in *.
  - unfold compose in H.
    destruct (list_ config); [unfold Print, Fprint in H; discriminate|].
    destruct (0 <? length params)%nat.
    + rewrite bind_assoc_run in H.
      pose proof (mapperHandler_world params w1) as Hw.
      destruct (mapperHandler params w1) as [[values| |] w2]; cbn [snd] in Hw; subst w2.
      * rewrite bind_assoc_run in H.
        destruct (editInPlace config); cbn in H;
          rewrite output_loop_writes in H; unfold Fprint in H; discriminate.
      * assert (w1 = w') by congruence. subst. exact Hq.
      * discriminate.
    + destruct (negb (editInPlace config));
        [unfold Print, Fprint in H | unfold ret in H]; discriminate.
  - assert (w1 = w') by congruence. subst. exact Hq.
  - discriminate.
Qed.

End Compositor.

Lemma GetOutput_fails_without_writing_witness :
  GetOutput (fun _ => []) missing_document_config no_world
  = (Panic (str "open nope.txt: no such file or directory"), no_world)
  /\ written no_world = written no_world.
Proof.
  split; [vm_compute; reflexivity|].
  apply (GetOutput_fails_without_writing (fun _ => []) missing_document_config
           no_world no_world (str "open nope.txt: no such file or directory")).
  vm_compute. reflexivity.
Defined.

Section CompositorTarget.

Variable MarshalIndent : list ParamJson -> text.

Lemma Fprint_stdout_effect s w :
  w_files (snd (Fprint Stdout s w)) = w_files w
  /\ w_stdout (snd (Fprint Stdout s w)) = w_stdout w ++ s.
Proof. split; reflexivity. Qed.

Lemma Fprint_file_effect path s w :
  w_stdout (snd (Fprint (File path) s w)) = w_stdout w
  /\ w_files (snd (Fprint (File path) s w)) = alter (fun c => c ++ s) path (w_files w).
Proof. split; reflexivity. Qed.

(** X14.  [GetOutput] writes only where it is told to.  It changes no
    file but the document, and the document only when it edits in place
    and does not list; when it edits in place and does not list, the
    standard output stays as it is; otherwise the standard output is only
    added to. *)
Theorem GetOutput_writes_only_its_target (config : Config) (w : World) :
  let w' := snd (GetOutput MarshalIndent config w) in
  (forall path, path <> file config -> w_files w' !! path = w_files w !! path)
  /\ (editInPlace config = false \/ list_ config = true -> w_files w' = w_files w)
  /\ (editInPlace config = true /\ list_ config = false -> w_stdout w' = w_stdout w)
  /\ exists s, w_stdout w' = w_stdout w ++ s.
Proof.
  cbn zeta. rewrite GetOutput_halves, bind_assoc_run.
  pose proof (quiet_discover config w) as Hq.
  destruct (discover config w) as [[[payload params]| |] w1]; cbn [snd fst] in *;
    unfold written in Hq; injection Hq as Hf Ho.
  2,3: rewrite Hf, Ho; repeat split; auto; exists []; rewrite app_nil_r; reflexivity.
  unfold compose.
  destruct (list_ config) eqn:Hlist.
  { unfold Print. destruct (Fprint_stdout_effect (listParams MarshalIndent params) w1)
      as [Ef Es].
    rewrite Ef, Es, Hf, Ho. repeat split; auto.
    - intros [_ Hx]. discriminate.
    - eauto. }
  destruct (0 <? length params)%nat.
  - rewrite bind_assoc_run.
    pose proof (mapperHandler_world params w1) as Hw.
    destruct (mapperHandler params w1) as [[values| |] w2]; cbn [snd] in Hw; subst w2.
    2,3: cbn [snd]; rewrite Hf, Ho; repeat split; auto; exists [];
      rewrite app_nil_r; reflexivity.
    rewrite bind_assoc_run.
    destruct (editInPlace config) eqn:Hedit; cbn [Create ret]; rewrite output_loop_writes.
    + destruct (Fprint_file_effect (file config)
                  (expansion (preserve config) payload values params 0)
                  (with_files (insert (file config) []) w1)) as [Es Ef].
      rewrite Es, Ef. cbn [with_files w_files w_stdout]. rewrite Hf, Ho.
      repeat split.
      * intros path Hne. rewrite lookup_alter_ne by congruence.
        apply lookup_insert_ne. congruence.
      * intros [Hx | Hx]; discriminate.
      * exists []. rewrite app_nil_r. reflexivity.
    + destruct (Fprint_stdout_effect
                  (expansion (preserve config) payload values params 0) w1) as [Ef Es].
      rewrite Ef, Es, Hf, Ho. repeat split; auto.
      * intros [Hx _]. discriminate.
      * eauto.
  - destruct (editInPlace config) eqn:Hedit; cbn [negb].
    + cbn [ret snd]. rewrite Hf, Ho. repeat split; auto.
      exists []. rewrite app_nil_r. reflexivity.
    + unfold Print. destruct (Fprint_stdout_effect payload w1) as [Ef Es].
      rewrite Ef, Es, Hf, Ho. repeat split; auto.
      * intros [Hx _]. discriminate.
      * eauto.
Qed.

End CompositorTarget.





Section Preserve.

Variable MarshalIndent : list ParamJson -> text.


End Preserve.


(** ** The command line *)

Lemma IndexByte_lower (s : text) (c : rune) : -1 <= IndexByte s c.
Proof.
  induction s as [|x s IH]; cbn [IndexByte]; [lia|].
  case_bool_decide; [lia|].
  destruct (Z.ltb_spec (IndexByte s c) 0); lia.
Qed.

(** The flag of an argument is what stands before its first [=]. *)
Lemma flag_before (arg : text) :
  (if -1 <? IndexByte arg EQ then take (Z.to_nat (IndexByte arg EQ)) arg else arg)
  = before EQ arg.
Proof.
  induction arg as [|x s IH]; cbn [IndexByte before]; [reflexivity|].
  case_bool_decide as Hx; [reflexivity|].
  pose proof (IndexByte_lower s EQ) as Hlow.
  destruct (Z.ltb_spec (IndexByte s EQ) 0) as [Hneg|Hpos].
  - cbn. f_equal. rewrite <- IH.
    destruct (Z.ltb_spec (-1) (IndexByte s EQ)); [lia|reflexivity].
  - destruct (Z.ltb_spec (-1) (IndexByte s EQ + 1)); [|lia].
    replace (Z.to_nat (IndexByte s EQ + 1)) with (S (Z.to_nat (IndexByte s EQ))) by lia.
    cbn [take]. f_equal. rewrite <- IH.
    destruct (Z.ltb_spec (-1) (IndexByte s EQ)); [reflexivity|lia].
Qed.

Lemma IndexByte_app (name s : text) :
  EQ ∉ name -> IndexByte (name ++ EQ :: s) EQ = Z.of_nat (length name).
Proof.
  induction name as [|x name IH]; intros Hn; cbn [app IndexByte length].
  - rewrite bool_decide_eq_true_2 by reflexivity. reflexivity.
  - rewrite bool_decide_eq_false_2
      by (intros ->; apply Hn, list_elem_of_here).
    rewrite IH by (intros Hx; apply Hn; right; exact Hx).
    destruct (Z.ltb_spec (Z.of_nat (length name)) 0); lia.
Qed.

Lemma before_app (name s : text) :
  EQ ∉ name -> before EQ (name ++ EQ :: s) = name.
Proof.
  induction name as [|x name IH]; intros Hn; cbn [app before].
  - rewrite bool_decide_eq_true_2 by reflexivity. reflexivity.
  - rewrite bool_decide_eq_false_2
      by (intros ->; apply Hn, list_elem_of_here).
    rewrite IH by (intros Hx; apply Hn; right; exact Hx). reflexivity.
Qed.

Lemma before_whole (name : text) : EQ ∉ name -> before EQ name = name.
Proof.
  induction name as [|x name IH]; intros Hn; cbn [before]; [reflexivity|].
  rewrite bool_decide_eq_false_2
    by (intros ->; apply Hn, list_elem_of_here).
  rewrite IH by (intros Hx; apply Hn; right; exact Hx). reflexivity.
Qed.

(** No name of a flag holds a [=]. *)
Lemma names_without_equals :
  Forall (fun name => EQ ∉ name) (helps ++ switches ++ valued).
Proof.
  apply Forall_forall. intros name Hin.
  unfold helps, switches, valued in Hin. cbn [app] in Hin.
  rewrite !elem_of_cons, elem_of_nil in Hin.
  repeat (destruct Hin as [->|Hin]); try contradiction;
    apply (bool_decide_unpack _); vm_compute; exact I.
Qed.

Lemma help_without_equals name : name ∈ helps -> EQ ∉ name.
Proof.
  intros Hin. eapply (proj1 (Forall_forall _ _) names_without_equals).
  rewrite elem_of_app. left. exact Hin.
Qed.

Lemma switch_without_equals name : name ∈ switches -> EQ ∉ name.
Proof.
  intros Hin. eapply (proj1 (Forall_forall _ _) names_without_equals).
  rewrite !elem_of_app. right. left. exact Hin.
Qed.

Lemma valued_without_equals name : name ∈ valued -> EQ ∉ name.
Proof.
  intros Hin. eapply (proj1 (Forall_forall _ _) names_without_equals).
  rewrite !elem_of_app. right. right. exact Hin.
Qed.

Lemma words_not_nil (it : item) : words it <> [].
Proof. destruct it as [name [s|]|name [|] value|word]; discriminate. Qed.

Lemma command_cons it items : command (it :: items) = words it ++ command items.
Proof. reflexivity. Qed.

Lemma command_app items1 items2 :
  command (items1 ++ items2) = command items1 ++ command items2.
Proof. apply flat_map_app. Qed.

Lemma command_nil_inv items : command items = [] -> items = [].
Proof.
  destruct items as [|it items]; [reflexivity|].
  rewrite command_cons. intros H. apply app_eq_nil in H as [H _].
  destruct (words_not_nil _ H).
Qed.

Lemma settings_nil c : settings c [] = c.
Proof.
  destruct c. unfold settings, has, values_of. cbn.
  rewrite !orb_false_r, !app_nil_r. reflexivity.
Qed.

Lemma before_flag_word name suffix :
  EQ ∉ name -> before EQ (flag_word name suffix) = name.
Proof.
  intros Hn. destruct suffix as [s|]; cbn [flag_word].
  - apply before_app, Hn.
  - apply before_whole, Hn.
Qed.

Lemma words_switch name suffix : words (Switch name suffix) = [flag_word name suffix].
Proof. destruct suffix; reflexivity. Qed.

Lemma has_app names l1 l2 : has names (l1 ++ l2) = has names l1 || has names l2.
Proof. apply existsb_app. Qed.

Lemma values_of_app names l1 l2 :
  values_of names (l1 ++ l2) = values_of names l1 ++ values_of names l2.
Proof. apply flat_map_app. Qed.

Lemma settings_app c l1 l2 : settings c (l1 ++ l2) = settings (settings c l1) l2.
Proof.
  unfold settings. cbn [file readFromStdin list_ preserve ignoreQuotes envOverrides
                             envFiles interpret editInPlace].
  rewrite !has_app, !values_of_app, !orb_assoc, !app_assoc.
  destruct (has [str "--interpret"] l1), (has [str "--interpret"] l2); reflexivity.
Qed.

Lemma settings_cons c it items : settings c (it :: items) = settings (settings c [it]) items.
Proof. apply (settings_app c [it] items). Qed.

(** One turn of the loop on an argument that is not skipped. *)
Local Ltac loop_step :=
  cbn [args_loop];
  match goal with
  | |- context [bool_decide (Z.of_nat ?i = ?li)] =>
      rewrite (bool_decide_eq_false_2 (Z.of_nat i = li)) by lia
  end;
  rewrite ?flag_before.

Local Ltac closed_decide :=
  repeat match goal with
  | |- context [bool_decide ?P] =>
      let b := eval vm_compute in (bool_decide P) in
      match b with true => idtac | false => idtac end;
      change (bool_decide P) with b
  end;
  cbv beta iota.

Local Ltac same_config :=
  match goal with
  | |- context [settings ?c _] =>
      destruct c; unfold settings, has, values_of, SetList, SetPreserve, SetIgnore,
        SetInterpret, SetEditInPlace, AddOverride, AddEnvFile, AddFile;
      cbn [existsb flat_map file readFromStdin list_ preserve ignoreQuotes envOverrides
                   envFiles interpret editInPlace];
      closed_decide;
      rewrite ?orb_false_r, ?orb_true_r, ?app_nil_r; reflexivity
  end.

Lemma args_loop_switch args name suffix rest i li c :
  name ∈ switches -> li < Z.of_nat i ->
  args_loop args (flag_word name suffix :: rest) i li c
  = args_loop args rest (S i) li (settings c [Switch name suffix]).
Proof.
  intros Hname Hli. loop_step.
  rewrite (before_flag_word name suffix) by (apply switch_without_equals, Hname).
  unfold switches in Hname. rewrite !elem_of_cons, elem_of_nil in Hname.
  repeat (destruct Hname as [->|Hname]); try contradiction;
    closed_decide; f_equal; same_config.
Qed.

Lemma args_loop_joined args name value rest i li c :
  name ∈ valued -> li < Z.of_nat i ->
  args_loop args ((name ++ EQ :: value) :: rest) i li c
  = args_loop args rest (S i) li (settings c [Valued name true value]).
Proof.
  intros Hname Hli. loop_step.
  pose proof (valued_without_equals name Hname) as Hn.
  rewrite (before_app name value Hn), (IndexByte_app name value Hn).
  replace (Z.to_nat (Z.of_nat (length name) + 1)) with (S (length name)) by lia.
  replace (drop (S (length name)) (name ++ EQ :: value)) with value
    by (change (name ++ EQ :: value) with (name ++ [EQ] ++ value);
        rewrite app_assoc, drop_app_length';
        [reflexivity | rewrite length_app; cbn [length]; lia]).
  rewrite (bool_decide_eq_false_2 (name = name ++ EQ :: value))
    by (intros Heq; apply (f_equal length) in Heq;
        rewrite length_app in Heq; cbn [length] in Heq; lia).
  unfold valued in Hname. rewrite !elem_of_cons, elem_of_nil in Hname.
  repeat (destruct Hname as [->|Hname]); try contradiction;
    closed_decide; f_equal; same_config.
Qed.

Lemma args_loop_apart args name value rest i li c :
  name ∈ valued -> li < Z.of_nat i -> args !! S i = Some value ->
  args_loop args (name :: value :: rest) i li c
  = args_loop args rest (S (S i)) (Z.of_nat i + 1)
              (settings c [Valued name false value]).
Proof.
  intros Hname Hli Hnext. loop_step.
  pose proof (valued_without_equals name Hname) as Hn.
  rewrite (before_whole name Hn).
  rewrite (bool_decide_eq_true_2 (name = name)) by reflexivity.
  replace (Z.to_nat (Z.of_nat i + 1)) with (S i) by lia.
  rewrite Hnext.
  unfold valued in Hname. rewrite !elem_of_cons, elem_of_nil in Hname.
  repeat (destruct Hname as [->|Hname]); try contradiction;
    closed_decide; cbn [args_loop];
    rewrite (bool_decide_eq_true_2 (Z.of_nat (S i) = Z.of_nat i + 1)) by lia;
    f_equal; same_config.
Qed.

(** An option that wants a value and stands last reads past the
    arguments. *)
Lemma args_loop_no_value args name i li c w :
  name ∈ valued -> li < Z.of_nat i -> length args = S i ->
  args_loop args [name] i li c w = (inr (IndexOutOfRange (S i) (S i)), w).
Proof.
  intros Hname Hli Hlen. loop_step.
  pose proof (valued_without_equals name Hname) as Hn.
  rewrite (before_whole name Hn).
  rewrite (bool_decide_eq_true_2 (name = name)) by reflexivity.
  replace (Z.to_nat (Z.of_nat i + 1)) with (S i) by lia.
  rewrite (lookup_ge_None_2 args (S i)) by lia. rewrite Hlen.
  unfold valued in Hname. rewrite !elem_of_cons, elem_of_nil in Hname.
  repeat (destruct Hname as [->|Hname]); try contradiction;
    closed_decide; reflexivity.
Qed.

Lemma args_loop_help args name suffix rest i li c w :
  name ∈ helps -> li < Z.of_nat i ->
  args_loop args (flag_word name suffix :: rest) i li c w
  = (inr (Exit 0 []), with_stdout (fun out => out ++ hello) w).
Proof.
  intros Hname Hli. loop_step.
  rewrite (before_flag_word name suffix) by (apply help_without_equals, Hname).
  rewrite (bool_decide_eq_true_2 (name ∈ [str "-h"; str "--help"])) by exact Hname.
  reflexivity.
Qed.

Lemma stray_flag (word : text) :
  before EQ word ∉ helps ++ switches ++ valued ->
  (before EQ word ∉ [str "-h"; str "--help"])
  /\ (before EQ word ∉ [str "-l"; str "--list"])
  /\ (before EQ word ∉ [str "-p"; str "--preserve"])
  /\ before EQ word <> str "--ignoreQuotes"
  /\ before EQ word <> str "--interpret"
  /\ before EQ word <> str "-i"
  /\ (before EQ word ∉ [str "-e"; str "--env"])
  /\ before EQ word <> str "--envfile".
Proof.
  unfold helps, switches, valued. cbn [app].
  rewrite !elem_of_cons, !elem_of_nil. tauto.
Qed.

Lemma args_loop_stray args word rest i li c :
  before EQ word ∉ helps ++ switches ++ valued -> li < Z.of_nat i ->
  args_loop args (word :: rest) i li c
  = args_loop args rest (S i) li
      (if bool_decide (Z.of_nat i = Z.of_nat (length args) - 1)
       then AddFile word c else c).
Proof.
  intros Hstray Hli. loop_step.
  destruct (stray_flag word Hstray) as (H1 & H2 & H3 & H4 & H5 & H6 & H7 & H8).
  rewrite (bool_decide_eq_false_2 _ H1), (bool_decide_eq_false_2 _ H2),
    (bool_decide_eq_false_2 _ H3), (bool_decide_eq_false_2 _ H4),
    (bool_decide_eq_false_2 _ H5), (bool_decide_eq_false_2 _ H6),
    (bool_decide_eq_false_2 _ H7), (bool_decide_eq_false_2 _ H8).
  case_bool_decide; reflexivity.
Qed.
